(** * LLM News Sanitizer: the text splitter and the chunk orchestrator

    A shallow embedding of

    - [shared/split-text.js]: [splitText], [_splitRecursive], [SEPARATORS];
    - [shared/constants.js]: [CHARS_PER_TOKEN];
    - [providers/openai-agents.js]: the budget computation of
      [OpenAIAgentsProvider.call], [_streamChunk], [_processChunkWithRetry],
      [isContextError], [formatErrorMessage] and the chunk loop of [call].

    (the splitter is the module that the providers import as
    [../shared/split-text.js]; the provider is the class registered as
    [OpenAIAgentsProvider]).

    JavaScript strings are sequences of UTF-16 code units; [length], [slice],
    [split] and [+] all work on code units, so a string is modelled as the
    list of its code units.  Token counts and budgets are integers.  The
    backend, the stream it produces and the moment the abort signal fires
    are inputs of the model: a backend is any deterministic machine, and
    every statement about the orchestrator holds for all of them. *)

From Stdlib Require Import String Ascii.
From Stdlib Require Import List Arith Lia Bool NArith ZArith.
Import ListNotations.

Set Implicit Arguments.

(* ===================================================================== *)
(** ** JavaScript strings *)
(* ===================================================================== *)

Module JS.

(** A UTF-16 code unit. *)
Definition char := N.

Definition jsstring := list char.

(** A string literal of the development, read as its code units. *)
Definition lit (s : string) : jsstring :=
  map N_of_ascii (list_ascii_of_string s).

(** JavaScript truthiness of a string: only [''] is falsy. *)
Definition truthy (s : jsstring) : bool :=
  match s with
  | [] => false
  | _ :: _ => true
  end.

(** [text.startsWith(sep)] *)
Fixpoint startsWith (sep text : jsstring) : bool :=
  match sep, text with
  | [], _ => true
  | _ :: _, [] => false
  | a :: sep', b :: text' => N.eqb a b && startsWith sep' text'
  end.

(** [text.includes(sep)] *)
Fixpoint includes (sep text : jsstring) : bool :=
  startsWith sep text ||
  match text with
  | [] => false
  | _ :: text' => includes sep text'
  end.

(** [text.slice(i, j)] for [0 <= i <= j]. *)
Definition slice (text : jsstring) (i j : nat) : jsstring :=
  firstn (j - i) (skipn i text).

(** [parts.join(sep)] *)
Fixpoint join (sep : jsstring) (parts : list jsstring) : jsstring :=
  match parts with
  | [] => []
  | [p] => p
  | p :: ps => p ++ sep ++ join sep ps
  end.

(** [text.split(sep)] for a non-empty string separator: scan from the left;
    where [sep] matches, close the current piece and jump over the match,
    otherwise move the current code unit into the piece.  [cur] is the piece
    being read.  The scan takes at most one step per code unit, which is what
    the fuel counts. *)
Fixpoint split_scan (fuel : nat) (sep text cur : jsstring) : list jsstring :=
  match fuel with
  | 0 => [cur ++ text]
  | S fuel' =>
      match text with
      | [] => [cur]
      | c :: rest =>
          if startsWith sep text
          then cur :: split_scan fuel' sep (skipn (length sep) text) []
          else split_scan fuel' sep rest (cur ++ [c])
      end
  end.

Definition split (text sep : jsstring) : list jsstring :=
  split_scan (length text) sep text [].

End JS.

Import JS.

(* ===================================================================== *)
(** ** shared/split-text.js *)
(* ===================================================================== *)

(** [const SEPARATORS = ['\n\n', '\n', '. ', ' '];] *)
Definition SEPARATORS : list jsstring :=
  [[10; 10]; [10]; [46; 32]; [32]]%N.

(** The hard character split:
    [for (let i = 0; i < text.length; i += maxChars)
         chunks.push(text.slice(i, i + maxChars));]
    For [maxChars >= 1] the loop runs at most [text.length] times, which is
    the fuel that [hardSplit] gives it.  For [maxChars = 0] the source loop
    does not terminate; every statement below about the splitter assumes
    [1 <= maxChars]. *)
Fixpoint hardSplit_loop (fuel : nat) (text : jsstring) (maxChars i : nat)
  : list jsstring :=
  match fuel with
  | 0 => []
  | S fuel' =>
      if i <? length text
      then slice text i (i + maxChars)
             :: hardSplit_loop fuel' text maxChars (i + maxChars)
      else []
  end.

Definition hardSplit (text : jsstring) (maxChars : nat) : list jsstring :=
  hardSplit_loop (length text) text maxChars 0.

(** The merge loop over [parts], with its two variables [chunks] and
    [current]:
    [for (const part of parts) {
         const candidate = current ? current + sep + part : part;
         if (candidate.length <= maxChars) { current = candidate; }
         else { if (current) chunks.push(current); current = part; } }
     if (current) chunks.push(current);] *)
Fixpoint mergeLoop (sep : jsstring) (maxChars : nat) (parts : list jsstring)
  (chunks : list jsstring) (current : jsstring) : list jsstring :=
  match parts with
  | [] => if truthy current then chunks ++ [current] else chunks
  | part :: parts' =>
      let candidate :=
        if truthy current then current ++ sep ++ part else part in
      if length candidate <=? maxChars
      then mergeLoop sep maxChars parts' chunks candidate
      else mergeLoop sep maxChars parts'
             (if truthy current then chunks ++ [current] else chunks) part
  end.

Definition mergeParts (sep : jsstring) (maxChars : nat)
  (parts : list jsstring) : list jsstring :=
  mergeLoop sep maxChars parts [] [].

(** [_splitRecursive(text, maxChars, sepIdx)].  Every recursive call is at
    [sepIdx + 1], so [SEPARATORS.length - sepIdx] calls deep is the most the
    recursion goes before the hard split; [fuel] is that depth. *)
Fixpoint splitRecursive_fuel (fuel : nat) (text : jsstring)
  (maxChars sepIdx : nat) : list jsstring :=
  if length text <=? maxChars then [text]
  else
    match nth_error SEPARATORS sepIdx with
    | None => hardSplit text maxChars
    | Some sep =>
        let parts := split text sep in
        match fuel with
        | 0 => []
        | S fuel' =>
            if length parts <=? 1
            then splitRecursive_fuel fuel' text maxChars (sepIdx + 1)
            else
              flat_map
                (fun chunk =>
                   if maxChars <? length chunk
                   then splitRecursive_fuel fuel' chunk maxChars (sepIdx + 1)
                   else [chunk])
                (mergeParts sep maxChars parts)
        end
    end.

Definition _splitRecursive (text : jsstring) (maxChars sepIdx : nat)
  : list jsstring :=
  splitRecursive_fuel (length SEPARATORS - sepIdx) text maxChars sepIdx.

Definition splitText (text : jsstring) (maxChars : nat) : list jsstring :=
  if length text <=? maxChars then [text]
  else _splitRecursive text maxChars 0.

(* ===================================================================== *)
(** ** shared/constants.js and the constants of providers/openai-agents.js *)
(* ===================================================================== *)

Definition CHARS_PER_TOKEN : Z := 3.
Definition RESPONSE_BUFFER_TOKENS : Z := 1024.
Definition MIN_CONTENT_TOKENS : Z := 256.
Definition MAX_RETRY_DEPTH : nat := 2.

(* ===================================================================== *)
(** ** The chunk budget of [OpenAIAgentsProvider.call] *)
(* ===================================================================== *)

(** The settings fields that the budget reads.  Token counts are integers;
    an absent field is [None]. *)
Record Settings := {
  model : option jsstring;
  contextLength : option Z
}.

(** What [client.models.retrieve(model)] answers. *)
Record ModelInfo := {
  context_window : option Z;
  context_length : option Z
}.

(** Truthiness of an optional number: [undefined], [null] and [0] are
    falsy. *)
Definition numTruthy (x : option Z) : bool :=
  match x with
  | Some v => negb (Z.eqb v 0)
  | None => false
  end.

(** [a || b] on optional numbers. *)
Definition orElse (a b : option Z) : option Z :=
  if numTruthy a then a else b.

(** [_detectContextLength(client, model)]; [info] is [None] when
    [client.models.retrieve] throws. *)
Definition _detectContextLength (m : option jsstring)
  (info : option ModelInfo) : option Z :=
  match m with
  | None => None
  | Some name =>
      if truthy name then
        match info with
        | Some i => orElse (orElse (context_window i) (context_length i)) None
        | None => None
        end
      else None
  end.

(** [Math.ceil(n / d)] for [n >= 0] and [d > 0]. *)
Definition ceilDiv (n d : Z) : Z := ((n + d - 1) / d)%Z.

(** [prompt?.length ?? 0] *)
Definition promptLength (prompt : option jsstring) : Z :=
  match prompt with
  | Some p => Z.of_nat (length p)
  | None => 0%Z
  end.

(** [x || dflt] on an optional number. *)
Definition numberOr (x : option Z) (dflt : Z) : Z :=
  match x with
  | Some v => if Z.eqb v 0 then dflt else v
  | None => dflt
  end.

(** The priority chain: user setting, then detection, then 4096; at least
    512.
    [if (this.settings.contextLength) ctx = this.settings.contextLength;
     else { const detected = await this._detectContextLength(client, model);
            ctx = detected || 4096; }
     ctx = Math.max(512, ctx);] *)
Definition contextTokens (s : Settings) (info : option ModelInfo) : Z :=
  let ctx :=
    if numTruthy (contextLength s) then numberOr (contextLength s) 0
    else
      let detected := _detectContextLength (model s) info in
      numberOr detected 4096 in
  Z.max 512 ctx.

Definition maxChunkChars (s : Settings) (info : option ModelInfo)
  (prompt : option jsstring) : Z :=
  let ctx := contextTokens s info in
  let promptTokensEst := ceilDiv (promptLength prompt) CHARS_PER_TOKEN in
  let reserveTokens :=
    Z.min (ctx - MIN_CONTENT_TOKENS)
          (promptTokensEst + RESPONSE_BUFFER_TOKENS) in
  let maxChunkTokens := Z.max MIN_CONTENT_TOKENS (ctx - reserveTokens) in
  (maxChunkTokens * CHARS_PER_TOKEN)%Z.

(* ===================================================================== *)
(** ** Errors and their classification *)
(* ===================================================================== *)

Record JsError := {
  name : jsstring;
  message : jsstring
}.

(** [new DOMException("Cancelled", "AbortError")] *)
Definition AbortError : JsError :=
  {| name := lit "AbortError"; message := lit "Cancelled" |}.

(** [new Error(msg)] *)
Definition newError (msg : jsstring) : JsError :=
  {| name := lit "Error"; message := msg |}.

Definition jsstring_eqb (a b : jsstring) : bool :=
  (length a =? length b) && startsWith a b.

(** [err?.name === 'AbortError'] *)
Definition isAbortError (e : JsError) : bool :=
  jsstring_eqb (name e) (lit "AbortError").

(** Case folding of the [i] flag on the letters A to Z; a code unit above
    127 never matches an ASCII pattern letter. *)
Definition foldCase (c : char) : char :=
  if (N.leb 65 c && N.leb c 90)%bool then (c + 32)%N else c.

(** [/p1|p2|.../i.test(m)] for literal alternatives. *)
Definition testAny (patterns : list string) (m : jsstring) : bool :=
  existsb (fun p => includes (map foldCase (lit p)) (map foldCase m)) patterns.

Definition isContextError (e : JsError) : bool :=
  testAny ["context size"; "context length"; "context window"; "n_ctx";
           "exceeded"; "too many tokens"; "input too long";
           "maximum context"]%string (message e).

Definition formatErrorMessage (e : JsError) : jsstring :=
  if isAbortError e then lit "Cancelled (tab closed or reloaded)."
  else if testAny ["timeout"; "timed out"; "ETIMEDOUT"; "abort"]%string
            (message e)
  then lit "Request timed out. Try increasing timeout or reducing context length."
  else if isContextError e
  then lit "Context size exceeded. Reduce " ++ [34%N]
         ++ lit "Context length" ++ [34%N]
         ++ lit " in settings or shorten the prompt."
  else if testAny ["fetch"; "network"; "failed to fetch"; "Connection";
                   "ECONNREFUSED"; "ECONNRESET"]%string (message e)
  then lit "Network error. Check API URL and that the server is running."
  else message e.

(* ===================================================================== *)
(** ** The orchestrator: [_streamChunk], [_processChunkWithRetry], [call] *)
(* ===================================================================== *)

(** What one [runner.run(agent, chunk, { stream: true })] does, as seen by
    [_streamChunk]: the values its reads return, in order, then how the
    attempt settles. *)
Record Outcome := {
  out_deltas : list jsstring;
  (** [None]: the stream ends and [result.completed] resolves; [Some e]:
      [runner.run], a read, [result.completed] or the chunk timeout rejects
      with [e] after the deltas above. *)
  out_error : option JsError;
  (** whether the abort signal has fired by the time the attempt settles *)
  out_abort : bool
}.

(** One backend attempt, as logged. *)
Record Attempt := {
  att_chunk : jsstring;
  att_deltas : list jsstring;
  att_ok : bool
}.

Inductive Res (A : Type) : Type :=
  | Ok (a : A)
  | Throw (e : JsError).

Arguments Ok {A} a.
Arguments Throw {A} e.

Section Orchestrator.

(** The backend is any deterministic machine: a state and what one call
    on a chunk answers from that state. *)
Variable Backend : Type.
Variable run : Backend -> jsstring -> Outcome * Backend.

(** What a call of the provider acts on. *)
Record World := {
  backend : Backend;
  (** [signal?.aborted] *)
  aborted : bool;
  (** the arguments of [onUpdate], in emission order *)
  updates : list jsstring;
  (** the [runner.run] calls made, in order (a log, read by no code) *)
  attempts : list Attempt;
  (** the [retryDepth] of each [_processChunkWithRetry] invocation, in
      order (a log, read by no code) *)
  depths : list nat
}.

(** Computations that act on the world and return or throw. *)
Definition M (A : Type) : Type := World -> Res A * World.

Definition ret {A} (a : A) : M A := fun w => (Ok a, w).

Definition throw {A} (e : JsError) : M A := fun w => (Throw e, w).

Definition bind {A B} (m : M A) (k : A -> M B) : M B :=
  fun w =>
    match m w with
    | (Ok a, w') => k a w'
    | (Throw e, w') => (Throw e, w')
    end.

(** [try { m } catch (err) { handler(err) }] *)
Definition tryCatch {A} (m : M A) (handler : JsError -> M A) : M A :=
  fun w =>
    match m w with
    | (Ok a, w') => (Ok a, w')
    | (Throw e, w') => handler e w'
    end.

Notation "x <- m ;; k" := (bind m (fun x => k))
  (at level 61, m at next level, right associativity).
Notation "m ;;; k" := (bind m (fun _ => k))
  (at level 61, right associativity).

(** [if (signal?.aborted) throw new DOMException("Cancelled", "AbortError");] *)
Definition throwIfAborted : M unit :=
  fun w => if aborted w then (Throw AbortError, w) else (Ok tt, w).

(** [if (onUpdate) onUpdate(value);] with the callback supplied. *)
Definition onUpdate (value : jsstring) : M unit :=
  fun w =>
    (Ok tt,
     {| backend := backend w; aborted := aborted w;
        updates := updates w ++ [value];
        attempts := attempts w; depths := depths w |}).

(** The read loop of [_streamChunk]:
    [chunkText += readResult.value; if (onUpdate) onUpdate(readResult.value);] *)
Fixpoint readLoop (values : list jsstring) (chunkText : jsstring)
  : M jsstring :=
  match values with
  | [] => ret chunkText
  | value :: rest =>
      onUpdate value ;;; readLoop rest (chunkText ++ value)
  end.

(** [runner.run]: the backend moves on, the call is logged, the signal may
    have fired meanwhile. *)
Definition runner_run (chunk : jsstring) : M Outcome :=
  fun w =>
    let (o, b') := run (backend w) chunk in
    (Ok o,
     {| backend := b'; aborted := aborted w || out_abort o;
        updates := updates w;
        attempts := attempts w ++
          [{| att_chunk := chunk; att_deltas := out_deltas o;
              att_ok := match out_error o with
                        | None => true
                        | Some _ => false
                        end |}];
        depths := depths w |}).

Definition _streamChunk (chunk : jsstring) : M jsstring :=
  o <- runner_run chunk ;;
  chunkText <- readLoop (out_deltas o) [] ;;
  match out_error o with
  | None => ret chunkText
  | Some e => throw e
  end.

(** The loop shared by [call] and the retry:
    [for (const c of chunks) {
         if (signal?.aborted) throw new DOMException("Cancelled", "AbortError");
         const t = await body(c);
         fullText += t; }
     return fullText;] *)
Fixpoint forChunks (body : jsstring -> M jsstring) (chunks : list jsstring)
  (fullText : jsstring) : M jsstring :=
  match chunks with
  | [] => ret fullText
  | c :: rest =>
      throwIfAborted ;;;
      t <- body c ;;
      forChunks body rest (fullText ++ t)
  end.

(** Logs the depth of a [_processChunkWithRetry] invocation. *)
Definition logDepth (retryDepth : nat) (w : World) : World :=
  {| backend := backend w; aborted := aborted w; updates := updates w;
     attempts := attempts w; depths := depths w ++ [retryDepth] |}.

Definition enter (retryDepth : nat) : M unit :=
  fun w => (Ok tt, logDepth retryDepth w).

(** [_processChunkWithRetry(chunk, maxChunkChars, ..., retryDepth)].  A
    recursive call is made only under [retryDepth < MAX_RETRY_DEPTH] and
    at [retryDepth + 1]; [fuel] counts the levels that are left. *)
Fixpoint processChunkWithRetry_fuel (fuel : nat) (chunk : jsstring)
  (maxChunkChars retryDepth : nat) : M jsstring :=
  tryCatch (enter retryDepth ;;; _streamChunk chunk)
    (fun err =>
       if isContextError err && (retryDepth <? MAX_RETRY_DEPTH)
       then
         match fuel with
         | 0 => throw err
         | S fuel' =>
             let subChunks := splitText chunk (maxChunkChars / 2) in
             forChunks
               (fun subChunk =>
                  processChunkWithRetry_fuel fuel' subChunk maxChunkChars
                    (retryDepth + 1))
               subChunks []
         end
       else throw err).

Definition _processChunkWithRetry (chunk : jsstring)
  (maxChunkChars retryDepth : nat) : M jsstring :=
  processChunkWithRetry_fuel (MAX_RETRY_DEPTH - retryDepth) chunk
    maxChunkChars retryDepth.

(** [call({ text, prompt, onUpdate, signal })], from the budget on; the
    returned string is the [content] of the result.  The status channel
    ([onStatus]) is left out. *)
Definition call (s : Settings) (info : option ModelInfo)
  (text : jsstring) (prompt : option jsstring) : M jsstring :=
  let budget := Z.to_nat (maxChunkChars s info prompt) in
  let chunks := splitText text budget in
  tryCatch
    (forChunks (fun chunk => _processChunkWithRetry chunk budget 0)
       chunks [])
    (fun err =>
       if isAbortError err then throw err
       else throw (newError (formatErrorMessage err))).

(** Where a call starts from: nothing emitted, nothing logged. *)
Definition initialWorld (b : Backend) (sig : bool) : World :=
  {| backend := b; aborted := sig; updates := []; attempts := [];
     depths := [] |}.

(** *** Specification vocabulary for the orchestrator *)

(** What one attempt on [chunk] returns from [w], and the world it
    leaves. *)
Definition attemptResult (chunk : jsstring) (w : World) : Res jsstring :=
  let o := fst (run (backend w) chunk) in
  match out_error o with
  | None => Ok (concat (out_deltas o))
  | Some e => Throw e
  end.

Definition attemptWorld (chunk : jsstring) (w : World) : World :=
  let o := fst (run (backend w) chunk) in
  {| backend := snd (run (backend w) chunk);
     aborted := aborted w || out_abort o;
     updates := updates w ++ out_deltas o;
     attempts := attempts w ++
       [{| att_chunk := chunk; att_deltas := out_deltas o;
           att_ok := match out_error o with
                     | None => true
                     | Some _ => false
                     end |}];
     depths := depths w |}.

(** [Runs body chunks w ts w']: from [w], with the signal not fired before
    any of them, [body] succeeds on each chunk in turn, with results [ts],
    and leaves [w']. *)
Inductive Runs (body : jsstring -> M jsstring)
  : list jsstring -> World -> list jsstring -> World -> Prop :=
  | Runs_nil w : Runs body [] w [] w
  | Runs_cons c cs w t w1 ts w2 :
      aborted w = false ->
      body c w = (Ok t, w1) ->
      Runs body cs w1 ts w2 ->
      Runs body (c :: cs) w (t :: ts) w2.

(** The deltas of the attempts that completed. *)
Definition completedDeltas (log : list Attempt) : list jsstring :=
  flat_map att_deltas (filter att_ok log).

(** [Tracked m prefix]: whatever [m] does, the attempt log only grows,
    the deltas passed to [onUpdate] are the deltas of the new attempts in
    order, and a returned text is [prefix] followed by the deltas of the
    new attempts that completed. *)
Definition Tracked (m : M jsstring) (prefix : jsstring) : Prop :=
  forall w r w',
    m w = (r, w') ->
    exists new,
      attempts w' = attempts w ++ new /\
      updates w' = updates w ++ flat_map att_deltas new /\
      forall t, r = Ok t -> t = prefix ++ concat (completedDeltas new).

(** The number of backend calls that [m] makes from [w]. *)
Definition callsMade {A} (m : M A) (w : World) : nat :=
  length (attempts (snd (m w))) - length (attempts w).

(** A backend that rejects every chunk with an overflow-classified
    error. *)
Definition AlwaysOverflow : Prop :=
  forall b chunk,
    exists e,
      out_error (fst (run b chunk)) = Some e /\ isContextError e = true.

End Orchestrator.

(* ===================================================================== *)
(** ** Specification vocabulary for the splitter *)
(* ===================================================================== *)

(** The chunks put back together with one separator string between each two
    neighbours: [rejoin [c1; c2; c3] [s1; s2] = c1 ++ s1 ++ c2 ++ s2 ++ c3]. *)
Fixpoint rejoin (chunks seps : list jsstring) : jsstring :=
  match chunks, seps with
  | [], _ => []
  | c :: cs, s :: ss => c ++ match cs with
                             | [] => []
                             | _ :: _ => s ++ rejoin cs ss
                             end
  | c :: cs, [] => c ++ rejoin cs []
  end.

(** A run of separators: zero or more members of [SEPARATORS], one after
    the other. *)
Inductive SepRun : jsstring -> Prop :=
  | SepRun_nil : SepRun []
  | SepRun_cons sep g : In sep SEPARATORS -> SepRun g -> SepRun (sep ++ g).

(** The chunks put back together with a gap before the first chunk, between
    each two neighbours and after the last one:
    [interleave [g0; g1; g2] [c1; c2] = g0 ++ c1 ++ g1 ++ c2 ++ g2]. *)
Fixpoint interleave (gaps chunks : list jsstring) : jsstring :=
  match gaps with
  | [] => []
  | g :: gs =>
      match chunks with
      | [] => g
      | c :: cs => g ++ c ++ interleave gs cs
      end
  end.

(** [Decomp text chunks]: [text] is the chunks in order with a run of
    separators in each gap. *)
Inductive Decomp : jsstring -> list jsstring -> Prop :=
  | Decomp_nil g : SepRun g -> Decomp g []
  | Decomp_cons g c rest cs :
      SepRun g -> Decomp rest cs -> Decomp (g ++ c ++ rest) (c :: cs).

(** The code units that occur in a separator: line feed, space, full stop. *)
Definition separatorChar (c : char) : bool :=
  (N.eqb c 10 || N.eqb c 32 || N.eqb c 46)%bool.

(** The text is words with a single space between each two and nothing else
    that the splitter takes for a separator: no line feed, no full stop
    followed by a space, no empty word (so no leading, trailing or doubled
    space), and no word longer than [maxWord]. *)
Definition singleSpaced (maxWord : nat) (text : jsstring) : bool :=
  negb (includes [10%N] text) &&
  negb (includes [46%N; 32%N] text) &&
  forallb (fun w => (1 <=? length w) && (length w <=? maxWord))
          (split text [32%N]).

(** Sample texts of 10,000 code units: 1,000 short words, and five words
    of about 2,000 code units. *)
Definition word (n : nat) : jsstring := repeat 97%N n.

Definition shortWords : jsstring :=
  join [32%N] (repeat (word 9) 999 ++ [word 10]).

Definition longWords : jsstring :=
  join [32%N] (repeat (word 2001) 4 ++ [word 1992]).

(* ===================================================================== *)
(** ** Sample backends and inputs *)
(* ===================================================================== *)

(** [new Error("context length exceeded")] *)
Definition overflowError : JsError := newError (lit "context length exceeded").

(** A stateless backend with a context window of [limit] code units: a
    chunk that fits is echoed in one delta; a longer one is rejected with
    an overflow error after the deltas [partial]. *)
Definition windowBackend (limit : nat) (partial : list jsstring)
  (b : unit) (chunk : jsstring) : Outcome * unit :=
  if length chunk <=? limit
  then ({| out_deltas := [chunk]; out_error := None; out_abort := false |}, b)
  else ({| out_deltas := partial; out_error := Some overflowError;
           out_abort := false |}, b).

(** A backend that rejects every chunk. *)
Definition rejectingBackend (b : unit) (chunk : jsstring) : Outcome * unit :=
  ({| out_deltas := []; out_error := Some overflowError;
      out_abort := false |}, b).

(** Settings with a declared context of 512 tokens: the budget is 768
    code units. *)
Definition smallContext : Settings :=
  {| model := None; contextLength := Some 512%Z |}.

(** Two words of 300 code units. *)
Definition twoWords : jsstring := word 300 ++ [32%N] ++ word 300.

(** A paragraph of three words, the middle one of 384 code units, and a
    second paragraph: 391 code units. *)
Definition twoParagraphs : jsstring :=
  lit "x" ++ [32%N] ++ word 384 ++ [32%N] ++ lit "z"
    ++ [10%N; 10%N] ++ lit "w".

(** 800 spaces. *)
Definition spaces : jsstring := repeat 32%N 800.


(* ===================================================================== *)
(** ** Further vocabulary: slices, backends that accept, size limits *)
(* ===================================================================== *)

(** [OrderedSlices text from chunks]: the chunks are slices of [text] that
    start at or after [from], in order and without overlap. *)
Fixpoint OrderedSlices (text : jsstring) (from : nat)
  (chunks : list jsstring) : Prop :=
  match chunks with
  | [] => True
  | c :: cs =>
      exists i,
        from <= i /\
        i + length c <= length text /\
        c = slice text i (i + length c) /\
        OrderedSlices text (i + length c) cs
  end.

(** The most code units that a chunk processed at [retryDepth] can have:
    the budget at depth 0, half of it below. *)
Definition sizeLimit (maxChunkChars retryDepth : nat) : nat :=
  if retryDepth =? 0 then maxChunkChars else maxChunkChars / 2.

Section BackendKinds.

Variable Backend : Type.
Variable run : Backend -> jsstring -> Outcome * Backend.

(** A backend whose every stream completes. *)
Definition Accepting : Prop :=
  forall b chunk, out_error (fst (run b chunk)) = None.

(** An environment in which the abort signal does not fire during a
    backend call. *)
Definition NeverAborts : Prop :=
  forall b chunk, out_abort (fst (run b chunk)) = false.

(** The logs agree with the limits: every logged call is at a depth of at
    most [MAX_RETRY_DEPTH], on a chunk within the size limit of its
    depth. *)
Definition WithinLimits (maxChunkChars : nat) (w : World Backend) : Prop :=
  Forall2
    (fun d a =>
       d <= MAX_RETRY_DEPTH /\
       length (att_chunk a) <= sizeLimit maxChunkChars d)
    (depths w) (attempts w).

End BackendKinds.

(** A backend that echoes every chunk in one delta. *)
Definition echoBackend (b : unit) (chunk : jsstring) : Outcome * unit :=
  ({| out_deltas := [chunk]; out_error := None; out_abort := false |}, b).

(** A backend that echoes every chunk while the abort signal fires. *)
Definition echoWhileAborting (b : unit) (chunk : jsstring) : Outcome * unit :=
  ({| out_deltas := [chunk]; out_error := None; out_abort := true |}, b).

(** A text of three words of 300 code units: two chunks under the budget
    of 768. *)
Definition threeWords : jsstring :=
  word 300 ++ [32%N] ++ word 300 ++ [32%N] ++ word 300.

(* ===================================================================== *)
(** ** tools/web-search.js: the search providers and their resolution *)
(* ===================================================================== *)

(** An entry of [extraKeys]. *)
Record ExtraKey := {
  ek_settingsKey : jsstring;
  ek_label : jsstring;
  ek_placeholder : jsstring
}.

(** An entry of [SEARCH_PROVIDERS]; [sp_extraKeys] is [None] where the
    entry has no [extraKeys] property. *)
Record SearchProvider := {
  sp_id : jsstring;
  sp_label : jsstring;
  sp_settingsKey : jsstring;
  sp_placeholder : jsstring;
  sp_freeQuota : jsstring;
  sp_docsUrl : jsstring;
  sp_extraKeys : option (list ExtraKey)
}.

Definition SEARCH_PROVIDERS : list SearchProvider :=
  [ {| sp_id := lit "brave"; sp_label := lit "Brave Search";
       sp_settingsKey := lit "searchKeyBrave"; sp_placeholder := lit "BSA...";
       sp_freeQuota := lit "2 000 req/month";
       sp_docsUrl := lit "https://brave.com/search/api/";
       sp_extraKeys := None |};
    {| sp_id := lit "tavily"; sp_label := lit "Tavily";
       sp_settingsKey := lit "searchKeyTavily"; sp_placeholder := lit "tvly-...";
       sp_freeQuota := lit "1 000 req/month";
       sp_docsUrl := lit "https://tavily.com/";
       sp_extraKeys := None |};
    {| sp_id := lit "serpapi"; sp_label := lit "SerpAPI";
       sp_settingsKey := lit "searchKeySerpapi"; sp_placeholder := [];
       sp_freeQuota := lit "100 req/month";
       sp_docsUrl := lit "https://serpapi.com/";
       sp_extraKeys := None |};
    {| sp_id := lit "google"; sp_label := lit "Google Custom Search";
       sp_settingsKey := lit "searchKeyGoogle"; sp_placeholder := [];
       sp_freeQuota := lit "100 req/day";
       sp_docsUrl :=
         lit "https://developers.google.com/custom-search/v1/overview";
       sp_extraKeys :=
         Some [ {| ek_settingsKey := lit "searchGoogleCx";
                   ek_label := lit "Search Engine ID";
                   ek_placeholder := [] |} ] |} ].

(** [p.extraKeys?.map(k => k.settingsKey) ?? []] *)
Definition extraSettingsKeys (p : SearchProvider) : list jsstring :=
  match sp_extraKeys p with
  | Some eks => map ek_settingsKey eks
  | None => []
  end.

(** [SEARCH_PROVIDERS.flatMap(p => [p.settingsKey, ...extra keys])] *)
Definition SEARCH_SETTINGS_KEYS : list jsstring :=
  flat_map (fun p => sp_settingsKey p :: extraSettingsKeys p) SEARCH_PROVIDERS.

(** The settings read from [chrome.storage]: [settings[key]] is a string,
    or [undefined] ([None]) where the key is absent. *)
Definition StoredSettings := jsstring -> option jsstring.

(** Truthiness of [settings[key]]: [undefined] and [''] are falsy. *)
Definition truthyValue (v : option jsstring) : bool :=
  match v with
  | Some s => truthy s
  | None => false
  end.

(** An object with string values, as its properties in insertion order. *)
Definition JsObject := list (jsstring * jsstring).

(** [obj[key]] for an own property. *)
Fixpoint objGet (key : jsstring) (obj : JsObject) : option jsstring :=
  match obj with
  | [] => None
  | (k, v) :: rest => if jsstring_eqb k key then Some v else objGet key rest
  end.

(** [obj[key] = value] *)
Fixpoint objSet (key value : jsstring) (obj : JsObject) : JsObject :=
  match obj with
  | [] => [(key, value)]
  | (k, v) :: rest =>
      if jsstring_eqb k key then (k, value) :: rest
      else (k, v) :: objSet key value rest
  end.

(** The loop over [provider.extraKeys]: [None] is [allPresent = false]. *)
Fixpoint collectExtra (settings : StoredSettings) (eks : list ExtraKey)
  (extra : JsObject) : option JsObject :=
  match eks with
  | [] => Some extra
  | ek :: rest =>
      match settings (ek_settingsKey ek) with
      | Some val =>
          if truthy val
          then collectExtra settings rest (objSet (ek_settingsKey ek) val extra)
          else None
      | None => None
      end
  end.

(** What [resolveSearchProvider] returns; [m_extra] is [None] where the
    result has no [extra] property. *)
Record SearchMatch := {
  m_provider : SearchProvider;
  m_apiKey : jsstring;
  m_extra : option JsObject
}.

(** The loop of [resolveSearchProvider] over the providers that are left. *)
Fixpoint resolveFrom (settings : StoredSettings)
  (providers : list SearchProvider) : option SearchMatch :=
  match providers with
  | [] => None
  | provider :: rest =>
      match settings (sp_settingsKey provider) with
      | Some apiKey =>
          if truthy apiKey then
            match sp_extraKeys provider with
            | Some eks =>
                match collectExtra settings eks [] with
                | Some extra =>
                    Some {| m_provider := provider; m_apiKey := apiKey;
                            m_extra := Some extra |}
                | None => resolveFrom settings rest
                end
            | None =>
                Some {| m_provider := provider; m_apiKey := apiKey;
                        m_extra := None |}
            end
          else resolveFrom settings rest
      | None => resolveFrom settings rest
      end
  end.

Definition resolveSearchProvider (settings : StoredSettings)
  : option SearchMatch :=
  resolveFrom settings SEARCH_PROVIDERS.

(** The search implementations. *)
Inductive SearchFunction :=
  | searchBrave
  | searchTavily
  | searchSerpapi
  | searchGoogle.

(** [const SEARCH_FUNCTIONS = { brave: ..., tavily: ..., serpapi: ...,
    google: ... }], as its own properties. *)
Definition SEARCH_FUNCTIONS : list (jsstring * SearchFunction) :=
  [ (lit "brave", searchBrave); (lit "tavily", searchTavily);
    (lit "serpapi", searchSerpapi); (lit "google", searchGoogle) ].

(** [SEARCH_FUNCTIONS[providerId]] where [providerId] names an own
    property. *)
Fixpoint ownSearchFunction (providerId : jsstring)
  (table : list (jsstring * SearchFunction)) : option SearchFunction :=
  match table with
  | [] => None
  | (k, f) :: rest =>
      if jsstring_eqb k providerId then Some f
      else ownSearchFunction providerId rest
  end.

(** The first two lines of [searchGoogle]:
    [const cx = extra.searchGoogleCx;
     if (!cx) throw new Error('Google Custom Search Engine ID (cx) is not configured.');]
    with [extra = {}] where the caller passes [undefined]. *)
Definition googleEngineId (extra : option JsObject) : Res jsstring :=
  let obj := match extra with Some o => o | None => [] end in
  match objGet (lit "searchGoogleCx") obj with
  | Some cx =>
      if truthy cx then Ok cx
      else Throw (newError
             (lit "Google Custom Search Engine ID (cx) is not configured."))
  | None =>
      Throw (newError
        (lit "Google Custom Search Engine ID (cx) is not configured."))
  end.

(** A provider is configured in [settings] when its API key and all its
    extra keys are set to non-empty strings. *)
Definition configured (settings : StoredSettings) (p : SearchProvider) : bool :=
  truthyValue (settings (sp_settingsKey p)) &&
  forallb (fun k => truthyValue (settings k)) (extraSettingsKeys p).

(** Sample settings: a Google key without engine id, and a SerpAPI key. *)
Definition googleWithoutCx : StoredSettings :=
  fun key =>
    if jsstring_eqb key (lit "searchKeyGoogle") then Some (lit "g-key")
    else if jsstring_eqb key (lit "searchKeySerpapi") then Some (lit "s-key")
    else None.

(** Sample settings: a Google key with its engine id, and the same with a
    model name beside them. *)
Definition googleWithCxAndModel : StoredSettings :=
  fun key =>
    if jsstring_eqb key (lit "searchKeyGoogle") then Some (lit "g-key")
    else if jsstring_eqb key (lit "searchGoogleCx") then Some (lit "cx-1")
    else if jsstring_eqb key (lit "model") then Some (lit "llama3")
    else None.


Definition googleWithCx : StoredSettings :=
  fun key =>
    if jsstring_eqb key (lit "searchKeyGoogle") then Some (lit "g-key")
    else if jsstring_eqb key (lit "searchGoogleCx") then Some (lit "cx-1")
    else None.

(* ===================================================================== *)
(** ** content/modal.js: the streamed content of the modal *)
(* ===================================================================== *)

(** The children of the content container: the paragraphs, and the header
    of an error modal. *)
Inductive Element :=
  | P (textContent : jsstring)
  | ErrorIcon.

(** The fields of [Modal] that its content depends on: the children of
    [contentDiv] ([None]: no container), the [style.display] of
    [statusDiv] ([None]: no status element), and the two flags.  The
    frame around the content, the keepalive port and the scroll position
    are left out; none of them is read by [updateContent] before it
    changes the content. *)
Record Modal := {
  contentDiv : option (list Element);
  statusDiv : option jsstring;
  isFirstUpdate : bool;
  isError : bool
}.

(** [new Modal()] *)
Definition newModal : Modal :=
  {| contentDiv := None; statusDiv := None; isFirstUpdate := true;
     isError := false |}.

(** The code units that [trim] removes: white space and line
    terminators. *)
Definition isWhiteSpace (c : char) : bool :=
  existsb (N.eqb c)
    [9; 10; 11; 12; 13; 32; 160; 5760; 8192; 8193; 8194; 8195; 8196; 8197;
     8198; 8199; 8200; 8201; 8202; 8232; 8233; 8239; 8287; 12288; 65279]%N.

(** [line.trim()] is truthy. *)
Definition notBlank (line : jsstring) : bool :=
  existsb (fun c => negb (isWhiteSpace c)) line.

(** [show(content, { isError })] *)
Definition show (content : jsstring) (isErr : bool) (m : Modal) : Modal :=
  {| contentDiv :=
       Some ((if isErr then [ErrorIcon] else [])
             ++ map P (filter notBlank (split content [10%N])));
     statusDiv := Some (if isErr then lit "none" else []);
     isFirstUpdate := true;
     isError := isErr |}.

(** [let lastP = contentDiv.lastElementChild;
     if (!lastP || lastP.tagName !== 'P') { lastP = createElement('p');
                                            contentDiv.appendChild(lastP); }
     lastP.textContent += line;] *)
Definition appendToLast (children : list Element) (line : jsstring)
  : list Element :=
  match last children ErrorIcon with
  | P t => removelast children ++ [P (t ++ line)]
  | ErrorIcon => children ++ [P line]
  end.

(** [lines.forEach((line, i) => ...)] from index [i] on. *)
Fixpoint forEachLine (lines : list jsstring) (i : nat)
  (children : list Element) : list Element :=
  match lines with
  | [] => children
  | line :: rest =>
      forEachLine rest (S i)
        (if i =? 0 then appendToLast children line
         else children ++ [P line])
  end.

(** [updateContent(delta)] *)
Definition updateContent (delta : jsstring) (m : Modal) : Modal :=
  match contentDiv m with
  | None => m
  | Some children =>
      if isError m then m
      else
        let children := if isFirstUpdate m then [] else children in
        let lines := split delta [10%N] in
        {| contentDiv :=
             Some (if length lines =? 1
                   then appendToLast children (nth 0 lines [])
                   else forEachLine lines 0 children);
           statusDiv := match statusDiv m with
                        | Some _ => Some (lit "none")
                        | None => None
                        end;
           isFirstUpdate := false;
           isError := isError m |}
  end.

(** [close()] *)
Definition close (m : Modal) : Modal :=
  {| contentDiv := None; statusDiv := None;
     isFirstUpdate := isFirstUpdate m; isError := isError m |}.

(** The deltas of a stream, delivered in order. *)
Definition updateAll (deltas : list jsstring) (m : Modal) : Modal :=
  fold_left (fun m delta => updateContent delta m) deltas m.

(* ===================================================================== *)
(** ** background service worker: the abort controllers of the tabs *)
(* ===================================================================== *)

(** A tab id, and an [AbortController] by its identity: the number of
    controllers created before it. *)
Definition TabId := Z.
Definition Controller := nat.

(** [Map.prototype.set] and [Map.prototype.delete] on a map with tab ids
    as keys, the map given by its [get]. *)
Definition mapSet (A : Type) (key : TabId) (value : A)
  (m : TabId -> option A) : TabId -> option A :=
  fun k => if Z.eqb k key then Some value else m k.

Definition mapDelete (A : Type) (key : TabId) (m : TabId -> option A)
  : TabId -> option A :=
  fun k => if Z.eqb k key then None else m k.

(** The state of the service worker that the cancellation of a run
    depends on: the map [tabAbortControllers], and as ghost state the
    controllers on which [abort()] was called (latest first) and the number
    of controllers created. *)
Record Worker := {
  tabAbortControllers : TabId -> option Controller;
  abortCalls : list Controller;
  controllersCreated : nat
}.

Definition startedWorker : Worker :=
  {| tabAbortControllers := fun _ => None;
     abortCalls := [];
     controllersCreated := 0 |}.

(** The body shared by the listeners of [chrome.tabs.onRemoved],
    [chrome.tabs.onUpdated] and [port.onDisconnect]:
    [const ctrl = tabAbortControllers.get(tabId);
     if (ctrl) { ctrl.abort(); tabAbortControllers.delete(tabId); }] *)
Definition abortTab (tabId : TabId) (w : Worker) : Worker :=
  match tabAbortControllers w tabId with
  | Some ctrl =>
      {| tabAbortControllers := mapDelete tabId (tabAbortControllers w);
         abortCalls := ctrl :: abortCalls w;
         controllersCreated := controllersCreated w |}
  | None => w
  end.

(** What happens to the map, each in one turn of the event loop:
    [sanitizeTab] up to its first [await], the [finally] blocks of
    [sanitizeTab], and the three listeners. *)
Inductive WorkerEvent :=
  | SanitizeStarts (tabId : TabId)
  | SanitizeEnds (tabId : TabId)
  | TabRemoved (tabId : TabId)
  | TabUpdated (tabId : TabId) (status : option jsstring)
  | PortDisconnected (tabId : TabId).

Definition handle (w : Worker) (e : WorkerEvent) : Worker :=
  match e with
  | SanitizeStarts tabId =>
      (* const abortController = new AbortController();
         tabAbortControllers.set(tabId, abortController); *)
      {| tabAbortControllers :=
           mapSet tabId (controllersCreated w) (tabAbortControllers w);
         abortCalls := abortCalls w;
         controllersCreated := S (controllersCreated w) |}
  | SanitizeEnds tabId =>
      (* finally { tabAbortControllers.delete(tabId); } *)
      {| tabAbortControllers := mapDelete tabId (tabAbortControllers w);
         abortCalls := abortCalls w;
         controllersCreated := controllersCreated w |}
  | TabRemoved tabId => abortTab tabId w
  | TabUpdated tabId status =>
      (* if (changeInfo.status === "loading") *)
      match status with
      | Some s => if jsstring_eqb s (lit "loading") then abortTab tabId w
                  else w
      | None => w
      end
  | PortDisconnected tabId => abortTab tabId w
  end.

(** The worker after a sequence of events. *)
Definition handleAll (events : list WorkerEvent) (w : Worker) : Worker :=
  fold_left handle events w.

(** The tab whose run an event cancels, if it cancels one. *)
Definition cancels (e : WorkerEvent) : option TabId :=
  match e with
  | TabRemoved tabId | PortDisconnected tabId => Some tabId
  | TabUpdated tabId (Some s) =>
      if jsstring_eqb s (lit "loading") then Some tabId else None
  | _ => None
  end.

(** The tab whose entry an event replaces or removes without a call of
    [abort()]. *)
Definition unregisters (e : WorkerEvent) : option TabId :=
  match e with
  | SanitizeStarts tabId | SanitizeEnds tabId => Some tabId
  | _ => None
  end.

(** What holds of the worker between events. *)
Definition Consistent (w : Worker) : Prop :=
  (forall t c, tabAbortControllers w t = Some c ->
               c < controllersCreated w /\ ~ In c (abortCalls w)) /\
  (forall t t' c, tabAbortControllers w t = Some c ->
                  tabAbortControllers w t' = Some c -> t = t') /\
  (forall c, In c (abortCalls w) -> c < controllersCreated w) /\
  NoDup (abortCalls w).

(** A controller that was created and is in no entry of the map. *)
Definition Detached (c : Controller) (w : Worker) : Prop :=
  c < controllersCreated w /\
  forall t, tabAbortControllers w t <> Some c.

(** Sample events: a run on tab 7, a second run on the same tab, and the
    tab closed. *)
Definition clickedTwice : list WorkerEvent :=
  [SanitizeStarts 7%Z; SanitizeStarts 7%Z; TabRemoved 7%Z].

(* ===================================================================== *)
(** ** providers/chrome-summarizer.js *)
(* ===================================================================== *)

Module ChromeSummarizer.

(** [const DEFAULT_TOKEN_QUOTA = 4000;] *)
Definition DEFAULT_TOKEN_QUOTA : N := 4000.

(** How a promise of the Summarizer API settles, and whether the abort
    signal fires before it does. *)
Record Settled (A : Type) := {
  settled : Res A;
  fired : bool
}.

Arguments settled {A} s.
Arguments fired {A} s.

(** What the stream of [summarizeStreaming] gives to the [for await] loop:
    the chunks, each with whether the signal has fired by the time it is
    delivered, and the error that ends the stream, if one does. *)
Record Stream := {
  st_chunks : list (jsstring * bool);
  st_error : option JsError
}.

(** A summarizer, by the one property that the provider reads;
    [inputQuota] is [None] where the property is absent.  Quotas are
    non-negative integers. *)
Record Summarizer := {
  inputQuota : option N
}.

(** The Summarizer API of the browser as a deterministic machine: whether
    [self] has [Summarizer], and what each call answers from a state. *)
Record SummarizerApi (Api : Type) := {
  hasSummarizer : bool;
  availability : Api -> Settled jsstring * Api;
  create : Api -> Settled Summarizer * Api;
  summarize : Api -> jsstring -> Settled jsstring * Api;
  summarizeStreaming : Api -> jsstring -> Stream * Api
}.

Arguments hasSummarizer {Api} s.
Arguments availability {Api} s a.
Arguments create {Api} s a.
Arguments summarize {Api} s a input.
Arguments summarizeStreaming {Api} s a input.

(** A call of the API, as logged. *)
Inductive Request :=
  | AvailabilityRequest
  | CreateRequest
  | SummarizeRequest (input : jsstring)
  | StreamRequest (input : jsstring).

(** How a computation ends; [Unfinished] is a recursion that is cut off. *)
Inductive Result (A : Type) : Type :=
  | Returns (a : A)
  | Throws (e : JsError)
  | Unfinished.

Arguments Returns {A} a.
Arguments Throws {A} e.
Arguments Unfinished {A}.

(** [a || b] on optional quotas: [undefined] and [0] are falsy. *)
Definition quotaOr (a : option N) (b : N) : N :=
  match a with
  | Some v => if N.eqb v 0 then b else v
  | None => b
  end.

(** [this.settings.contextLength || this._summarizer.inputQuota
     || DEFAULT_TOKEN_QUOTA] *)
Definition tokenQuota (contextLength : option N) (s : Summarizer) : N :=
  quotaOr contextLength (quotaOr (inputQuota s) DEFAULT_TOKEN_QUOTA).

(** [tokenQuota * CHARS_PER_TOKEN] *)
Definition maxCharsOf (contextLength : option N) (s : Summarizer) : nat :=
  N.to_nat (tokenQuota contextLength s * Z.to_N CHARS_PER_TOKEN).

Section Provider.

Variable Api : Type.
Variable browser : SummarizerApi Api.

(** What a call of the provider acts on. *)
Record World := {
  api : Api;
  (** [signal?.aborted] *)
  aborted : bool;
  (** [this._summarizer] *)
  _summarizer : option Summarizer;
  (** the arguments of [onUpdate], in emission order *)
  updates : list jsstring;
  (** the calls of the API, in order (a log, read by no code) *)
  requests : list Request
}.

Definition M (A : Type) : Type := World -> Result A * World.

Definition ret {A} (a : A) : M A := fun w => (Returns a, w).

Definition throw {A} (e : JsError) : M A := fun w => (Throws e, w).

Definition unfinished {A} : M A := fun w => (Unfinished, w).

Definition bind {A B} (m : M A) (k : A -> M B) : M B :=
  fun w =>
    match m w with
    | (Returns a, w') => k a w'
    | (Throws e, w') => (Throws e, w')
    | (Unfinished, w') => (Unfinished, w')
    end.

Notation "x <- m ;; k" := (bind m (fun x => k))
  (at level 61, m at next level, right associativity).
Notation "m ;;; k" := (bind m (fun _ => k))
  (at level 61, right associativity).

(** [throwIfAborted(signal)] *)
Definition throwIfAborted : M unit :=
  fun w => if aborted w then (Throws AbortError, w) else (Returns tt, w).

(** The API answers a request: its state moves on, the request is logged,
    the signal may have fired meanwhile. *)
Definition answered {A} (req : Request) (s : Settled A) (a' : Api)
  (w : World) : World :=
  {| api := a'; aborted := aborted w || fired s;
     _summarizer := _summarizer w; updates := updates w;
     requests := requests w ++ [req] |}.

(** [await p] for a promise [p] of the API. *)
Definition await {A} (req : Request) (step : Api -> Settled A * Api)
  : M A :=
  fun w =>
    let (s, a') := step (api w) in
    match settled s with
    | Ok v => (Returns v, answered req s a' w)
    | Throw e => (Throws e, answered req s a' w)
    end.

(** [await raceWithSignal(p, signal)]: rejected with an [AbortError] when
    the signal fires before [p] settles. *)
Definition raceWithSignal {A} (req : Request)
  (step : Api -> Settled A * Api) : M A :=
  fun w =>
    let (s, a') := step (api w) in
    if aborted w || fired s then (Throws AbortError, answered req s a' w)
    else
      match settled s with
      | Ok v => (Returns v, answered req s a' w)
      | Throw e => (Throws e, answered req s a' w)
      end.

(** [static async checkAvailability()]: [available] and [reason]. *)
Definition checkAvailability : M (bool * jsstring) :=
  if negb (hasSummarizer browser)
  then ret (false,
            lit "Summarizer API is not available. Requires Chrome 138+ with the required flags or an active origin trial token.")
  else
    a <- await AvailabilityRequest (availability browser) ;;
    if jsstring_eqb a (lit "unavailable")
    then ret (false,
              lit "Summarizer model is unavailable on this device. Check hardware requirements at chrome://flags.")
    else ret (true, []).

(** [this._summarizer = s] *)
Definition setSummarizer (s : Summarizer) : M unit :=
  fun w =>
    (Returns tt,
     {| api := api w; aborted := aborted w; _summarizer := Some s;
        updates := updates w; requests := requests w |}).

(** [if (onUpdate) onUpdate(chunk);] with the callback supplied. *)
Definition onUpdate (chunk : jsstring) : M unit :=
  fun w =>
    (Returns tt,
     {| api := api w; aborted := aborted w; _summarizer := _summarizer w;
        updates := updates w ++ [chunk]; requests := requests w |}).

(** The stream delivers a chunk; the signal may have fired meanwhile. *)
Definition delivered (f : bool) : M unit :=
  fun w =>
    (Returns tt,
     {| api := api w; aborted := aborted w || f;
        _summarizer := _summarizer w; updates := updates w;
        requests := requests w |}).

(** [this._summarizer.summarizeStreaming(text)] *)
Definition openStream (text : jsstring) : M Stream :=
  fun w =>
    let (st, a') := summarizeStreaming browser (api w) text in
    (Returns st,
     {| api := a'; aborted := aborted w; _summarizer := _summarizer w;
        updates := updates w;
        requests := requests w ++ [StreamRequest text] |}).

(** [for await (const chunk of stream) {
         throwIfAborted(signal);
         fullText += chunk;
         if (onUpdate) onUpdate(chunk); }] *)
Fixpoint streamLoop (chunks : list (jsstring * bool)) (fullText : jsstring)
  : M jsstring :=
  match chunks with
  | [] => ret fullText
  | (chunk, f) :: rest =>
      delivered f ;;;
      throwIfAborted ;;;
      onUpdate chunk ;;;
      streamLoop rest (fullText ++ chunk)
  end.

(** [_streamSummary(text, onStatus, onUpdate, signal)]; the returned
    string is the [content] of the result. *)
Definition _streamSummary (text : jsstring) : M jsstring :=
  st <- openStream text ;;
  fullText <- streamLoop (st_chunks st) [] ;;
  match st_error st with
  | None => ret fullText
  | Some e => throw e
  end.

(** The loop that [call] and [_recursiveSummarize] share:
    [for (let i = 0; i < chunks.length; i++) {
         throwIfAborted(signal);
         const summary = await raceWithSignal(
             this._summarizer.summarize(chunks[i]), signal);
         summaries.push(summary); }] *)
Fixpoint summarizeAll (chunks : list jsstring) (summaries : list jsstring)
  : M (list jsstring) :=
  match chunks with
  | [] => ret summaries
  | chunk :: rest =>
      throwIfAborted ;;;
      summary <- raceWithSignal (SummarizeRequest chunk)
                   (fun a => summarize browser a chunk) ;;
      summarizeAll rest (summaries ++ [summary])
  end.

(** [_recursiveSummarize(summaries, maxChars, onStatus, signal)].  The
    source recursion has no bound; [fuel] is the number of rounds after
    which the model cuts it off. *)
Fixpoint recursiveSummarize_fuel (fuel : nat) (summaries : list jsstring)
  (maxChars : nat) : M jsstring :=
  throwIfAborted ;;;
  let combined := join [10%N] summaries in
  if length combined <=? maxChars then ret combined
  else
    match fuel with
    | 0 => unfinished
    | S fuel' =>
        reduced <- summarizeAll (splitText combined maxChars) [] ;;
        recursiveSummarize_fuel fuel' reduced maxChars
    end.

(** [call] from [splitText] on:
    [const chunks = splitText(text, maxChars);
     if (chunks.length === 1) return this._streamSummary(chunks[0], ...);
     const summaries = []; for (...) { ... }
     throwIfAborted(signal);
     const combined = await this._recursiveSummarize(summaries, ...);
     throwIfAborted(signal);
     return this._streamSummary(combined, ...);] *)
Definition summarizeText (fuel : nat) (text : jsstring) (maxChars : nat)
  : M jsstring :=
  let chunks := splitText text maxChars in
  match chunks with
  | [chunk] => _streamSummary chunk
  | _ =>
      summaries <- summarizeAll chunks [] ;;
      throwIfAborted ;;;
      combined <- recursiveSummarize_fuel fuel summaries maxChars ;;
      throwIfAborted ;;;
      _streamSummary combined
  end.

(** [call({ text, prompt, onStatus, onUpdate, signal })] with
    [this.settings.contextLength]; the returned string is the [content] of
    the result.  The status channel ([onStatus]) and the options of
    [Summarizer.create] are left out: the answers of the API are
    arbitrary. *)
Definition call (fuel : nat) (contextLength : option N) (text : jsstring)
  : M jsstring :=
  check <- checkAvailability ;;
  if negb (fst check) then throw (newError (snd check))
  else
    await AvailabilityRequest (availability browser) ;;;
    throwIfAborted ;;;
    s <- raceWithSignal CreateRequest (create browser) ;;
    setSummarizer s ;;;
    throwIfAborted ;;;
    summarizeText fuel text (maxCharsOf contextLength s).

(** *** Specification vocabulary for the provider *)

(** [Quiet P m]: [m] shows nothing and keeps the summarizer, a signal that
    has fired stays so, and the requests that [m] makes satisfy [P]. *)
Definition Quiet {A} (P : Request -> Prop) (m : M A) : Prop :=
  forall w r w',
    m w = (r, w') ->
    updates w' = updates w /\
    _summarizer w' = _summarizer w /\
    (aborted w = true -> aborted w' = true) /\
    exists new, requests w' = requests w ++ new /\ Forall P new.

(** [Streams P m]: [m] keeps the summarizer, the requests that it makes
    satisfy [P], and a text that it returns is the concatenation of what
    it has passed to [onUpdate]. *)
Definition Streams (P : Request -> Prop) (m : M jsstring) : Prop :=
  forall w r w',
    m w = (r, w') ->
    _summarizer w' = _summarizer w /\
    (exists new, requests w' = requests w ++ new /\ Forall P new) /\
    (exists emitted,
       updates w' = updates w ++ emitted /\
       forall t, r = Returns t -> t = concat emitted).

(** A summarizer that answers every request on a non-empty text with a
    text shorter than the request, before the signal fires. *)
Definition Shrinking : Prop :=
  forall a input,
    input <> [] ->
    exists summary,
      fst (summarize browser a input)
      = {| settled := Ok summary; fired := false |} /\
      length summary < length input.

End Provider.

(** The text that a request gives the summarizer to read. *)
Definition inputOf (r : Request) : option jsstring :=
  match r with
  | SummarizeRequest input | StreamRequest input => Some input
  | _ => None
  end.

(** A request whose text has at most [maxChars] code units. *)
Definition WithinQuota (maxChars : nat) (r : Request) : Prop :=
  match inputOf r with
  | Some input => length input <= maxChars
  | None => True
  end.

(** A sample API: ready, with an input quota of 2 tokens, a summarizer
    that drops the last code unit of its input, and a stream that gives
    back its input in one chunk. *)
Definition dropLast : SummarizerApi unit :=
  {| hasSummarizer := true;
     availability := fun a =>
       ({| settled := Ok (lit "available"); fired := false |}, a);
     create := fun a =>
       ({| settled := Ok {| inputQuota := Some 2%N |}; fired := false |}, a);
     summarize := fun a input =>
       ({| settled := Ok (firstn (length input - 1) input);
           fired := false |}, a);
     summarizeStreaming := fun a input =>
       ({| st_chunks := [(input, false)]; st_error := None |}, a) |}.

Definition freshWorld (Api : Type) (a : Api) (sig : bool) : World Api :=
  {| api := a; aborted := sig; _summarizer := None; updates := [];
     requests := [] |}.

End ChromeSummarizer.

(* ===================================================================== *)
(** ** shared/defaults.js: the parts of the prompt *)
(* ===================================================================== *)

(** A template literal of several lines, by its lines. *)
Definition textLines (ls : list jsstring) : jsstring := join [10%N] ls.

(** [export const DEFAULT_PROMPT = `...`;] *)
Definition DEFAULT_PROMPT : jsstring :=
  textLines
    [ lit "Your response MUST have two clearly separated sections in this exact order.";
      [];
      lit "First section: a manipulation warning.";
      lit "Scan the headline and article for manipulative techniques: clickbait, emotional pressure, fear-mongering, false urgency, leading questions, loaded framing, unsubstantiated claims presented as facts.";
      [];
      lit "If any are found, start your response with a short warning block:";
      lit "- Name each technique detected and give a concrete example from the text.";
      lit "- If the headline exaggerates, contradicts, or misrepresents the article body " ++ [8212]%N ++ lit " say so directly.";
      lit "- State the actual scale: real numbers vs. what is implied.";
      [];
      lit "If the article is factual and neutral, start with a single line stating that no manipulative techniques were detected.";
      [];
      lit "Second section: a neutral summary.";
      lit "After the warning, provide a neutral summary:";
      lit "- Verifiable facts, data, and attributed quotes only.";
      lit "- Core argument and event structure.";
      lit "- Proper context: comparisons, historical baselines, and proportionality.";
      [];
      lit "Tone:";
      lit "- Calm and neutral. Do not amplify anxiety, outrage, or helplessness.";
      lit "- If the topic is distressing, briefly note what is within and outside the reader's control.";
      lit "- Replace doom-framing with actionable perspective: what happened, who is affected, what (if anything) the reader can do.";
      [];
      lit "Exclude:";
      lit "- Emotional appeals and sensationalist framing.";
      lit "- Unsubstantiated claims without attribution.";
      lit "- Off-topic promotional content and SEO filler." ].

(** [VERBOSITY.SHORT], [VERBOSITY.MEDIUM], [VERBOSITY.DETAILED] *)
Definition VERBOSITY_SHORT : jsstring := lit "short".
Definition VERBOSITY_MEDIUM : jsstring := lit "medium".
Definition VERBOSITY_DETAILED : jsstring := lit "detailed".

Definition DEFAULT_VERBOSITY : jsstring := VERBOSITY_MEDIUM.

(** [getVerbosityInstruction(verbosity)]: a [switch] on the string, with
    [VERBOSITY.MEDIUM] falling into [default]. *)
Definition getVerbosityInstruction (verbosity : jsstring) : jsstring :=
  if jsstring_eqb verbosity VERBOSITY_SHORT
  then lit "Provide a brief, concise summary with only the key facts. Keep it as short as possible."
  else if jsstring_eqb verbosity VERBOSITY_DETAILED
  then lit "Provide a comprehensive, detailed summary covering all important points, arguments, and evidence."
  else lit "Provide a balanced summary with the main facts and arguments at moderate length.".

(** [export const FACT_CHECK_INSTRUCTION = `...`;] *)
Definition FACT_CHECK_INSTRUCTION : jsstring :=
  textLines
    [ lit "You have access to a web_search tool. Use it to:";
      lit "- Verify key claims, statistics, and quotes mentioned in the article.";
      lit "- Check if the described event actually happened and whether the scale matches reality.";
      lit "- Look up context the article omits (e.g. base rates, historical precedent, official statements).";
      [];
      lit "After verifying, clearly mark in your summary:";
      lit "- [Verified] " ++ [8212]%N ++ lit " facts confirmed by external sources.";
      lit "- [Unverified] " ++ [8212]%N ++ lit " claims you could not confirm.";
      lit "- [Misleading] " ++ [8212]%N ++ lit " claims that are technically true but presented in a deceptive way.";
      lit "- [False] " ++ [8212]%N ++ lit " claims directly contradicted by reliable sources.";
      [];
      lit "Do not search for every sentence " ++ [8212]%N ++ lit " focus on the most consequential and suspicious claims." ].

(** [LANGUAGE_OPTIONS], each entry by its [code] and [label]. *)
Definition LANGUAGE_OPTIONS : list (jsstring * jsstring) :=
  [ ([], lit "Browser default");
    (lit "en", lit "English");
    (lit "ru", [1056; 1091; 1089; 1089; 1082; 1080; 1081]%N);
    (lit "uk", [1059; 1082; 1088; 1072; 1111; 1085; 1089; 1100; 1082; 1072]%N);
    (lit "de", lit "Deutsch");
    (lit "fr", lit "Fran" ++ [231]%N ++ lit "ais");
    (lit "es", lit "Espa" ++ [241]%N ++ lit "ol");
    (lit "it", lit "Italiano");
    (lit "pt", lit "Portugu" ++ [234]%N ++ lit "s");
    (lit "pl", lit "Polski");
    (lit "zh", [20013; 25991]%N);
    (lit "ja", [26085; 26412; 35486]%N) ].

(** [Object.fromEntries(entries)]: a later entry replaces an earlier one
    with the same key. *)
Definition fromEntries (entries : list (jsstring * jsstring)) : JsObject :=
  fold_left (fun obj entry => objSet (fst entry) (snd entry) obj) entries [].

(** [const LANGUAGE_NAMES = Object.fromEntries(
       LANGUAGE_OPTIONS.filter((o) => o.code).map((o) => [o.code, o.label]));] *)
Definition LANGUAGE_NAMES : JsObject :=
  fromEntries (filter (fun o => truthy (fst o)) LANGUAGE_OPTIONS).

Section Inherited.

(** [LANGUAGE_NAMES] is an ordinary object: a name that is not among its
    own properties is looked up in [Object.prototype].  [inherited c] is
    the text that a template literal gives the value found there
    ([None]: no such property); the values are functions and objects, all
    truthy, and their text depends on the engine. *)
Variable inherited : jsstring -> option jsstring.

(** [LANGUAGE_NAMES[c]] where it is truthy, as the text that the template
    literal makes of it. *)
Definition languageName (c : jsstring) : option jsstring :=
  match objGet c LANGUAGE_NAMES with
  | Some label => if truthy label then Some label else None
  | None => inherited c
  end.

(** [getLanguageInstruction(code, browserCode = '')] *)
Definition getLanguageInstruction (code browserCode : jsstring) : jsstring :=
  let c :=
    if truthy code then code
    else if truthy browserCode then hd [] (split browserCode (lit "-"))
    else [] in
  if truthy c then
    match languageName c with
    | Some name =>
        lit "IMPORTANT: You MUST respond in " ++ [34%N] ++ name ++ [34%N]
          ++ lit " language regardless of the article's language."
    | None => []
    end
  else [].

End Inherited.

(** The prompt and the tools that [sanitizeTab] hands to the provider,
    each definition a [const] of the function. *)
Module SanitizeTab.

(** [settings.verbosity || DEFAULT_VERBOSITY] *)
Definition verbosity (settings : StoredSettings) : jsstring :=
  match settings (lit "verbosity") with
  | Some v => if truthy v then v else DEFAULT_VERBOSITY
  | None => DEFAULT_VERBOSITY
  end.

(** [settings.prompt || DEFAULT_PROMPT] *)
Definition basePrompt (settings : StoredSettings) : jsstring :=
  match settings (lit "prompt") with
  | Some p => if truthy p then p else DEFAULT_PROMPT
  | None => DEFAULT_PROMPT
  end.

(** [getLanguageInstruction(settings.language ?? "", browserLang)], with
    [browserLang = chrome.i18n.getUILanguage?.() || ""]. *)
Definition langInstruction (inherited : jsstring -> option jsstring)
  (settings : StoredSettings) (browserLang : jsstring) : jsstring :=
  getLanguageInstruction inherited
    (match settings (lit "language") with Some l => l | None => [] end)
    browserLang.

Definition verbosityInstruction (settings : StoredSettings) : jsstring :=
  getVerbosityInstruction (verbosity settings).

Definition searchMatch (settings : StoredSettings) : option SearchMatch :=
  resolveSearchProvider settings.

(** [const tools = [];
     if (searchMatch) tools.push(createWebSearchTool(
         searchMatch.provider.id, searchMatch.apiKey, searchMatch.extra));]
    each tool by the arguments it is created from. *)
Definition tools (settings : StoredSettings) : list SearchMatch :=
  match searchMatch settings with
  | Some m => [m]
  | None => []
  end.

(** [searchMatch ? FACT_CHECK_INSTRUCTION : ""] *)
Definition factCheckBlock (settings : StoredSettings) : jsstring :=
  match searchMatch settings with
  | Some _ => FACT_CHECK_INSTRUCTION
  | None => []
  end.

(** [[langInstruction, basePrompt, verbosityInstruction, factCheckBlock]
       .filter(Boolean).join("\n\n")] *)
Definition prompt (inherited : jsstring -> option jsstring)
  (settings : StoredSettings) (browserLang : jsstring) : jsstring :=
  join [10%N; 10%N]
    (filter truthy
       [langInstruction inherited settings browserLang;
        basePrompt settings;
        verbosityInstruction settings;
        factCheckBlock settings]).

End SanitizeTab.

(** Sample settings: Portuguese from the browser, a short summary and a
    Brave key; no inherited name is looked up. *)
Definition braveShort : StoredSettings :=
  fun key =>
    if jsstring_eqb key (lit "verbosity") then Some (lit "short")
    else if jsstring_eqb key (lit "searchKeyBrave") then Some (lit "BSA-1")
    else None.

Definition noInherited : jsstring -> option jsstring := fun _ => None.

(* ===================================================================== *)
(** ** Runs of the splitter *)
(* ===================================================================== *)

(** Small runs of the splitter. *)
Example splitText_words :
  splitText (lit "aa bb cc") 5 = [lit "aa bb"; lit "cc"].
Proof. reflexivity. Qed.

Example splitText_paragraphs :
  splitText (lit "ab. cd ef") 3 = [lit "ab"; lit "cd"; lit "ef"].
Proof. vm_compute. reflexivity. Qed.

Example splitText_hard :
  splitText (lit "abcdefg") 3 = [lit "abc"; lit "def"; lit "g"].
Proof. reflexivity. Qed.

Example splitText_leading_space :
  splitText (lit " ab") 1 = [lit "a"; lit "b"].
Proof. reflexivity. Qed.

Example splitText_spaces_only :
  splitText (lit "  ") 1 = [].
Proof. reflexivity. Qed.

(* ===================================================================== *)
(** ** String primitives *)
(* ===================================================================== *)

Lemma truthy_true (s : jsstring) : truthy s = true <-> s <> [].
Proof. destruct s; simpl; split; congruence. Qed.

Lemma truthy_false (s : jsstring) : truthy s = false <-> s = [].
Proof. destruct s; simpl; split; congruence. Qed.

Lemma startsWith_skipn (sep text : jsstring) :
  startsWith sep text = true -> text = sep ++ skipn (length sep) text.
Proof.
  revert text; induction sep as [|a sep IH]; intros [|b text]; simpl;
    try reflexivity; try discriminate.
  intros H. apply andb_true_iff in H as [Hab Hrest].
  apply N.eqb_eq in Hab. subst b. f_equal. now apply IH.
Qed.

Lemma startsWith_refl (s : jsstring) : startsWith s s = true.
Proof. induction s as [|a s IH]; simpl; [reflexivity|]. now rewrite N.eqb_refl. Qed.

Lemma jsstring_eqb_eq (a b : jsstring) : jsstring_eqb a b = true <-> a = b.
Proof.
  unfold jsstring_eqb. split.
  - intros H. apply andb_true_iff in H as [Hl Hs].
    apply Nat.eqb_eq in Hl. apply startsWith_skipn in Hs.
    rewrite Hs, Hl, skipn_all, app_nil_r. reflexivity.
  - intros ->. now rewrite Nat.eqb_refl, startsWith_refl.
Qed.

Lemma includes_false_startsWith (sep text : jsstring) :
  includes sep text = false -> startsWith sep text = false.
Proof. destruct text; simpl; intros H; now apply orb_false_iff in H. Qed.

Lemma includes_false_tail (sep : jsstring) (c : char) (text : jsstring) :
  includes sep (c :: text) = false -> includes sep text = false.
Proof. simpl. intros H. now apply orb_false_iff in H. Qed.

Lemma split_scan_nonempty fuel sep text cur : split_scan fuel sep text cur <> [].
Proof.
  revert text cur; induction fuel as [|fuel IH]; intros text cur; simpl.
  - discriminate.
  - destruct text as [|c rest]; [discriminate|].
    destruct (startsWith sep (c :: rest)); [discriminate | apply IH].
Qed.

Lemma join_cons (sep p : jsstring) (ps : list jsstring) :
  ps <> [] -> join sep (p :: ps) = p ++ sep ++ join sep ps.
Proof. destruct ps; [congruence | reflexivity]. Qed.

(** [parts.join(sep)] undoes [text.split(sep)]. *)
Lemma split_scan_join (sep : jsstring) :
  sep <> [] ->
  forall fuel text cur,
    length text <= fuel ->
    join sep (split_scan fuel sep text cur) = cur ++ text.
Proof.
  intros Hsep. induction fuel as [|fuel IH]; intros text cur Hlen; simpl.
  - reflexivity.
  - destruct text as [|c rest]; [simpl; now rewrite app_nil_r|].
    destruct (startsWith sep (c :: rest)) eqn:Hs.
    + rewrite join_cons by apply split_scan_nonempty.
      rewrite IH.
      * simpl app at 2. now rewrite <- (startsWith_skipn _ _ Hs).
      * rewrite length_skipn. simpl in *. destruct sep; [congruence|simpl]. lia.
    + rewrite IH by (simpl in Hlen; lia).
      now rewrite <- app_assoc.
Qed.

(** The scan never runs short of fuel: any fuel of at least the length of
    the text gives the same pieces. *)
Lemma split_scan_fuel (sep : jsstring) :
  sep <> [] ->
  forall fuel1 fuel2 text cur,
    length text <= fuel1 ->
    length text <= fuel2 ->
    split_scan fuel1 sep text cur = split_scan fuel2 sep text cur.
Proof.
  intros Hsep. induction fuel1 as [|fuel1 IH]; intros fuel2 text cur H1 H2.
  - destruct text; [|simpl in H1; lia].
    destruct fuel2; simpl; now rewrite app_nil_r.
  - destruct text as [|c rest];
      [destruct fuel2; simpl; now rewrite ?app_nil_r|].
    destruct fuel2 as [|fuel2]; [simpl in H2; lia|]. simpl.
    destruct (startsWith sep (c :: rest)).
    + f_equal. apply IH; rewrite length_skipn; simpl in *;
        (destruct sep; [congruence | simpl; lia]).
    + apply IH; simpl in *; lia.
Qed.

(** [text.split(sep)], one step at a time. *)
Lemma split_scan_eq (sep text cur : jsstring) :
  sep <> [] ->
  split_scan (length text) sep text cur =
  match text with
  | [] => [cur]
  | c :: rest =>
      if startsWith sep text
      then cur :: split (skipn (length sep) text) sep
      else split_scan (length rest) sep rest (cur ++ [c])
  end.
Proof.
  intros Hsep. destruct text as [|c rest]; [simpl; now rewrite app_nil_r|].
  simpl length. simpl split_scan. destruct (startsWith sep (c :: rest)).
  - f_equal. unfold split. apply split_scan_fuel; auto.
    rewrite length_skipn. simpl. destruct sep; [congruence | simpl; lia].
  - reflexivity.
Qed.

Lemma split_join (text sep : jsstring) :
  sep <> [] -> join sep (split text sep) = text.
Proof. intros H. unfold split. now rewrite split_scan_join. Qed.

Lemma split_nonempty (text sep : jsstring) : split text sep <> [].
Proof. apply split_scan_nonempty. Qed.

(** Without an occurrence of [sep] the split is the text alone. *)
Lemma split_scan_no_match (sep : jsstring) :
  forall fuel text cur,
    includes sep text = false ->
    split_scan fuel sep text cur = [cur ++ text].
Proof.
  induction fuel as [|fuel IH]; intros text cur Hinc; simpl.
  - reflexivity.
  - destruct text as [|c rest]; [now rewrite app_nil_r|].
    rewrite (includes_false_startsWith _ _ Hinc).
    rewrite IH by (eapply includes_false_tail; eauto).
    now rewrite <- app_assoc.
Qed.

Lemma split_no_match (text sep : jsstring) :
  includes sep text = false -> split text sep = [text].
Proof. intros H. unfold split. now rewrite split_scan_no_match. Qed.

Lemma includes_prefix (a b text : jsstring) :
  includes a text = false -> includes (a ++ b) text = false.
Proof.
  assert (Hsw : forall t, startsWith a t = false -> startsWith (a ++ b) t = false).
  { induction a as [|x a IH]; intros [|y t]; simpl; try congruence.
    intros H. apply andb_false_iff in H as [H|H].
    - now rewrite H.
    - rewrite (IH _ H). apply andb_false_r. }
  induction text as [|c text IH]; simpl; intros H.
  - apply orb_false_iff in H as [H _]. now rewrite (Hsw _ H).
  - apply orb_false_iff in H as [H1 H2]. now rewrite (Hsw _ H1), IH.
Qed.

(* ===================================================================== *)
(** ** The hard split *)
(* ===================================================================== *)

Lemma slice_length_le (text : jsstring) (i n : nat) :
  length (slice text i (i + n)) <= n.
Proof.
  unfold slice. replace (i + n - i) with n by lia. apply firstn_le_length.
Qed.

Lemma hardSplit_loop_bound (text : jsstring) (maxChars : nat) :
  forall fuel i,
    Forall (fun c => length c <= maxChars) (hardSplit_loop fuel text maxChars i).
Proof.
  induction fuel as [|fuel IH]; intros i; simpl; [constructor|].
  destruct (i <? length text); constructor; auto using slice_length_le.
Qed.

Lemma hardSplit_loop_nonempty (text : jsstring) (maxChars : nat) :
  1 <= maxChars ->
  forall fuel i,
    Forall (fun c => c <> []) (hardSplit_loop fuel text maxChars i).
Proof.
  intros HB. induction fuel as [|fuel IH]; intros i; simpl; [constructor|].
  destruct (i <? length text) eqn:Hi; constructor; auto.
  apply Nat.ltb_lt in Hi. intros Hnil.
  apply (f_equal (@length char)) in Hnil. unfold slice in Hnil.
  rewrite length_firstn, length_skipn in Hnil. simpl in Hnil. lia.
Qed.

Lemma hardSplit_loop_concat (text : jsstring) (maxChars : nat) :
  1 <= maxChars ->
  forall fuel i,
    length text <= fuel + i ->
    concat (hardSplit_loop fuel text maxChars i) = skipn i text.
Proof.
  intros HB. induction fuel as [|fuel IH]; intros i Hfuel; simpl.
  - symmetry. apply skipn_all2. lia.
  - destruct (i <? length text) eqn:Hi; simpl.
    + rewrite IH by lia. unfold slice.
      replace (i + maxChars - i) with maxChars by lia.
      rewrite Nat.add_comm, <- skipn_skipn. apply firstn_skipn.
    + apply Nat.ltb_ge in Hi. symmetry. now apply skipn_all2.
Qed.

(** The loop never runs short of fuel when [maxChars >= 1]. *)
Lemma hardSplit_loop_fuel (text : jsstring) (maxChars : nat) :
  1 <= maxChars ->
  forall fuel1 fuel2 i,
    length text <= fuel1 + i ->
    length text <= fuel2 + i ->
    hardSplit_loop fuel1 text maxChars i = hardSplit_loop fuel2 text maxChars i.
Proof.
  intros HB. induction fuel1 as [|fuel1 IH]; intros fuel2 i H1 H2.
  - assert (Hi : (i <? length text) = false) by (apply Nat.ltb_ge; lia).
    destruct fuel2; simpl; [reflexivity | now rewrite Hi].
  - simpl. destruct (i <? length text) eqn:Hi.
    + destruct fuel2 as [|fuel2]; [apply Nat.ltb_lt in Hi; lia|].
      simpl. rewrite Hi. f_equal. apply IH; lia.
    + destruct fuel2; simpl; [reflexivity | now rewrite Hi].
Qed.

(** The hard split, one iteration at a time. *)
Lemma hardSplit_loop_eq (text : jsstring) (maxChars i : nat) :
  1 <= maxChars ->
  hardSplit_loop (length text - i) text maxChars i =
  if i <? length text
  then slice text i (i + maxChars)
         :: hardSplit_loop (length text - (i + maxChars)) text maxChars
              (i + maxChars)
  else [].
Proof.
  intros HB. destruct (i <? length text) eqn:Hi.
  - apply Nat.ltb_lt in Hi.
    replace (length text - i) with (S (length text - i - 1)) by lia.
    simpl. apply Nat.ltb_lt in Hi. rewrite Hi. f_equal.
    apply Nat.ltb_lt in Hi. apply hardSplit_loop_fuel; auto; lia.
  - apply Nat.ltb_ge in Hi.
    replace (length text - i) with 0 by lia. reflexivity.
Qed.

Lemma hardSplit_concat (text : jsstring) (maxChars : nat) :
  1 <= maxChars -> concat (hardSplit text maxChars) = text.
Proof.
  intros HB. unfold hardSplit. rewrite hardSplit_loop_concat by lia.
  reflexivity.
Qed.

(* ===================================================================== *)
(** ** The merge loop *)
(* ===================================================================== *)

Section Merge.

Variable sep : jsstring.
Variable maxChars : nat.

(** The chunks pushed so far are only ever appended to. *)
Lemma mergeLoop_acc (parts chunks : list jsstring) (current : jsstring) :
  mergeLoop sep maxChars parts chunks current
  = chunks ++ mergeLoop sep maxChars parts [] current.
Proof.
  revert chunks current.
  induction parts as [|part parts IH]; intros chunks current; simpl.
  - destruct (truthy current); simpl; now rewrite ?app_nil_r.
  - destruct (length _ <=? maxChars).
    + apply IH.
    + rewrite IH. rewrite (IH (if truthy current then _ else _)).
      destruct (truthy current); simpl; now rewrite <- ?app_assoc.
Qed.

(** The first iteration runs with [current = ''] and always ends with
    [current = part]. *)
Lemma mergeParts_cons (part : jsstring) (parts : list jsstring) :
  mergeParts sep maxChars (part :: parts)
  = mergeLoop sep maxChars parts [] part.
Proof. unfold mergeParts. simpl. now destruct (length part <=? maxChars). Qed.

(** [if (current) chunks.push(current)]: no empty chunk is pushed. *)
Lemma mergeLoop_nonempty (parts : list jsstring) (current : jsstring) :
  Forall (fun c => c <> []) (mergeLoop sep maxChars parts [] current).
Proof.
  revert current. induction parts as [|part parts IH]; intros current; simpl.
  - destruct current; simpl; repeat constructor. discriminate.
  - destruct (length _ <=? maxChars); [apply IH|].
    rewrite mergeLoop_acc. apply Forall_app. split; [|apply IH].
    destruct current; simpl; repeat constructor. discriminate.
Qed.

Lemma mergeParts_nonempty (parts : list jsstring) :
  Forall (fun c => c <> []) (mergeParts sep maxChars parts).
Proof. apply mergeLoop_nonempty. Qed.

End Merge.

(* ===================================================================== *)
(** ** [_splitRecursive] without its fuel *)
(* ===================================================================== *)

(** The body of [_splitRecursive], as the source has it. *)
Lemma _splitRecursive_eq (text : jsstring) (maxChars sepIdx : nat) :
  _splitRecursive text maxChars sepIdx =
  if length text <=? maxChars then [text]
  else
    match nth_error SEPARATORS sepIdx with
    | None => hardSplit text maxChars
    | Some sep =>
        let parts := split text sep in
        if length parts <=? 1
        then _splitRecursive text maxChars (sepIdx + 1)
        else
          flat_map
            (fun chunk =>
               if maxChars <? length chunk
               then _splitRecursive chunk maxChars (sepIdx + 1)
               else [chunk])
            (mergeParts sep maxChars parts)
    end.
Proof.
  unfold _splitRecursive.
  destruct (nth_error SEPARATORS sepIdx) as [sep|] eqn:Hnth.
  - assert (Hlt : sepIdx < length SEPARATORS)
      by (apply nth_error_Some; congruence).
    replace (length SEPARATORS - sepIdx)
      with (S (length SEPARATORS - (sepIdx + 1))) by lia.
    simpl splitRecursive_fuel at 1. rewrite Hnth. reflexivity.
  - destruct (length SEPARATORS - sepIdx); simpl; now rewrite Hnth.
Qed.

(** Induction over the calls of [_splitRecursive]: a property of (text,
    result) that holds for a text that fits, for the hard split, and for
    the merged-and-re-split chunks whenever it holds for the chunks that
    are re-split, holds of every call. *)
Lemma _splitRecursive_ind (maxChars : nat)
  (P : jsstring -> list jsstring -> Prop) :
  (forall text, length text <= maxChars -> P text [text]) ->
  (forall text, maxChars < length text -> P text (hardSplit text maxChars)) ->
  (forall text sep (f : jsstring -> list jsstring),
      maxChars < length text ->
      In sep SEPARATORS ->
      (forall chunk, maxChars < length chunk -> P chunk (f chunk)) ->
      P text
        (flat_map
           (fun chunk => if maxChars <? length chunk then f chunk else [chunk])
           (mergeParts sep maxChars (split text sep)))) ->
  forall text sepIdx, P text (_splitRecursive text maxChars sepIdx).
Proof.
  intros Hfit Hhard Hmerge text sepIdx.
  remember (length SEPARATORS - sepIdx) as k eqn:Hk.
  revert text sepIdx Hk.
  induction k as [|k IH]; intros text sepIdx Hk;
    rewrite _splitRecursive_eq;
    destruct (length text <=? maxChars) eqn:Hlen;
    try (apply Hfit; now apply Nat.leb_le);
    apply Nat.leb_gt in Hlen.
  - destruct (nth_error SEPARATORS sepIdx) eqn:Hnth; [|now apply Hhard].
    assert (sepIdx < length SEPARATORS) by (apply nth_error_Some; congruence).
    lia.
  - destruct (nth_error SEPARATORS sepIdx) as [sep|] eqn:Hnth;
      [|now apply Hhard].
    cbv zeta. destruct (length (split text sep) <=? 1).
    + apply IH. lia.
    + apply Hmerge; auto.
      * eapply nth_error_In; eauto.
      * intros chunk _. apply IH. lia.
Qed.

(* ===================================================================== *)
(** ** Decompositions of a text into chunks and separator runs *)
(* ===================================================================== *)

Lemma SepRun_single (sep : jsstring) : In sep SEPARATORS -> SepRun sep.
Proof.
  intros H. rewrite <- (app_nil_r sep). constructor; [assumption | constructor].
Qed.

Lemma SepRun_app (a b : jsstring) : SepRun a -> SepRun b -> SepRun (a ++ b).
Proof.
  induction 1 as [|sep g Hin Hg IH]; intros Hb; simpl; [assumption|].
  rewrite <- app_assoc. constructor; auto.
Qed.

Lemma SepRun_chars (g : jsstring) : SepRun g -> forallb separatorChar g = true.
Proof.
  induction 1 as [|sep g Hin Hg IH]; [reflexivity|].
  rewrite forallb_app, IH, andb_true_r.
  simpl in Hin. decompose [or] Hin; subst; try reflexivity. contradiction.
Qed.

Lemma Decomp_gap (g text : jsstring) (chunks : list jsstring) :
  SepRun g -> Decomp text chunks -> Decomp (g ++ text) chunks.
Proof.
  intros Hg Hd. destruct Hd as [g' Hg' | g' c rest cs Hg' Hrest].
  - constructor. now apply SepRun_app.
  - rewrite app_assoc. constructor; [now apply SepRun_app | assumption].
Qed.

Lemma Decomp_app (t1 t2 : jsstring) (cs1 cs2 : list jsstring) :
  Decomp t1 cs1 -> Decomp t2 cs2 -> Decomp (t1 ++ t2) (cs1 ++ cs2).
Proof.
  induction 1 as [g Hg | g c rest cs Hg Hrest IH]; intros H2; simpl.
  - now apply Decomp_gap.
  - rewrite <- !app_assoc. constructor; auto.
Qed.

Lemma Decomp_single (c : jsstring) : Decomp c [c].
Proof.
  pose proof (Decomp_cons c SepRun_nil (Decomp_nil SepRun_nil)) as H.
  simpl in H. now rewrite app_nil_r in H.
Qed.

Lemma Decomp_concat (chunks : list jsstring) : Decomp (concat chunks) chunks.
Proof.
  induction chunks as [|c cs IH]; simpl.
  - repeat constructor.
  - apply (Decomp_cons (g:=[]) c); [constructor | assumption].
Qed.

(** Re-splitting each chunk of a decomposition gives a decomposition. *)
Lemma Decomp_flat_map (f : jsstring -> list jsstring) (text : jsstring)
  (chunks : list jsstring) :
  Decomp text chunks ->
  (forall c, In c chunks -> Decomp c (f c)) ->
  Decomp text (flat_map f chunks).
Proof.
  induction 1 as [g Hg | g c rest cs Hg Hrest IH]; intros Hf; simpl.
  - now constructor.
  - apply Decomp_gap; [assumption|].
    apply Decomp_app; [apply Hf; now left|].
    apply IH. intros c' Hc'. apply Hf. now right.
Qed.

(** A decomposition, with its gaps spelled out. *)
Lemma Decomp_interleave (text : jsstring) (chunks : list jsstring) :
  Decomp text chunks ->
  exists gaps,
    length gaps = S (length chunks) /\
    Forall SepRun gaps /\
    interleave gaps chunks = text.
Proof.
  induction 1 as [g Hg | g c rest cs Hg Hrest (gaps & Hlen & Hall & Heq)].
  - exists [g]. repeat split; auto.
  - exists (g :: gaps). simpl. rewrite Heq. repeat split; auto.
Qed.

(** A text that decomposes into no chunk at all is a run of separators. *)
Lemma Decomp_nil_chars (text : jsstring) :
  Decomp text [] -> forallb separatorChar text = true.
Proof. inversion 1; subst. now apply SepRun_chars. Qed.

(** The merge loop keeps every code unit of the parts in place and leaves
    out only whole separators. *)
Lemma mergeLoop_Decomp (sep : jsstring) (maxChars : nat) :
  In sep SEPARATORS ->
  forall parts current,
    Decomp (current ++ concat (map (app sep) parts))
           (mergeLoop sep maxChars parts [] current).
Proof.
  intros Hsep. pose proof (SepRun_single Hsep) as Hrun.
  induction parts as [|part parts IH]; intros current; simpl.
  - rewrite app_nil_r. destruct current as [|c current]; simpl.
    + repeat constructor.
    + apply Decomp_single.
  - destruct current as [|c current]; simpl truthy; cbv iota.
    + simpl app at 1.
      assert (Hgoal : Decomp (sep ++ part ++ concat (map (app sep) parts))
                             (mergeLoop sep maxChars parts [] part))
        by (apply Decomp_gap; auto).
      rewrite <- app_assoc.
      now destruct (length part <=? maxChars).
    + destruct (length _ <=? maxChars).
      * specialize (IH ((c :: current) ++ sep ++ part)).
        now rewrite <- !app_assoc in *.
      * rewrite mergeLoop_acc. simpl app at 2.
        rewrite <- (app_nil_l ((c :: current) ++ _)).
        apply (Decomp_cons (g:=[]) (c :: current)); [constructor|].
        rewrite <- app_assoc. apply Decomp_gap; auto.
Qed.

Lemma join_cons_concat (sep p : jsstring) (ps : list jsstring) :
  join sep (p :: ps) = p ++ concat (map (app sep) ps).
Proof.
  revert p. induction ps as [|q ps IH]; intros p.
  - simpl. now rewrite app_nil_r.
  - rewrite join_cons by discriminate. rewrite IH. simpl.
    now rewrite <- app_assoc.
Qed.

Lemma In_SEPARATORS_nonempty (sep : jsstring) : In sep SEPARATORS -> sep <> [].
Proof. simpl. intros H. decompose [or] H; subst; try discriminate. contradiction. Qed.

Lemma mergeParts_Decomp (sep text : jsstring) (maxChars : nat) :
  In sep SEPARATORS ->
  Decomp text (mergeParts sep maxChars (split text sep)).
Proof.
  intros Hsep.
  pose proof (split_join text (In_SEPARATORS_nonempty Hsep)) as Hjoin.
  destruct (split text sep) as [|p ps] eqn:Hsplit.
  - now apply split_nonempty in Hsplit.
  - rewrite mergeParts_cons. rewrite <- Hjoin, join_cons_concat.
    now apply mergeLoop_Decomp.
Qed.

(* ===================================================================== *)
(** ** Properties of [_splitRecursive] and [splitText] *)
(* ===================================================================== *)

Lemma _splitRecursive_bound (text : jsstring) (maxChars sepIdx : nat) :
  Forall (fun c => length c <= maxChars) (_splitRecursive text maxChars sepIdx).
Proof.
  apply _splitRecursive_ind with (P := fun _ out =>
    Forall (fun c => length c <= maxChars) out); clear text sepIdx.
  - intros text Hlen. now repeat constructor.
  - intros text _. apply hardSplit_loop_bound.
  - intros text sep f _ _ IH. apply Forall_flat_map, Forall_forall.
    intros chunk _. destruct (maxChars <? length chunk) eqn:Hc.
    + apply IH. now apply Nat.ltb_lt.
    + apply Nat.ltb_ge in Hc. now repeat constructor.
Qed.

Lemma _splitRecursive_nonempty (text : jsstring) (maxChars sepIdx : nat) :
  1 <= maxChars ->
  text <> [] ->
  Forall (fun c => c <> []) (_splitRecursive text maxChars sepIdx).
Proof.
  intros HB. revert text sepIdx.
  apply (_splitRecursive_ind (fun text out =>
    text <> [] -> Forall (fun c => c <> []) out)).
  - intros text _ Hne. now repeat constructor.
  - intros text _ _. now apply hardSplit_loop_nonempty.
  - intros text sep f _ _ IH _. apply Forall_flat_map.
    eapply Forall_impl; [|apply mergeParts_nonempty].
    intros chunk Hne. destruct (maxChars <? length chunk) eqn:Hc.
    + apply IH; [now apply Nat.ltb_lt | assumption].
    + now repeat constructor.
Qed.

Lemma _splitRecursive_Decomp (text : jsstring) (maxChars sepIdx : nat) :
  1 <= maxChars ->
  Decomp text (_splitRecursive text maxChars sepIdx).
Proof.
  intros HB. revert text sepIdx. apply _splitRecursive_ind.
  - intros text _. apply Decomp_single.
  - intros text _. rewrite <- (hardSplit_concat text HB) at 1.
    apply Decomp_concat.
  - intros text sep f _ Hsep IH.
    apply Decomp_flat_map; [now apply mergeParts_Decomp|].
    intros chunk _. destruct (maxChars <? length chunk) eqn:Hc.
    + apply IH. now apply Nat.ltb_lt.
    + apply Decomp_single.
Qed.

Lemma splitText_fits (text : jsstring) (maxChars : nat) :
  length text <= maxChars -> splitText text maxChars = [text].
Proof. intros H. unfold splitText. apply Nat.leb_le in H. now rewrite H. Qed.

Lemma splitText_bound (text : jsstring) (maxChars : nat) :
  Forall (fun c => length c <= maxChars) (splitText text maxChars).
Proof.
  unfold splitText. destruct (length text <=? maxChars) eqn:H.
  - apply Nat.leb_le in H. now repeat constructor.
  - apply _splitRecursive_bound.
Qed.

Lemma splitText_nonempty (text : jsstring) (maxChars : nat) :
  1 <= maxChars -> text <> [] ->
  Forall (fun c => c <> []) (splitText text maxChars).
Proof.
  intros HB Hne. unfold splitText. destruct (length text <=? maxChars).
  - now repeat constructor.
  - now apply _splitRecursive_nonempty.
Qed.

Lemma splitText_Decomp (text : jsstring) (maxChars : nat) :
  1 <= maxChars -> Decomp text (splitText text maxChars).
Proof.
  intros HB. unfold splitText. destruct (length text <=? maxChars).
  - apply Decomp_single.
  - now apply _splitRecursive_Decomp.
Qed.

(* ===================================================================== *)
(** ** The splitter: results *)
(* ===================================================================== *)

(** C3.  For every text and every bound [maxChars >= 1], each chunk that
    [splitText] returns has at most [maxChars] code units. *)
Theorem splitText_chunks_within_bound (text : jsstring) (maxChars : nat) :
  1 <= maxChars ->
  Forall (fun chunk => length chunk <= maxChars) (splitText text maxChars).
Proof. intros _. apply splitText_bound. Qed.

Lemma splitText_chunks_within_bound_witness :
  1 <= 3 /\
  Forall (fun chunk => length chunk <= 3) (splitText (lit "ab. cd ef") 3).
Proof.
  split; [lia | apply (splitText_chunks_within_bound (lit "ab. cd ef")); lia].
Defined.

(** C9.  A text that already fits is returned alone and unchanged, so
    splitting the chunks of such a result again changes nothing. *)
Theorem splitText_conforming_chunk (c : jsstring) (maxChars : nat) :
  length c <= maxChars ->
  splitText c maxChars = [c] /\
  flat_map (fun x => splitText x maxChars) (splitText c maxChars) = [c].
Proof.
  intros H. rewrite (splitText_fits _ H). split; [reflexivity|].
  simpl. now rewrite (splitText_fits _ H).
Qed.

Lemma splitText_conforming_chunk_witness :
  length (lit "aa bb") <= 5 /\
  splitText (lit "aa bb") 5 = [lit "aa bb"] /\
  flat_map (fun x => splitText x 5) (splitText (lit "aa bb") 5) = [lit "aa bb"].
Proof.
  split; [simpl; lia | apply (@splitText_conforming_chunk (lit "aa bb") 5)].
  simpl; lia.
Defined.

(** C1 as stated fails: the leading space of [" ab"] is in no chunk, and no
    choice of strings between the chunks ["a"] and ["b"] brings it back. *)
Lemma splitText_rejoin_counterexample :
  1 <= 1 /\
  splitText (lit " ab") 1 = [lit "a"; lit "b"] /\
  ~ exists seps, rejoin (splitText (lit " ab") 1) seps = lit " ab".
Proof.
  split; [lia|]. split; [reflexivity|].
  intros [seps H]. vm_compute in H. destruct seps; discriminate.
Qed.

(** C1, amended.  For every text and every bound [maxChars >= 1], the text
    is the chunks of [splitText], in order, with a run of zero or more
    separators before the first chunk, between each two neighbours and
    after the last chunk: no code unit of a chunk is lost, duplicated or
    moved, and what is left out is whole separators only. *)
Theorem splitText_reconstructs (text : jsstring) (maxChars : nat) :
  1 <= maxChars ->
  exists gaps,
    length gaps = S (length (splitText text maxChars)) /\
    Forall SepRun gaps /\
    interleave gaps (splitText text maxChars) = text.
Proof. intros HB. apply Decomp_interleave. now apply splitText_Decomp. Qed.

Lemma splitText_reconstructs_witness :
  1 <= 1 /\
  exists gaps,
    length gaps = S (length (splitText (lit " ab") 1)) /\
    Forall SepRun gaps /\
    interleave gaps (splitText (lit " ab") 1) = lit " ab".
Proof.
  split; [lia | apply (splitText_reconstructs (lit " ab")); lia].
Defined.

(** C10 as stated fails: two spaces under a bound of one split into no
    chunk at all. *)
Lemma splitText_empty_list_counterexample :
  lit "  " <> [] /\ 1 <= 1 /\ splitText (lit "  ") 1 = [].
Proof. split; [discriminate|]. split; [lia | reflexivity]. Qed.

(** C10, amended.  For every non-empty text and every bound
    [maxChars >= 1], no chunk of [splitText] is the empty string, and the
    chunk list is non-empty whenever the text fits the bound or has a code
    unit other than line feed, space and full stop. *)
Theorem splitText_no_empty_chunk (text : jsstring) (maxChars : nat) :
  text <> [] ->
  1 <= maxChars ->
  Forall (fun chunk => chunk <> []) (splitText text maxChars) /\
  (length text <= maxChars -> splitText text maxChars <> []) /\
  (existsb (fun c => negb (separatorChar c)) text = true ->
   splitText text maxChars <> []).
Proof.
  intros Hne HB. split; [now apply splitText_nonempty|]. split.
  - intros Hfit. rewrite (splitText_fits _ Hfit). discriminate.
  - intros Hex Hnil. pose proof (splitText_Decomp text HB) as Hd.
    rewrite Hnil in Hd. apply Decomp_nil_chars in Hd.
    apply existsb_exists in Hex as (c & Hin & Hc).
    rewrite forallb_forall in Hd. rewrite (Hd c Hin) in Hc. discriminate.
Qed.

Lemma splitText_no_empty_chunk_witness :
  lit " ab" <> [] /\ 1 <= 1 /\
  Forall (fun chunk => chunk <> []) (splitText (lit " ab") 1) /\
  (length (lit " ab") <= 1 -> splitText (lit " ab") 1 <> []) /\
  (existsb (fun c => negb (separatorChar c)) (lit " ab") = true ->
   splitText (lit " ab") 1 <> []).
Proof.
  split; [discriminate|]. split; [lia|].
  apply (@splitText_no_empty_chunk (lit " ab") 1); [discriminate | lia].
Defined.

(* ===================================================================== *)
(** ** The merge loop on words that all fit *)
(* ===================================================================== *)

Section MergeWords.

Variable sep : jsstring.
Variable maxChars : nat.

Lemma mergeLoop_not_nil (parts : list jsstring) (current : jsstring) :
  current <> [] -> mergeLoop sep maxChars parts [] current <> [].
Proof.
  revert current. induction parts as [|part parts IH]; intros current Hc; simpl.
  - apply truthy_true in Hc. rewrite Hc. discriminate.
  - apply truthy_true in Hc. rewrite Hc.
    destruct (length _ <=? maxChars).
    + apply IH. destruct current; [discriminate | discriminate].
    + rewrite mergeLoop_acc. discriminate.
Qed.

(** With non-empty parts nothing is left out: the chunks joined with
    [sep] are the parts joined with [sep]. *)
Lemma mergeLoop_join (parts : list jsstring) (current : jsstring) :
  current <> [] ->
  Forall (fun p => p <> []) parts ->
  join sep (mergeLoop sep maxChars parts [] current)
  = current ++ concat (map (app sep) parts).
Proof.
  revert current.
  induction parts as [|part parts IH]; intros current Hc Hparts; simpl.
  - apply truthy_true in Hc. rewrite Hc. simpl. now rewrite app_nil_r.
  - inversion Hparts as [|? ? Hpart Hrest]; subst.
    pose proof Hc as Ht. apply truthy_true in Ht. rewrite Ht.
    destruct (length _ <=? maxChars).
    + rewrite IH; auto.
      * now rewrite <- !app_assoc.
      * destruct current; [congruence | discriminate].
    + rewrite mergeLoop_acc. simpl app at 1.
      rewrite join_cons by now apply mergeLoop_not_nil.
      rewrite IH by assumption. now rewrite <- !app_assoc.
Qed.

(** With parts that fit, every chunk fits. *)
Lemma mergeLoop_fit (parts : list jsstring) (current : jsstring) :
  length current <= maxChars ->
  Forall (fun p => length p <= maxChars) parts ->
  Forall (fun c => length c <= maxChars)
         (mergeLoop sep maxChars parts [] current).
Proof.
  revert current.
  induction parts as [|part parts IH]; intros current Hc Hparts; simpl.
  - destruct (truthy current); repeat constructor; assumption.
  - inversion Hparts as [|? ? Hpart Hrest]; subst.
    destruct (length _ <=? maxChars) eqn:Hfit.
    + apply IH; [now apply Nat.leb_le | assumption].
    + rewrite mergeLoop_acc. apply Forall_app. split; [|now apply IH].
      destruct (truthy current); repeat constructor; assumption.
Qed.

(** The greedy merge packs tightly: a chunk is closed only when the next
    part does not fit, so with parts of at most [maxWord] code units every
    chunk but the last has at least [maxChars + 1 - maxWord - |sep|], and
    the last two chunks with their separator exceed [maxChars]. *)
Lemma mergeLoop_count (maxWord room : nat) :
  room + maxWord = maxChars + 1 ->
  forall parts current,
    current <> [] ->
    Forall (fun p => 1 <= length p <= maxWord) parts ->
    let out := mergeLoop sep maxChars parts [] current in
    let total := length (current ++ concat (map (app sep) parts)) in
    length current <= total /\
    1 <= length out /\
    (2 <= length out ->
     length out * room + maxChars + 1 <= total + 2 * room).
Proof.
  intros Hroom. induction parts as [|part parts IH];
    intros current Hc Hparts; simpl.
  - apply truthy_true in Hc. rewrite Hc, app_nil_r. simpl. lia.
  - inversion Hparts as [|? ? Hpart Hrest]; subst.
    pose proof Hc as Ht. apply truthy_true in Ht. rewrite Ht.
    destruct (length _ <=? maxChars) eqn:Hfit.
    + assert (Hne : current ++ sep ++ part <> [])
        by (destruct current; [congruence | discriminate]).
      destruct (IH _ Hne Hrest) as (H1 & H2 & H3).
      rewrite <- !app_assoc in *. rewrite !length_app in *.
      repeat split; lia.
    + apply Nat.leb_gt in Hfit. rewrite mergeLoop_acc.
      assert (Hne : part <> []) by (destruct part; [simpl in *; lia | discriminate]).
      destruct (IH _ Hne Hrest) as (H1 & H2 & H3).
      simpl length. rewrite !length_app in *.
      set (k := length (mergeLoop sep maxChars parts [] part)) in *.
      set (rest := length (concat (map (app sep) parts))) in *.
      repeat split; try lia.
      intros _. destruct (Nat.eq_dec k 1) as [Hk|Hk].
      * rewrite Hk. lia.
      * assert (H2k : 2 <= k) by lia. specialize (H3 H2k). lia.
Qed.

End MergeWords.

Lemma join_length_bound (sep : jsstring) (maxChars : nat) (l : list jsstring) :
  Forall (fun c => length c <= maxChars) l ->
  l <> [] ->
  length (join sep l) + length sep <= length l * (maxChars + length sep).
Proof.
  induction 1 as [|c l Hc Hl IH]; intros Hne; [now destruct Hne|].
  destruct l as [|c' l'].
  - simpl. lia.
  - rewrite join_cons by discriminate. rewrite !length_app.
    assert (IH' := IH ltac:(discriminate)).
    unfold jsstring in *.
    change (length (c :: c' :: l')) with (S (length (c' :: l'))).
    rewrite Nat.mul_succ_l. lia.
Qed.

(** Chunks that all fit are not re-split. *)
Lemma flat_map_fitting (maxChars : nat) (f : jsstring -> list jsstring)
  (l : list jsstring) :
  Forall (fun c => length c <= maxChars) l ->
  flat_map (fun chunk => if maxChars <? length chunk then f chunk else [chunk]) l
  = l.
Proof.
  induction 1 as [|c l Hc Hl IH]; simpl; [reflexivity|].
  apply Nat.ltb_ge in Hc. now rewrite Hc, IH.
Qed.

(* ===================================================================== *)
(** ** The splitter on single-spaced text *)
(* ===================================================================== *)

Lemma singleSpaced_spec (maxWord : nat) (text : jsstring) :
  singleSpaced maxWord text = true ->
  includes [10%N] text = false /\
  includes [46%N; 32%N] text = false /\
  Forall (fun w => 1 <= length w <= maxWord) (split text [32%N]).
Proof.
  unfold singleSpaced. intros H.
  apply andb_true_iff in H as [H Hwords].
  apply andb_true_iff in H as [Hlf Hdot].
  apply negb_true_iff in Hlf, Hdot. repeat split; auto.
  apply Forall_forall. intros w Hw.
  rewrite forallb_forall in Hwords. specialize (Hwords w Hw).
  apply andb_true_iff in Hwords as [H1 H2].
  apply Nat.leb_le in H1, H2. lia.
Qed.

(** One level of [_splitRecursive] whose separator does not occur in the
    text: on to the next separator. *)
Ltac skip_separator Hlen Habsent :=
  rewrite _splitRecursive_eq, Hlen; simpl nth_error; cbv beta iota zeta;
  rewrite (split_no_match _ _ Habsent);
  match goal with
  | |- context [length [?t] <=? 1] =>
      change (length [t] <=? 1) with true; cbv iota
  end;
  simpl Nat.add.

(** On single-spaced text whose words all fit, the first three separators
    do not occur, and the result is the merge of the words, none of which
    is re-split. *)
Lemma splitText_singleSpaced (maxWord maxChars : nat) (text : jsstring) :
  singleSpaced maxWord text = true ->
  maxWord <= maxChars ->
  maxChars < length text ->
  splitText text maxChars = mergeParts [32%N] maxChars (split text [32%N]).
Proof.
  intros Hss HL Hlong.
  apply singleSpaced_spec in Hss as (Hlf & Hdot & Hwords).
  assert (Hlflf : includes [10%N; 10%N] text = false)
    by apply (includes_prefix [10%N] [10%N] text Hlf).
  assert (Hlen : (length text <=? maxChars) = false) by now apply Nat.leb_gt.
  unfold splitText. rewrite Hlen.
  skip_separator Hlen Hlflf.
  skip_separator Hlen Hlf.
  skip_separator Hlen Hdot.
  rewrite _splitRecursive_eq, Hlen. simpl nth_error. cbv beta iota zeta.
  pose proof (@split_join text [32%N] ltac:(discriminate)) as Hjoin.
  destruct (split text [32%N]) as [|p ps] eqn:Hsplit;
    [now apply split_nonempty in Hsplit|].
  apply Forall_cons_iff in Hwords as [Hp Hps].
  destruct ps as [|q ps].
  - simpl in Hjoin. subst p. lia.
  - change (length (p :: q :: ps) <=? 1) with false. cbv iota.
    apply flat_map_fitting. rewrite mergeParts_cons.
    apply mergeLoop_fit; [lia|].
    eapply Forall_impl; [|exact Hps]. simpl. intros w Hw. lia.
Qed.

(** C8 as stated fails: a text of 10,000 code units whose only separators
    are single spaces, but whose words have about 2,000 code units, splits
    into four chunks under a budget of 4,000. *)
Lemma splitText_scenario_counterexample :
  length longWords = 10 * 1000 /\
  singleSpaced (10 * 1000) longWords = true /\
  length (splitText longWords 4000) = 4.
Proof. vm_compute. repeat split; reflexivity. Qed.

(** C8, amended.  For every text of 10,000 code units made of non-empty
    words of at most 1,000 code units with a single space between each two
    (no line feed, no full stop followed by a space), [splitText] with a
    budget of 4,000 returns exactly 3 chunks, none longer than 4,000, and
    the chunks joined with single spaces are the text. *)
Theorem splitText_scenario (text : jsstring) :
  length text = 10 * 1000 ->
  singleSpaced 1000 text = true ->
  length (splitText text 4000) = 3 /\
  Forall (fun chunk => length chunk <= 4000) (splitText text 4000) /\
  join [32%N] (splitText text 4000) = text.
Proof.
  intros Hlen Hss.
  rewrite (@splitText_singleSpaced 1000 4000 text Hss) by lia.
  apply singleSpaced_spec in Hss as (_ & _ & Hwords).
  pose proof (@split_join text [32%N] ltac:(discriminate)) as Hjoin.
  destruct (split text [32%N]) as [|p ps] eqn:Hsplit;
    [now apply split_nonempty in Hsplit|].
  apply Forall_cons_iff in Hwords as [Hp Hps].
  rewrite mergeParts_cons.
  assert (Hpne : p <> []) by (destruct p; [simpl in Hp; lia | discriminate]).
  assert (Hfit : Forall (fun c => length c <= 4000)
                        (mergeLoop [32%N] 4000 ps [] p)).
  { apply mergeLoop_fit; [lia|].
    eapply Forall_impl; [|exact Hps]. simpl. intros w Hw. lia. }
  assert (Hexact : join [32%N] (mergeLoop [32%N] 4000 ps [] p) = text).
  { rewrite mergeLoop_join; auto.
    - now rewrite <- join_cons_concat.
    - eapply Forall_impl; [|exact Hps]. simpl. intros w Hw Hnil.
      subst w. simpl in Hw. lia. }
  split; [|split; assumption].
  pose proof (@mergeLoop_count [32%N] 4000 1000 3001 eq_refl ps p Hpne Hps)
    as (_ & Hk1 & Hupper).
  cbv zeta in Hupper. rewrite <- join_cons_concat, Hjoin, Hlen in Hupper.
  pose proof (@join_length_bound [32%N] 4000 _ Hfit
                (mergeLoop_not_nil [32%N] 4000 ps Hpne)) as Hlower.
  rewrite Hexact, Hlen in Hlower.
  change (length [32%N]) with 1 in Hlower.
  unfold jsstring in *. revert Hk1 Hupper Hlower.
  generalize (length (mergeLoop [32%N] 4000 ps [] p)). intros k. lia.
Qed.

Lemma splitText_scenario_witness :
  length shortWords = 10 * 1000 /\
  singleSpaced 1000 shortWords = true /\
  length (splitText shortWords 4000) = 3 /\
  Forall (fun chunk => length chunk <= 4000) (splitText shortWords 4000) /\
  join [32%N] (splitText shortWords 4000) = shortWords.
Proof.
  split; [vm_compute; reflexivity|]. split; [vm_compute; reflexivity|].
  apply (@splitText_scenario shortWords); vm_compute; reflexivity.
Defined.

(* ===================================================================== *)
(** ** The chunk budget *)
(* ===================================================================== *)

(** C7.  Whatever the settings, the detection answer and the prompt, the
    chunk budget is at least [MIN_CONTENT_TOKENS * CHARS_PER_TOKEN = 768]
    code units, so never zero or negative. *)
Theorem maxChunkChars_floor (s : Settings) (info : option ModelInfo)
  (prompt : option jsstring) :
  (MIN_CONTENT_TOKENS * CHARS_PER_TOKEN = 768 /\
   MIN_CONTENT_TOKENS * CHARS_PER_TOKEN <= maxChunkChars s info prompt /\
   0 < maxChunkChars s info prompt)%Z.
Proof.
  unfold maxChunkChars, MIN_CONTENT_TOKENS, CHARS_PER_TOKEN.
  generalize (contextTokens s info), (ceilDiv (promptLength prompt) 3).
  intros ctx est. lia.
Qed.

Lemma contextTokens_floor (s : Settings) (info : option ModelInfo) :
  (512 <= contextTokens s info)%Z.
Proof. unfold contextTokens. lia. Qed.

Lemma maxChunkChars_nat (s : Settings) (info : option ModelInfo)
  (prompt : option jsstring) :
  768 <= Z.to_nat (maxChunkChars s info prompt).
Proof.
  unfold maxChunkChars, MIN_CONTENT_TOKENS, CHARS_PER_TOKEN.
  generalize (contextTokens s info), (ceilDiv (promptLength prompt) 3).
  intros ctx est. lia.
Qed.

Example maxChunkChars_default :
  maxChunkChars {| model := None; contextLength := None |} None
    (Some (word 300)) = 8916%Z.
Proof. reflexivity. Qed.

Example maxChunkChars_zero_context :
  maxChunkChars {| model := None; contextLength := Some 0%Z |} None None
  = 9216%Z.
Proof. reflexivity. Qed.

Example maxChunkChars_small_context :
  maxChunkChars smallContext None (Some (word 300)) = 768%Z.
Proof. reflexivity. Qed.

Example isContextError_overflow : isContextError overflowError = true.
Proof. reflexivity. Qed.

Example isContextError_case :
  isContextError (newError (lit "Maximum CONTEXT reached")) = true.
Proof. reflexivity. Qed.

Example isContextError_timeout :
  isContextError
    (newError (lit "Request timed out. Server may be overloaded or the model is too slow."))
  = false.
Proof. reflexivity. Qed.

Example isContextError_abort : isContextError AbortError = false.
Proof. reflexivity. Qed.

Example isAbortError_abort : isAbortError AbortError = true.
Proof. reflexivity. Qed.

(* ===================================================================== *)
(** ** The orchestrator: one attempt, the loops, the retry *)
(* ===================================================================== *)

Section OrchestratorFacts.

Variable Backend : Type.
Variable run : Backend -> jsstring -> Outcome * Backend.

Implicit Types (w : World Backend) (chunk t : jsstring).

Lemma readLoop_eq (values : list jsstring) (chunkText : jsstring) w :
  readLoop values chunkText w
  = (Ok (chunkText ++ concat values),
     {| backend := backend w; aborted := aborted w;
        updates := updates w ++ values;
        attempts := attempts w; depths := depths w |}).
Proof.
  revert chunkText w.
  induction values as [|v values IH]; intros chunkText w; simpl.
  - unfold ret. rewrite !app_nil_r. now destruct w.
  - unfold bind, onUpdate. rewrite IH. simpl.
    now rewrite <- !app_assoc.
Qed.

(** [_streamChunk] in one step. *)
Lemma _streamChunk_eq chunk w :
  _streamChunk run chunk w = (attemptResult run chunk w, attemptWorld run chunk w).
Proof.
  unfold _streamChunk, bind, runner_run, attemptResult, attemptWorld.
  destruct (run (backend w) chunk) as [o b'] eqn:Hrun.
  rewrite readLoop_eq. simpl.
  destruct (out_error o); reflexivity.
Qed.

Lemma processChunkWithRetry_fuel_0 chunk (maxChunkChars retryDepth : nat) :
  processChunkWithRetry_fuel run 0 chunk maxChunkChars retryDepth =
  tryCatch (bind (enter retryDepth) (fun _ => _streamChunk run chunk))
    (fun err =>
       if isContextError err && (retryDepth <? MAX_RETRY_DEPTH)
       then throw err
       else throw err).
Proof. reflexivity. Qed.

Lemma processChunkWithRetry_fuel_S (fuel : nat) chunk
  (maxChunkChars retryDepth : nat) :
  processChunkWithRetry_fuel run (S fuel) chunk maxChunkChars retryDepth =
  tryCatch (bind (enter retryDepth) (fun _ => _streamChunk run chunk))
    (fun err =>
       if isContextError err && (retryDepth <? MAX_RETRY_DEPTH)
       then
         forChunks
           (fun subChunk =>
              processChunkWithRetry_fuel run fuel subChunk maxChunkChars
                (retryDepth + 1))
           (splitText chunk (maxChunkChars / 2)) []
       else throw err).
Proof. reflexivity. Qed.

(** The body of [_processChunkWithRetry], as the source has it. *)
Lemma _processChunkWithRetry_eq chunk (maxChunkChars retryDepth : nat) w :
  _processChunkWithRetry run chunk maxChunkChars retryDepth w =
  tryCatch (bind (enter retryDepth) (fun _ => _streamChunk run chunk))
    (fun err =>
       if isContextError err && (retryDepth <? MAX_RETRY_DEPTH)
       then
         forChunks
           (fun subChunk =>
              _processChunkWithRetry run subChunk maxChunkChars
                (retryDepth + 1))
           (splitText chunk (maxChunkChars / 2)) []
       else throw err) w.
Proof.
  unfold _processChunkWithRetry.
  destruct (Nat.ltb_spec retryDepth MAX_RETRY_DEPTH) as [Hd|Hd].
  - replace (MAX_RETRY_DEPTH - retryDepth)
      with (S (MAX_RETRY_DEPTH - (retryDepth + 1))) by lia.
    rewrite processChunkWithRetry_fuel_S. unfold tryCatch.
    destruct (bind _ _ w) as [[t|e] w1]; [reflexivity|].
    apply Nat.ltb_lt in Hd. now rewrite Hd.
  - apply Nat.ltb_ge in Hd.
    destruct (MAX_RETRY_DEPTH - retryDepth);
      [rewrite processChunkWithRetry_fuel_0
      |rewrite processChunkWithRetry_fuel_S];
      unfold tryCatch;
      destruct (bind _ _ w) as [[t|e] w1]; try reflexivity;
      now rewrite Hd, andb_false_r.
Qed.

(** The first step of the retry in terms of the attempt. *)
Lemma enter_streamChunk chunk (d : nat) w :
  bind (enter d) (fun _ => _streamChunk run chunk) w
  = (attemptResult run chunk (logDepth d w),
     attemptWorld run chunk (logDepth d w)).
Proof. unfold bind, enter. apply _streamChunk_eq. Qed.

(** The loop returns exactly when every chunk is processed in turn with
    the signal not fired, and then returns the results in order after
    what it started with. *)
Lemma forChunks_Ok (body : jsstring -> M Backend jsstring)
  (chunks : list jsstring) (fullText : jsstring) w t w' :
  forChunks body chunks fullText w = (Ok t, w') <->
  exists ts, Runs body chunks w ts w' /\ t = fullText ++ concat ts.
Proof.
  revert fullText w.
  induction chunks as [|c cs IH]; intros fullText w; simpl.
  - unfold ret. split.
    + intros [= <- <-]. exists []. split; [constructor|].
      simpl. now rewrite app_nil_r.
    + intros (ts & Hruns & ->). inversion Hruns; subst.
      simpl. now rewrite app_nil_r.
  - unfold bind, throwIfAborted. split.
    + destruct (aborted w) eqn:Hab; [discriminate|].
      destruct (body c w) as [[t1|e] w1] eqn:Hbody; [|discriminate].
      intros H. apply IH in H as (ts & Hruns & ->).
      exists (t1 :: ts). split; [econstructor; eauto|].
      simpl. now rewrite app_assoc.
    + intros (ts & Hruns & ->). inversion Hruns; subst.
      match goal with H : aborted w = false |- _ => rewrite H end.
      match goal with H : body c w = _ |- _ => rewrite H end.
      apply IH. eexists. split; [eassumption|].
      simpl. now rewrite app_assoc.
Qed.

(** With the signal fired, the loop starts no chunk. *)
Lemma forChunks_aborted (body : jsstring -> M Backend jsstring)
  (chunks : list jsstring) (fullText : jsstring) w :
  aborted w = true ->
  forChunks body chunks fullText w
  = (match chunks with
     | [] => Ok fullText
     | _ :: _ => Throw AbortError
     end, w).
Proof.
  intros Hab. destruct chunks as [|c cs]; simpl; [reflexivity|].
  unfold bind, throwIfAborted. now rewrite Hab.
Qed.

(** C4.  When the attempt on a chunk fails with error [e] (budget at
    least 2, so that half of it is a bound the splitter accepts):
    if [e] is overflow-classified and the depth is below
    [MAX_RETRY_DEPTH = 2], the chunk is re-split at half the budget and
    the retry is the loop that sends each sub-chunk through
    [_processChunkWithRetry] at depth + 1 (checking the signal before
    each), so that it returns exactly when every sub-chunk is recovered
    in turn, with the sub-results concatenated in order; if [e] is not
    overflow-classified or the depth is exhausted, [e] itself is thrown
    and nothing more is done. *)
Theorem processChunkWithRetry_recovery chunk (maxChunkChars retryDepth : nat)
  w (e : JsError) :
  2 <= maxChunkChars ->
  attemptResult run chunk (logDepth retryDepth w) = Throw e ->
  let w1 := attemptWorld run chunk (logDepth retryDepth w) in
  let retry := _processChunkWithRetry run chunk maxChunkChars retryDepth w in
  let sub := fun subChunk =>
    _processChunkWithRetry run subChunk maxChunkChars (retryDepth + 1) in
  let subChunks := splitText chunk (maxChunkChars / 2) in
  MAX_RETRY_DEPTH = 2 /\
  (isContextError e = true -> retryDepth < MAX_RETRY_DEPTH ->
     retry = forChunks sub subChunks [] w1 /\
     forall t w2,
       retry = (Ok t, w2) <->
       exists ts, Runs sub subChunks w1 ts w2 /\ t = concat ts) /\
  (isContextError e = false \/ MAX_RETRY_DEPTH <= retryDepth ->
     retry = (Throw e, w1)).
Proof.
  intros _ Hfail w1 retry sub subChunks.
  assert (Hretry : retry =
    (if isContextError e && (retryDepth <? MAX_RETRY_DEPTH)
     then forChunks sub subChunks []
     else throw e) w1).
  { unfold retry. rewrite _processChunkWithRetry_eq. unfold tryCatch.
    rewrite enter_streamChunk, Hfail. reflexivity. }
  split; [reflexivity|]. split.
  - intros He Hd. apply Nat.ltb_lt in Hd. rewrite He, Hd in Hretry.
    split; [exact Hretry|].
    intros t w2. rewrite Hretry. apply forChunks_Ok.
  - intros Hstop. rewrite Hretry.
    destruct Hstop as [He|Hd].
    + now rewrite He.
    + apply Nat.ltb_ge in Hd. now rewrite Hd, andb_false_r.
Qed.

(** C6, amended.  With the signal fired when the chunk loop starts,
    [call] leaves the world as it was (no backend chunk call, no
    [onUpdate]), and it throws the [AbortError] unless the chunk list is
    empty, in which case it returns the empty content.  The chunk list
    is not empty when the text fits the budget or has a code unit that
    is not a separator character. *)
Theorem call_cancelled_before_first_chunk (s : Settings)
  (info : option ModelInfo) (text : jsstring) (prompt : option jsstring) w :
  aborted w = true ->
  let budget := Z.to_nat (maxChunkChars s info prompt) in
  let result := call run s info text prompt w in
  snd result = w /\
  attempts (snd result) = attempts w /\
  updates (snd result) = updates w /\
  (splitText text budget <> [] -> fst result = Throw AbortError) /\
  (splitText text budget = [] -> fst result = Ok []) /\
  (length text <= budget \/
   existsb (fun c => negb (separatorChar c)) text = true ->
   fst result = Throw AbortError).
Proof.
  intros Hab budget result.
  assert (Hres : result =
    (match splitText text budget with
     | [] => Ok []
     | _ :: _ => Throw AbortError
     end, w)).
  { unfold result, call, tryCatch. fold budget.
    rewrite forChunks_aborted by assumption.
    destruct (splitText text budget); reflexivity. }
  rewrite Hres. simpl.
  assert (Hthrow : splitText text budget <> [] ->
                   match splitText text budget with
                   | [] => Ok ([] : jsstring)
                   | _ :: _ => Throw AbortError
                   end = Throw AbortError)
    by (destruct (splitText text budget); congruence).
  repeat split; auto.
  - intros ->. reflexivity.
  - intros Hcond. apply Hthrow.
    assert (HB : 1 <= budget)
      by (pose proof (maxChunkChars_nat s info prompt); unfold budget; lia).
    destruct Hcond as [Hfit|Hchar].
    + rewrite (splitText_fits _ Hfit). discriminate.
    + intros Hnil. pose proof (splitText_Decomp text HB) as Hd.
      rewrite Hnil in Hd. apply Decomp_nil_chars in Hd.
      apply existsb_exists in Hchar as (c & Hin & Hc).
      rewrite forallb_forall in Hd. rewrite (Hd c Hin) in Hc.
      discriminate.
Qed.

End OrchestratorFacts.

(* ===================================================================== *)
(** ** Deltas and content *)
(* ===================================================================== *)

Lemma completedDeltas_app (l1 l2 : list Attempt) :
  completedDeltas (l1 ++ l2) = completedDeltas l1 ++ completedDeltas l2.
Proof. unfold completedDeltas. now rewrite filter_app, flat_map_app. Qed.

(** When no failed attempt had emitted a delta, the deltas of all attempts
    are the deltas of the completed ones. *)
Lemma completedDeltas_all (log : list Attempt) :
  Forall (fun a => att_ok a = false -> att_deltas a = []) log ->
  flat_map att_deltas log = completedDeltas log.
Proof.
  unfold completedDeltas.
  induction 1 as [|a log Ha Hlog IH]; simpl; [reflexivity|].
  destruct (att_ok a); simpl.
  - now rewrite IH.
  - now rewrite Ha, IH.
Qed.

Section Tracking.

Variable Backend : Type.
Variable run : Backend -> jsstring -> Outcome * Backend.

Implicit Types (w : World Backend) (chunk t : jsstring).

Lemma tracked_forChunks (body : jsstring -> M Backend jsstring) :
  (forall c, Tracked (body c) []) ->
  forall chunks fullText, Tracked (forChunks body chunks fullText) fullText.
Proof.
  intros Hbody. induction chunks as [|c cs IH]; intros fullText w r w' H;
    simpl in H.
  - injection H as <- <-. exists []. simpl. rewrite !app_nil_r.
    repeat split; auto. now intros t [= <-].
  - unfold bind, throwIfAborted in H.
    destruct (aborted w).
    { injection H as <- <-. exists []. simpl. rewrite !app_nil_r.
      repeat split; auto. discriminate. }
    destruct (body c w) as [[t1|e] w1] eqn:Hc;
      destruct (Hbody c _ _ _ Hc) as (new1 & Hatt1 & Hupd1 & Hres1).
    + destruct (IH _ _ _ _ H) as (new2 & Hatt2 & Hupd2 & Hres2).
      exists (new1 ++ new2).
      rewrite Hatt2, Hatt1, Hupd2, Hupd1, flat_map_app, <- !app_assoc.
      repeat split; auto.
      intros t Ht. rewrite (Hres2 t Ht), (Hres1 t1 eq_refl).
      rewrite completedDeltas_app, concat_app. simpl.
      now rewrite <- app_assoc.
    + injection H as <- <-. exists new1. repeat split; auto. discriminate.
Qed.

Lemma tracked_retry (fuel : nat) :
  forall chunk (maxChunkChars retryDepth : nat),
    Tracked (processChunkWithRetry_fuel run fuel chunk maxChunkChars
               retryDepth) [].
Proof.
  induction fuel as [|fuel IH]; intros chunk B d w r w' H;
    [rewrite processChunkWithRetry_fuel_0 in H
    |rewrite processChunkWithRetry_fuel_S in H];
    unfold tryCatch in H; rewrite enter_streamChunk in H;
    unfold attemptResult in H;
    change (backend (logDepth d w)) with (backend w) in H;
    destruct (out_error (fst (run (backend w) chunk))) as [e|] eqn:Herr.
  - assert (Hthrow : (Throw e, attemptWorld run chunk (logDepth d w)) = (r, w'))
      by (destruct (isContextError e && (d <? MAX_RETRY_DEPTH)); exact H).
    injection Hthrow as <- <-. eexists [_]. simpl. rewrite app_nil_r.
    repeat split; auto. discriminate.
  - injection H as <- <-. eexists [_]. simpl. rewrite app_nil_r.
    repeat split; auto.
    intros t [= <-]. unfold completedDeltas. simpl.
    rewrite Herr. simpl. now rewrite app_nil_r.
  - destruct (isContextError e && (d <? MAX_RETRY_DEPTH)).
    + apply tracked_forChunks in H; [|intros c; apply IH].
      destruct H as (new & Hatt & Hupd & Hres).
      simpl in Hatt, Hupd. eexists (_ :: new).
      rewrite Hatt, Hupd, <- !app_assoc. simpl.
      repeat split; auto.
      intros t Ht. rewrite (Hres t Ht). unfold completedDeltas. simpl.
      now rewrite Herr.
    + injection H as <- <-. eexists [_]. simpl. rewrite app_nil_r.
      repeat split; auto. discriminate.
  - injection H as <- <-. eexists [_]. simpl. rewrite app_nil_r.
    repeat split; auto.
    intros t [= <-]. unfold completedDeltas. simpl.
    rewrite Herr. simpl. now rewrite app_nil_r.
Qed.

Lemma tracked_call (s : Settings) (info : option ModelInfo)
  (text : jsstring) (prompt : option jsstring) :
  Tracked (call run s info text prompt) [].
Proof.
  intros w r w' H. unfold call, tryCatch in H.
  destruct (forChunks _ _ _ w) as [[t|e] w1] eqn:Hloop;
    (apply tracked_forChunks in Hloop;
     [|intros c; apply tracked_retry]);
    destruct Hloop as (new & Hatt & Hupd & Hres).
  - injection H as <- <-. exists new. auto.
  - assert (Hw : w1 = w')
      by (destruct (isAbortError e); now injection H).
    assert (Hr : forall t, r <> Ok t)
      by (destruct (isAbortError e); injection H as <- _; discriminate).
    subst w1. exists new. repeat split; auto.
    intros t Ht. now apply Hr in Ht.
Qed.

(** C2, amended.  For every call that resolves with [content], started
    with nothing emitted: the deltas passed to [onUpdate] are, in order,
    the deltas of all the backend attempts of the call; [content] is the
    concatenation of the deltas of the attempts that completed; so the
    concatenation of all [onUpdate] arguments equals [content] whenever
    no attempt that failed (and was recovered by the re-split retry) had
    emitted a delta before it failed. *)
Theorem call_content_is_completed_deltas (s : Settings)
  (info : option ModelInfo) (text : jsstring) (prompt : option jsstring)
  (b : Backend) (sig : bool) (content : jsstring) w' :
  call run s info text prompt (initialWorld b sig) = (Ok content, w') ->
  updates w' = flat_map att_deltas (attempts w') /\
  content = concat (completedDeltas (attempts w')) /\
  (Forall (fun a => att_ok a = false -> att_deltas a = []) (attempts w') ->
   concat (updates w') = content).
Proof.
  intros H. apply tracked_call in H as (new & Hatt & Hupd & Hres).
  simpl in Hatt, Hupd. rewrite Hatt, Hupd.
  specialize (Hres content eq_refl). simpl in Hres.
  repeat split; auto.
  intros Hquiet. now rewrite (completedDeltas_all Hquiet).
Qed.

End Tracking.

(* ===================================================================== *)
(** ** Backend calls of the retry *)
(* ===================================================================== *)

Lemma count_occ_seq_le (d n k : nat) :
  count_occ Nat.eq_dec (seq d n) k <= 2 ^ k.
Proof.
  assert (H1 : count_occ Nat.eq_dec (seq d n) k <= 1)
    by (apply NoDup_count_occ, seq_NoDup).
  assert (H2 : 2 ^ k <> 0) by (apply Nat.pow_nonzero; discriminate).
  lia.
Qed.

Section RejectingBackend.

Variable Backend : Type.
Variable run : Backend -> jsstring -> Outcome * Backend.
Hypothesis Hreject : AlwaysOverflow run.

Variable maxChunkChars : nat.

Implicit Types (w : World Backend) (chunk : jsstring).

(** Every attempt fails with an overflow-classified error. *)
Lemma attempt_rejected chunk w :
  exists e,
    attemptResult run chunk w = Throw e /\ isContextError e = true.
Proof.
  destruct (Hreject (backend w) chunk) as (e & Herr & He).
  exists e. unfold attemptResult. now rewrite Herr.
Qed.

(** A chunk that fits half the budget is re-split into itself, so the
    retry goes down one call per depth and ends with an error. *)
Lemma retry_fitting_chunk (k : nat) :
  forall (d : nat) chunk w,
    d + k = MAX_RETRY_DEPTH ->
    length chunk <= maxChunkChars / 2 ->
    exists e n w',
      _processChunkWithRetry run chunk maxChunkChars d w = (Throw e, w') /\
      1 <= n <= k + 1 /\
      depths w' = depths w ++ seq d n /\
      length (attempts w') = length (attempts w) + n.
Proof.
  induction k as [|k IH]; intros d chunk w Hd Hfit;
    rewrite _processChunkWithRetry_eq; unfold tryCatch;
    rewrite enter_streamChunk;
    destruct (attempt_rejected chunk (logDepth d w)) as (e & -> & He);
    rewrite He, andb_true_l.
  - assert (Hge : (d <? MAX_RETRY_DEPTH) = false) by (apply Nat.ltb_ge; lia).
    rewrite Hge. exists e, 1, (attemptWorld run chunk (logDepth d w)).
    simpl. rewrite length_app. simpl. repeat split; auto.
  - assert (Hlt : (d <? MAX_RETRY_DEPTH) = true) by (apply Nat.ltb_lt; lia).
    rewrite Hlt, (splitText_fits _ Hfit). simpl forChunks.
    unfold bind, throwIfAborted.
    set (w1 := attemptWorld run chunk (logDepth d w)).
    assert (Hdepths : depths w1 = depths w ++ [d]) by reflexivity.
    assert (Hatt : length (attempts w1) = length (attempts w) + 1)
      by (simpl; rewrite length_app; reflexivity).
    destruct (aborted w1).
    + exists AbortError, 1, w1. repeat split; auto; lia.
    + destruct (IH (d + 1) chunk w1 ltac:(lia) Hfit)
        as (e' & n & w' & -> & Hn & Hdep & Hcalls).
      exists e', (S n), w'. repeat split; try lia.
      rewrite Hdep, Hdepths, <- app_assoc. simpl.
      now rewrite Nat.add_1_r.
Qed.

(** Any chunk: one call at its depth, then at most the descent of its
    first sub-chunk. *)
Lemma retry_any_chunk (d : nat) chunk w :
  2 <= maxChunkChars ->
  d <= MAX_RETRY_DEPTH ->
  exists n,
    1 <= n <= MAX_RETRY_DEPTH + 1 - d /\
    depths (snd (_processChunkWithRetry run chunk maxChunkChars d w))
    = depths w ++ seq d n /\
    length (attempts (snd (_processChunkWithRetry run chunk maxChunkChars d w)))
    = length (attempts w) + n.
Proof.
  intros HB Hd.
  rewrite _processChunkWithRetry_eq; unfold tryCatch;
    rewrite enter_streamChunk;
    destruct (attempt_rejected chunk (logDepth d w)) as (e & -> & He);
    rewrite He, andb_true_l.
  set (w1 := attemptWorld run chunk (logDepth d w)).
  assert (Hdepths : depths w1 = depths w ++ [d]) by reflexivity.
  assert (Hatt : length (attempts w1) = length (attempts w) + 1)
    by (simpl; rewrite length_app; reflexivity).
  destruct (Nat.ltb_spec d MAX_RETRY_DEPTH) as [Hlt|Hge].
  - pose proof (splitText_bound chunk (maxChunkChars / 2)) as Hsub.
    destruct (splitText chunk (maxChunkChars / 2)) as [|c cs].
    + exists 1. split; [lia|]. unfold ret, throw. cbn [forChunks snd]. auto.
    + apply Forall_cons_iff in Hsub as [Hc _]. simpl forChunks.
      unfold bind, throwIfAborted. destruct (aborted w1).
      * exists 1. split; [lia|]. unfold ret, throw. cbn [forChunks snd]. auto.
      * destruct (@retry_fitting_chunk (MAX_RETRY_DEPTH - (d + 1)) (d + 1)
                    c w1 ltac:(lia) Hc)
          as (e' & n & w' & -> & Hn & Hdep & Hcalls).
        exists (S n). simpl snd. repeat split; try lia.
        rewrite Hdep, Hdepths, <- app_assoc. simpl.
        now rewrite Nat.add_1_r.
  - exists 1. split; [lia|]. unfold ret, throw. cbn [forChunks snd]. auto.
Qed.

(** C5, amended.  With a backend that rejects every chunk with an
    overflow-classified error (budget at least 2, depth at most
    [MAX_RETRY_DEPTH]), the retry of one chunk makes one backend call at
    each of the depths [retryDepth], [retryDepth + 1], ... it reaches
    and stops after at most [MAX_RETRY_DEPTH + 1 - retryDepth] calls:
    within [2 ^ depth] calls at each depth and within
    [2 ^ MAX_RETRY_DEPTH = 4] calls in all. *)
Theorem retry_calls_rejecting_backend (retryDepth : nat) chunk w :
  2 <= maxChunkChars ->
  retryDepth <= MAX_RETRY_DEPTH ->
  let w' := snd (_processChunkWithRetry run chunk maxChunkChars retryDepth w) in
  exists n new,
    depths w' = depths w ++ new /\
    new = seq retryDepth n /\
    length (attempts w') = length (attempts w) + n /\
    1 <= n <= MAX_RETRY_DEPTH + 1 - retryDepth /\
    n <= 2 ^ MAX_RETRY_DEPTH /\
    forall depth, count_occ Nat.eq_dec new depth <= 2 ^ depth.
Proof.
  intros HB Hd w'.
  destruct (retry_any_chunk chunk w HB Hd) as (n & Hn & Hdep & Hcalls).
  exists n, (seq retryDepth n). repeat split; auto; try lia.
  - change (2 ^ MAX_RETRY_DEPTH) with 4. unfold MAX_RETRY_DEPTH in Hn. lia.
  - intros depth. apply count_occ_seq_le.
Qed.

End RejectingBackend.

(* ===================================================================== *)
(** ** Backend calls of the retry, for any backend *)
(* ===================================================================== *)

Section AnyBackend.

Variable Backend : Type.
Variable run : Backend -> jsstring -> Outcome * Backend.
Variable maxChunkChars : nat.

Implicit Types (w : World Backend) (chunk : jsstring).

Lemma attempts_grow (m : M Backend jsstring) (prefix : jsstring) w :
  Tracked m prefix -> length (attempts w) <= length (attempts (snd (m w))).
Proof.
  intros Hm. destruct (m w) as [r w'] eqn:H.
  apply Hm in H as (new & Hatt & _). simpl. rewrite Hatt, length_app. lia.
Qed.

(** A loop whose body makes at most [bound] calls on each chunk makes at
    most [bound] calls per chunk. *)
Lemma forChunks_calls (body : jsstring -> M Backend jsstring) (bound : nat)
  (chunks : list jsstring) :
  (forall c, Tracked (body c) []) ->
  (forall c w, In c chunks -> callsMade (body c) w <= bound) ->
  forall fullText w,
    callsMade (forChunks body chunks fullText) w <= bound * length chunks.
Proof.
  intros Htr. unfold callsMade.
  induction chunks as [|c cs IH]; intros Hbody fullText w.
  - simpl. lia.
  - simpl forChunks. unfold bind, throwIfAborted.
    destruct (aborted w); [simpl; lia|].
    pose proof (Hbody c w (or_introl eq_refl)) as Hc.
    pose proof (attempts_grow w (Htr c)) as Hgrow.
    destruct (body c w) as [[t|e] w1]; simpl snd in *.
    + assert (Hcs : forall c' w',
                In c' cs ->
                length (attempts (snd (body c' w'))) - length (attempts w')
                <= bound)
        by (intros; apply Hbody; now right).
      specialize (IH Hcs (fullText ++ t) w1).
      pose proof (attempts_grow w1
                    (@tracked_forChunks _ body Htr cs (fullText ++ t)))
        as Hgrow1.
      simpl length. rewrite Nat.mul_succ_r. lia.
    + simpl length. rewrite Nat.mul_succ_r. lia.
Qed.

(** A chunk that fits half the budget costs at most one call per depth
    left. *)
Lemma retry_fitting_calls (k : nat) :
  forall (d : nat) chunk w,
    d + k = MAX_RETRY_DEPTH ->
    length chunk <= maxChunkChars / 2 ->
    callsMade (_processChunkWithRetry run chunk maxChunkChars d) w <= k + 1.
Proof.
  induction k as [|k IH]; intros d chunk w Hd Hfit; unfold callsMade;
    rewrite _processChunkWithRetry_eq; unfold tryCatch;
    rewrite enter_streamChunk;
    set (w1 := attemptWorld run chunk (logDepth d w));
    assert (Hatt : length (attempts w1) = length (attempts w) + 1)
      by (simpl; rewrite length_app; reflexivity);
    destruct (attemptResult run chunk (logDepth d w)) as [t|e];
    try (cbn [snd]; lia).
  - assert (Hge : (d <? MAX_RETRY_DEPTH) = false) by (apply Nat.ltb_ge; lia).
    rewrite Hge, andb_false_r. unfold throw. cbn [snd]. lia.
  - destruct (isContextError e && (d <? MAX_RETRY_DEPTH));
      [|unfold throw; cbn [snd]; lia].
    rewrite (splitText_fits _ Hfit).
    assert (Hsub : forall c w',
      In c [chunk] ->
      callsMade (_processChunkWithRetry run c maxChunkChars (d + 1)) w'
      <= k + 1).
    { intros c w' [<-|[]]. apply IH; [lia | assumption]. }
    pose proof (@forChunks_calls
      (fun sub => _processChunkWithRetry run sub maxChunkChars (d + 1))
      (k + 1) [chunk]
      (fun c => @tracked_retry _ run _ c maxChunkChars (d + 1))
      Hsub [] w1) as Hloop.
    unfold callsMade in Hloop. change (length [chunk]) with 1 in Hloop. lia.
Qed.

(** Any chunk at depth 0: one call, then at most [MAX_RETRY_DEPTH] calls
    for each sub-chunk of the re-split at half the budget. *)
Lemma retry_calls_any_backend chunk w :
  2 <= maxChunkChars ->
  callsMade (_processChunkWithRetry run chunk maxChunkChars 0) w
  <= 1 + MAX_RETRY_DEPTH * length (splitText chunk (maxChunkChars / 2)).
Proof.
  intros HB. unfold callsMade.
  rewrite _processChunkWithRetry_eq; unfold tryCatch;
    rewrite enter_streamChunk.
  set (w1 := attemptWorld run chunk (logDepth 0 w)).
  assert (Hatt : length (attempts w1) = length (attempts w) + 1)
    by (simpl; rewrite length_app; reflexivity).
  destruct (attemptResult run chunk (logDepth 0 w)) as [t|e];
    [cbn [snd]; lia|].
  destruct (isContextError e && (0 <? MAX_RETRY_DEPTH));
    [|unfold throw; cbn [snd]; lia].
  assert (Hsub : forall c w',
    In c (splitText chunk (maxChunkChars / 2)) ->
    callsMade (_processChunkWithRetry run c maxChunkChars (0 + 1)) w'
    <= MAX_RETRY_DEPTH).
  { intros c w' Hin.
    pose proof (splitText_bound chunk (maxChunkChars / 2)) as Hb.
    rewrite Forall_forall in Hb.
    apply (@retry_fitting_calls 1 (0 + 1) c w' eq_refl (Hb c Hin)). }
  pose proof (@forChunks_calls
    (fun sub => _processChunkWithRetry run sub maxChunkChars (0 + 1))
    MAX_RETRY_DEPTH (splitText chunk (maxChunkChars / 2))
    (fun c => @tracked_retry _ run _ c maxChunkChars (0 + 1))
    Hsub [] w1) as Hloop.
  unfold callsMade in Hloop. lia.
Qed.

End AnyBackend.

(* ===================================================================== *)
(** ** Runs of the orchestrator *)
(* ===================================================================== *)

Lemma rejectingBackend_always : AlwaysOverflow rejectingBackend.
Proof. intros b chunk. exists overflowError. split; reflexivity. Qed.

(** A backend with a window of 400 code units on a chunk of 601: one
    rejected call, then one call for each half. *)
Example call_recovers_two_halves :
  let r := call (windowBackend 400 []) smallContext None twoWords None
             (initialWorld tt false) in
  fst r = Ok (word 300 ++ word 300) /\
  updates (snd r) = [word 300; word 300] /\
  map att_ok (attempts (snd r)) = [false; true; true] /\
  depths (snd r) = [0; 1; 1].
Proof. vm_compute. repeat split; reflexivity. Qed.

(** A backend that rejects everything: one call at each depth, and the
    error of the last one comes out normalised. *)
Example call_rejected_everywhere :
  let r := call rejectingBackend smallContext None twoWords None
             (initialWorld tt false) in
  fst r = Throw (newError (formatErrorMessage overflowError)) /\
  depths (snd r) = [0; 1; 2] /\
  length (attempts (snd r)) = 3.
Proof. vm_compute. repeat split; reflexivity. Qed.

Lemma processChunkWithRetry_recovery_witness :
  2 <= 768 /\
  attemptResult (windowBackend 384 []) twoWords
    (logDepth 0 (initialWorld tt false)) = Throw overflowError /\
  let w := initialWorld tt false in
  let w1 := attemptWorld (windowBackend 384 []) twoWords (logDepth 0 w) in
  let retry := _processChunkWithRetry (windowBackend 384 []) twoWords 768 0 w in
  let sub := fun subChunk =>
    _processChunkWithRetry (windowBackend 384 []) subChunk 768 (0 + 1) in
  let subChunks := splitText twoWords (768 / 2) in
  MAX_RETRY_DEPTH = 2 /\
  (isContextError overflowError = true -> 0 < MAX_RETRY_DEPTH ->
     retry = forChunks sub subChunks [] w1 /\
     forall t w2,
       retry = (Ok t, w2) <->
       exists ts, Runs sub subChunks w1 ts w2 /\ t = concat ts) /\
  (isContextError overflowError = false \/ MAX_RETRY_DEPTH <= 0 ->
     retry = (Throw overflowError, w1)).
Proof.
  split; [lia|]. split; [vm_compute; reflexivity|].
  apply (@processChunkWithRetry_recovery unit (windowBackend 384 []) twoWords
           768 0 (initialWorld tt false) overflowError);
    [lia | vm_compute; reflexivity].
Defined.

(** C2 as stated fails: the backend emits the delta ["x"] for the chunk of
    601 code units, then rejects it with an overflow error; the two halves
    are recovered by the re-split retry and the call resolves.  The delta
    ["x"] went to [onUpdate] and is not in the content. *)
Lemma call_deltas_counterexample :
  let r := call (windowBackend 400 [lit "x"]) smallContext None twoWords None
             (initialWorld tt false) in
  isContextError overflowError = true /\
  fst r = Ok (word 300 ++ word 300) /\
  updates (snd r) = [lit "x"; word 300; word 300] /\
  concat (updates (snd r)) <> word 300 ++ word 300.
Proof.
  vm_compute. repeat split; try reflexivity. discriminate.
Qed.

Lemma call_content_is_completed_deltas_witness :
  let r := call (windowBackend 400 []) smallContext None twoWords None
             (initialWorld tt false) in
  r = (Ok (word 300 ++ word 300), snd r) /\
  updates (snd r) = flat_map att_deltas (attempts (snd r)) /\
  word 300 ++ word 300 = concat (completedDeltas (attempts (snd r))) /\
  (Forall (fun a => att_ok a = false -> att_deltas a = [])
          (attempts (snd r)) ->
   concat (updates (snd r)) = word 300 ++ word 300).
Proof.
  cbv zeta. split; [vm_compute; reflexivity|].
  apply (@call_content_is_completed_deltas unit (windowBackend 400 [])
           smallContext None twoWords None tt false).
  vm_compute; reflexivity.
Defined.

(** C5 as stated fails: a chunk of 391 code units, within the budget of
    768, is rejected by a backend with a window of 384; the re-split at
    384 yields four sub-chunks, each of which succeeds.  Five backend calls
    are made for the chunk, more than [2 ^ MAX_RETRY_DEPTH = 4]. *)
Lemma retry_calls_counterexample :
  let r := _processChunkWithRetry (windowBackend 384 []) twoParagraphs 768 0
             (initialWorld tt false) in
  length twoParagraphs <= 768 /\
  splitText twoParagraphs (768 / 2)
  = [lit "x"; word 384; lit "z"; lit "w"] /\
  fst r = Ok (lit "x" ++ word 384 ++ lit "z" ++ lit "w") /\
  length (attempts (snd r)) = 5 /\
  ~ length (attempts (snd r)) <= 2 ^ MAX_RETRY_DEPTH.
Proof.
  cbv zeta. split; [apply Nat.leb_le; vm_compute; reflexivity|].
  split; [vm_compute; reflexivity|]. split; [vm_compute; reflexivity|].
  split; [vm_compute; reflexivity|].
  intros H. apply Nat.leb_le in H. vm_compute in H. discriminate.
Qed.

Lemma retry_calls_rejecting_backend_witness :
  AlwaysOverflow rejectingBackend /\
  2 <= 768 /\
  0 <= MAX_RETRY_DEPTH /\
  let w := initialWorld tt false in
  let w' := snd (_processChunkWithRetry rejectingBackend twoWords 768 0 w) in
  exists n new,
    depths w' = depths w ++ new /\
    new = seq 0 n /\
    length (attempts w') = length (attempts w) + n /\
    1 <= n <= MAX_RETRY_DEPTH + 1 - 0 /\
    n <= 2 ^ MAX_RETRY_DEPTH /\
    forall depth, count_occ Nat.eq_dec new depth <= 2 ^ depth.
Proof.
  split; [intros b chunk; exists overflowError; split; reflexivity|].
  split; [lia|]. split; [lia|].
  apply (@retry_calls_rejecting_backend unit rejectingBackend);
    [intros b chunk; exists overflowError; split; reflexivity | lia | lia].
Defined.

(** C6 as stated fails: on 800 spaces under a budget of 768 the split
    yields no chunk, the chunk loop is not entered, and [call] with the
    signal already fired returns the empty content instead of failing
    with the [AbortError]. *)
Lemma call_cancelled_counterexample :
  aborted (initialWorld tt true) = true /\
  splitText spaces (Z.to_nat (maxChunkChars smallContext None None)) = [] /\
  call rejectingBackend smallContext None spaces None (initialWorld tt true)
  = (Ok [], initialWorld tt true).
Proof. vm_compute. repeat split; reflexivity. Qed.

Lemma call_cancelled_before_first_chunk_witness :
  aborted (initialWorld tt true) = true /\
  let w := initialWorld tt true in
  let budget := Z.to_nat (maxChunkChars smallContext None None) in
  let result := call rejectingBackend smallContext None twoWords None w in
  snd result = w /\
  attempts (snd result) = attempts w /\
  updates (snd result) = updates w /\
  (splitText twoWords budget <> [] -> fst result = Throw AbortError) /\
  (splitText twoWords budget = [] -> fst result = Ok []) /\
  (length twoWords <= budget \/
   existsb (fun c => negb (separatorChar c)) twoWords = true ->
   fst result = Throw AbortError).
Proof.
  split; [reflexivity|].
  apply (@call_cancelled_before_first_chunk unit rejectingBackend
           smallContext None twoWords None (initialWorld tt true)).
  reflexivity.
Defined.

(* ===================================================================== *)
(** ** The splitter: chunks as slices, counts, the lossless cases *)
(* ===================================================================== *)

Lemma slice_app_middle (pre c post : jsstring) :
  slice (pre ++ c ++ post) (length pre) (length pre + length c) = c.
Proof.
  unfold slice. replace (length pre + length c - length pre) with (length c)
    by lia.
  rewrite skipn_app, skipn_all, Nat.sub_diag. simpl.
  rewrite firstn_app, firstn_all, Nat.sub_diag. simpl.
  now rewrite app_nil_r.
Qed.

Lemma OrderedSlices_weaken (text : jsstring) (chunks : list jsstring)
  (from from' : nat) :
  from' <= from ->
  OrderedSlices text from chunks -> OrderedSlices text from' chunks.
Proof.
  destruct chunks as [|c cs]; simpl; [trivial|].
  intros Hle (i & Hi & Hlen & Hc & Hrest).
  exists i. repeat split; auto. lia.
Qed.

(** A decomposition lists slices in order. *)
Lemma Decomp_OrderedSlices (text : jsstring) (chunks : list jsstring) :
  Decomp text chunks ->
  forall pre, OrderedSlices (pre ++ text) (length pre) chunks.
Proof.
  induction 1 as [g Hg | g c rest cs Hg Hrest IH]; intros pre; simpl;
    [trivial|].
  exists (length (pre ++ g)). rewrite !length_app. repeat split; try lia.
  - replace (pre ++ g ++ c ++ rest) with ((pre ++ g) ++ c ++ rest)
      by now rewrite <- app_assoc.
    rewrite <- length_app. symmetry. apply slice_app_middle.
  - specialize (IH (pre ++ g ++ c)).
    rewrite !length_app in IH. rewrite <- !app_assoc in IH.
    replace (length pre + length g + length c)
      with (length pre + (length g + length c)) by lia.
    exact IH.
Qed.

Lemma Decomp_total_length (text : jsstring) (chunks : list jsstring) :
  Decomp text chunks -> length (concat chunks) <= length text.
Proof.
  induction 1 as [g Hg | g c rest cs Hg Hrest IH]; simpl; [lia|].
  rewrite !length_app. lia.
Qed.

Lemma nonempty_count (chunks : list jsstring) :
  Forall (fun c => c <> []) chunks -> length chunks <= length (concat chunks).
Proof.
  induction 1 as [|c cs Hc Hcs IH]; simpl; [lia|].
  rewrite length_app. destruct c; [congruence | simpl; lia].
Qed.

(** X1.  For every text and bound [maxChars >= 1], the chunks of
    [splitText] are slices of the text, taken in order and without
    overlap: each chunk is [text.slice(i, i + chunk.length)] for an offset
    [i] at or after the end of the chunk before it. *)
Theorem splitText_ordered_slices (text : jsstring) (maxChars : nat) :
  1 <= maxChars ->
  OrderedSlices text 0 (splitText text maxChars).
Proof.
  intros HB. apply (Decomp_OrderedSlices (splitText_Decomp text HB) []).
Qed.

Lemma splitText_ordered_slices_witness :
  1 <= 3 /\ OrderedSlices (lit "ab. cd ef") 0 (splitText (lit "ab. cd ef") 3).
Proof.
  split; [lia | apply (splitText_ordered_slices (lit "ab. cd ef")); lia].
Defined.

(** X2.  For every text and bound [maxChars >= 1], the chunks together
    have no more code units than the text, and there are at most as many
    chunks as the text has code units (one chunk for the empty text). *)
Theorem splitText_count_bound (text : jsstring) (maxChars : nat) :
  1 <= maxChars ->
  length (concat (splitText text maxChars)) <= length text /\
  length (splitText text maxChars) <= Nat.max 1 (length text).
Proof.
  intros HB.
  pose proof (Decomp_total_length (splitText_Decomp text HB)) as Htotal.
  split; [exact Htotal|].
  destruct text as [|c text].
  - rewrite splitText_fits by (simpl; lia). simpl. lia.
  - pose proof (@splitText_nonempty (c :: text) maxChars HB
                  ltac:(discriminate)) as Hne.
    apply nonempty_count in Hne. lia.
Qed.

Lemma splitText_count_bound_witness :
  1 <= 1 /\
  length (concat (splitText (lit " ab") 1)) <= length (lit " ab") /\
  length (splitText (lit " ab") 1) <= Nat.max 1 (length (lit " ab")).
Proof.
  split; [lia | apply (splitText_count_bound (lit " ab")); lia].
Defined.

(** The hard split cuts at every multiple of [maxChars]: every chunk but
    the last has exactly [maxChars] code units. *)
Lemma hardSplit_loop_full (text : jsstring) (maxChars : nat) :
  forall fuel i,
    Forall (fun c => length c = maxChars)
           (removelast (hardSplit_loop fuel text maxChars i)).
Proof.
  induction fuel as [|fuel IH]; intros i; simpl; [constructor|].
  destruct (i <? length text) eqn:Hi; [|constructor].
  specialize (IH (i + maxChars)).
  destruct (hardSplit_loop fuel text maxChars (i + maxChars)) as [|c cs] eqn:Hrest;
    [constructor|].
  constructor; [|exact IH].
  destruct fuel as [|fuel]; [discriminate|]. simpl in Hrest.
  destruct (i + maxChars <? length text) eqn:Hnext; [|discriminate].
  apply Nat.ltb_lt in Hnext. unfold slice.
  rewrite length_firstn, length_skipn. lia.
Qed.

Lemma splitText_no_separator (text : jsstring) (maxChars : nat) :
  Forall (fun sep => includes sep text = false) SEPARATORS ->
  maxChars < length text ->
  splitText text maxChars = hardSplit text maxChars.
Proof.
  intros Hnone Hlong. unfold SEPARATORS in Hnone.
  apply Forall_cons_iff in Hnone as [H1 Hnone].
  apply Forall_cons_iff in Hnone as [H2 Hnone].
  apply Forall_cons_iff in Hnone as [H3 Hnone].
  apply Forall_cons_iff in Hnone as [H4 _].
  assert (Hlen : (length text <=? maxChars) = false) by now apply Nat.leb_gt.
  unfold splitText. rewrite Hlen.
  skip_separator Hlen H1. skip_separator Hlen H2.
  skip_separator Hlen H3. skip_separator Hlen H4.
  rewrite _splitRecursive_eq, Hlen. reflexivity.
Qed.

(** X3.  A text longer than the bound [maxChars >= 1] in which none of
    the four separators occurs is cut at fixed width: the chunks
    concatenated are the text, every chunk but the last has exactly
    [maxChars] code units, and the last has between 1 and [maxChars]. *)
Theorem splitText_fixed_width (text : jsstring) (maxChars : nat) :
  1 <= maxChars ->
  maxChars < length text ->
  Forall (fun sep => includes sep text = false) SEPARATORS ->
  concat (splitText text maxChars) = text /\
  Forall (fun c => length c = maxChars) (removelast (splitText text maxChars)) /\
  1 <= length (last (splitText text maxChars) []) <= maxChars.
Proof.
  intros HB Hlong Hnone.
  rewrite (@splitText_no_separator text maxChars Hnone Hlong).
  pose proof (hardSplit_concat text HB) as Hcat.
  split; [exact Hcat|]. split; [apply hardSplit_loop_full|].
  pose proof (hardSplit_loop_bound text maxChars (length text) 0) as Hb.
  pose proof (hardSplit_loop_nonempty text HB (length text) 0) as Hn.
  fold (hardSplit text maxChars) in Hb, Hn.
  destruct (hardSplit text maxChars) as [|c cs] eqn:Hsplit.
  - simpl in Hcat. subst text. simpl in Hlong. lia.
  - assert (Hin : In (last (c :: cs) []) (c :: cs)).
    { destruct (@exists_last _ (c :: cs) ltac:(discriminate)) as (l & x & ->).
      rewrite last_last. apply in_or_app. right. now left. }
    rewrite Forall_forall in Hb, Hn.
    specialize (Hb _ Hin). specialize (Hn _ Hin).
    destruct (last (c :: cs) []); [congruence | simpl in *; lia].
Qed.

Lemma splitText_fixed_width_witness :
  1 <= 3 /\ 3 < length (lit "abcdefg") /\
  Forall (fun sep => includes sep (lit "abcdefg") = false) SEPARATORS /\
  concat (splitText (lit "abcdefg") 3) = lit "abcdefg" /\
  Forall (fun c => length c = 3) (removelast (splitText (lit "abcdefg") 3)) /\
  1 <= length (last (splitText (lit "abcdefg") 3) []) <= 3.
Proof.
  split; [lia|]. split; [simpl; lia|].
  split; [repeat constructor|].
  apply (@splitText_fixed_width (lit "abcdefg") 3);
    [lia | simpl; lia | repeat constructor].
Defined.

(** X4.  On a text of non-empty words with a single space between each
    two (no line feed, no full stop followed by a space), none of the
    words longer than the bound, nothing is lost: the chunks of
    [splitText] joined with single spaces are the text, and every chunk
    fits the bound. *)
Theorem splitText_single_spaced_lossless (maxWord maxChars : nat)
  (text : jsstring) :
  singleSpaced maxWord text = true ->
  maxWord <= maxChars ->
  join [32%N] (splitText text maxChars) = text /\
  Forall (fun chunk => length chunk <= maxChars) (splitText text maxChars).
Proof.
  intros Hss HL. split; [|apply splitText_bound].
  destruct (Nat.le_gt_cases (length text) maxChars) as [Hfit|Hlong].
  - now rewrite (splitText_fits _ Hfit).
  - rewrite (splitText_singleSpaced _ Hss HL Hlong).
    apply singleSpaced_spec in Hss as (_ & _ & Hwords).
    pose proof (@split_join text [32%N] ltac:(discriminate)) as Hjoin.
    destruct (split text [32%N]) as [|p ps] eqn:Hsplit;
      [now apply split_nonempty in Hsplit|].
    apply Forall_cons_iff in Hwords as [Hp Hps].
    rewrite mergeParts_cons, mergeLoop_join.
    + now rewrite <- join_cons_concat.
    + destruct p; [simpl in Hp; lia | discriminate].
    + eapply Forall_impl; [|exact Hps]. simpl. intros w Hw ->.
      simpl in Hw. lia.
Qed.

Lemma splitText_single_spaced_lossless_witness :
  singleSpaced 2 (lit "aa bb cc") = true /\ 2 <= 5 /\
  join [32%N] (splitText (lit "aa bb cc") 5) = lit "aa bb cc" /\
  Forall (fun chunk => length chunk <= 5) (splitText (lit "aa bb cc") 5).
Proof.
  split; [reflexivity|]. split; [lia|].
  apply (@splitText_single_spaced_lossless 2 5 (lit "aa bb cc"));
    [reflexivity | lia].
Defined.

(* ===================================================================== *)
(** ** The chunk budget in closed form *)
(* ===================================================================== *)

Lemma ceilDiv_mono (a b : Z) : (a <= b -> ceilDiv a 3 <= ceilDiv b 3)%Z.
Proof. intros H. unfold ceilDiv. apply Z.div_le_mono; lia. Qed.



(** X6.  A longer prompt never gives a larger chunk budget. *)
Theorem maxChunkChars_prompt_antitone (s : Settings)
  (info : option ModelInfo) (p1 p2 : option jsstring) :
  (promptLength p1 <= promptLength p2 ->
   maxChunkChars s info p2 <= maxChunkChars s info p1)%Z.
Proof.
  intros H. apply ceilDiv_mono in H. unfold maxChunkChars.
  unfold CHARS_PER_TOKEN in *.
  generalize dependent (ceilDiv (promptLength p1) 3).
  generalize (ceilDiv (promptLength p2) 3) (contextTokens s info).
  unfold MIN_CONTENT_TOKENS, RESPONSE_BUFFER_TOKENS. intros. lia.
Qed.

Lemma maxChunkChars_prompt_antitone_witness :
  (promptLength None <= promptLength (Some (word 300)) /\
   maxChunkChars {| model := None; contextLength := None |} None
     (Some (word 300))
   <= maxChunkChars {| model := None; contextLength := None |} None None)%Z.
Proof.
  split; [vm_compute; discriminate|].
  apply (@maxChunkChars_prompt_antitone
           {| model := None; contextLength := None |} None None
           (Some (word 300))).
  vm_compute; discriminate.
Defined.

(* ===================================================================== *)
(** ** Normalised error messages *)
(* ===================================================================== *)

(** A normalised message is normalised to itself. *)
Lemma formatErrorMessage_fixed (e : JsError) :
  formatErrorMessage (newError (formatErrorMessage e)) = formatErrorMessage e.
Proof.
  unfold formatErrorMessage at 2 3.
  destruct (isAbortError e); [reflexivity|].
  destruct (testAny ["timeout"; "timed out"; "ETIMEDOUT"; "abort"]%string
              (message e)) eqn:Htimeout; [reflexivity|].
  destruct (isContextError e) eqn:Hctx; [reflexivity|].
  destruct (testAny ["fetch"; "network"; "failed to fetch"; "Connection";
                     "ECONNREFUSED"; "ECONNRESET"]%string
              (message e)) eqn:Hnet; [reflexivity|].
  unfold formatErrorMessage.
  change (isAbortError (newError (message e))) with false.
  change (message (newError (message e))) with (message e).
  rewrite Htimeout.
  change (isContextError (newError (message e))) with (isContextError e).
  now rewrite Hctx, Hnet.
Qed.

(** X7.  [formatErrorMessage] is idempotent: the message it produces, put
    into a new [Error], is formatted to itself, whatever the error. *)
Theorem formatErrorMessage_idempotent (e : JsError) :
  formatErrorMessage (newError (formatErrorMessage e)) = formatErrorMessage e.
Proof. apply formatErrorMessage_fixed. Qed.

(** The order of the tests: a message with a timeout word is reported as
    a timeout even when it is overflow-classified too. *)
Example formatErrorMessage_timeout_first :
  let e := newError (lit "context length exceeded: request aborted") in
  isContextError e = true /\
  formatErrorMessage e
  = lit "Request timed out. Try increasing timeout or reducing context length.".
Proof. split; reflexivity. Qed.

(* ===================================================================== *)
(** ** The orchestrator: what [call] throws, sends and forwards *)
(* ===================================================================== *)

Section CallFacts.

Variable Backend : Type.
Variable run : Backend -> jsstring -> Outcome * Backend.

Implicit Types (w : World Backend) (chunk : jsstring).

(** X8.  An error that [call] throws is either named [AbortError] (the
    error of the chunk loop, passed on as it is) or a new [Error] whose
    message is a normalised message, which [formatErrorMessage] leaves as
    it is. *)
Theorem call_throws_normalised (s : Settings) (info : option ModelInfo)
  (text : jsstring) (prompt : option jsstring) w (e : JsError) w' :
  call run s info text prompt w = (Throw e, w') ->
  isAbortError e = true \/
  (name e = lit "Error" /\ formatErrorMessage e = message e).
Proof.
  unfold call, tryCatch.
  destruct (forChunks _ _ _ w) as [[t|e0] w1]; [discriminate|].
  destruct (isAbortError e0) eqn:Habort; unfold throw; intros [= <- <-].
  - now left.
  - right. split; [reflexivity|]. apply formatErrorMessage_fixed.
Qed.

(** X9.  Whatever the outcome of [call] (content, error or cancellation),
    the attempt log only grows and the deltas passed to [onUpdate] during
    the call are exactly the deltas of the backend attempts of the call,
    in order: no delta is dropped, repeated or reordered on the way to
    [onUpdate]. *)
Theorem call_forwards_every_delta (s : Settings) (info : option ModelInfo)
  (text : jsstring) (prompt : option jsstring) w :
  exists new,
    attempts (snd (call run s info text prompt w)) = attempts w ++ new /\
    updates (snd (call run s info text prompt w))
    = updates w ++ flat_map att_deltas new.
Proof.
  destruct (call run s info text prompt w) as [r w'] eqn:H.
  apply tracked_call in H as (new & Hatt & Hupd & _).
  exists new. auto.
Qed.

(** One attempt with an accepting backend. *)
Lemma retry_accepted chunk (maxChunkChars d : nat) w :
  Accepting run ->
  _processChunkWithRetry run chunk maxChunkChars d w
  = (Ok (concat (out_deltas (fst (run (backend w) chunk)))),
     attemptWorld run chunk (logDepth d w)).
Proof.
  intros Hacc. rewrite _processChunkWithRetry_eq. unfold tryCatch.
  rewrite enter_streamChunk. unfold attemptResult.
  change (backend (logDepth d w)) with (backend w).
  now rewrite Hacc.
Qed.

Lemma forChunks_accepted (maxChunkChars : nat) :
  Accepting run ->
  NeverAborts run ->
  forall chunks fullText w,
    aborted w = false ->
    exists log w',
      forChunks (fun c => _processChunkWithRetry run c maxChunkChars 0)
        chunks fullText w
      = (Ok (fullText ++ concat (flat_map att_deltas log)), w') /\
      attempts w' = attempts w ++ log /\
      map att_chunk log = chunks /\
      Forall (fun a => att_ok a = true) log /\
      depths w' = depths w ++ repeat 0 (length chunks) /\
      updates w' = updates w ++ flat_map att_deltas log.
Proof.
  intros Hacc Hsig. induction chunks as [|c cs IH]; intros fullText w Hab.
  - exists [], w. simpl. rewrite !app_nil_r. repeat split; auto.
  - simpl forChunks. unfold bind, throwIfAborted. rewrite Hab.
    rewrite (retry_accepted c maxChunkChars 0 w Hacc).
    set (w1 := attemptWorld run c (logDepth 0 w)).
    assert (Hab1 : aborted w1 = false)
      by (simpl; rewrite Hab, Hsig; reflexivity).
    destruct (IH (fullText ++ concat (out_deltas (fst (run (backend w) c))))
                w1 Hab1)
      as (log & w' & Hrun & Hatt & Hchunks & Hok & Hdep & Hupd).
    eexists (_ :: log), w'. rewrite Hrun, Hatt, Hdep, Hupd. simpl.
    rewrite Hacc, Hchunks, concat_app, <- !app_assoc. simpl.
    repeat split; auto.
Qed.

(** X10.  With a backend whose every stream completes and a signal that
    does not fire, [call] makes exactly one backend call per chunk of the
    split, at depth 0 and in the order of the chunks, and resolves with
    the concatenation of the deltas in that order, which is also what
    [onUpdate] has received. *)
Theorem call_accepting_backend (s : Settings) (info : option ModelInfo)
  (text : jsstring) (prompt : option jsstring) w :
  Accepting run ->
  NeverAborts run ->
  aborted w = false ->
  let result := call run s info text prompt w in
  let chunks := splitText text (Z.to_nat (maxChunkChars s info prompt)) in
  exists log,
    fst result = Ok (concat (flat_map att_deltas log)) /\
    attempts (snd result) = attempts w ++ log /\
    map att_chunk log = chunks /\
    Forall (fun a => att_ok a = true) log /\
    depths (snd result) = depths w ++ repeat 0 (length chunks) /\
    updates (snd result) = updates w ++ flat_map att_deltas log.
Proof.
  intros Hacc Hsig Hab result chunks.
  destruct (forChunks_accepted (Z.to_nat (maxChunkChars s info prompt))
              Hacc Hsig chunks [] w Hab)
    as (log & w' & Hrun & Hrest).
  assert (Hcall : result = (Ok (concat (flat_map att_deltas log)), w')).
  { unfold result, call, tryCatch. cbv zeta. unfold chunks in Hrun.
    now rewrite Hrun. }
  exists log. rewrite Hcall. simpl. tauto.
Qed.

(** X11.  When the signal fires while the first of at least two chunks is
    being processed and that chunk completes, [call] throws the
    [AbortError] before the second chunk: one backend call has been made,
    and [onUpdate] has received the deltas of the first chunk and nothing
    else. *)
Theorem call_cancelled_after_first_chunk (s : Settings)
  (info : option ModelInfo) (text : jsstring) (prompt : option jsstring) w
  (c1 c2 : jsstring) (rest : list jsstring) :
  splitText text (Z.to_nat (maxChunkChars s info prompt)) = c1 :: c2 :: rest ->
  aborted w = false ->
  out_error (fst (run (backend w) c1)) = None ->
  out_abort (fst (run (backend w) c1)) = true ->
  let result := call run s info text prompt w in
  fst result = Throw AbortError /\
  length (attempts (snd result)) = length (attempts w) + 1 /\
  updates (snd result) = updates w ++ out_deltas (fst (run (backend w) c1)).
Proof.
  intros Hsplit Hab Hok Hfire result.
  assert (Hres : result
                 = (Throw AbortError, attemptWorld run c1 (logDepth 0 w))).
  { unfold result, call, tryCatch. rewrite Hsplit. simpl forChunks.
    unfold bind at 1. unfold throwIfAborted at 1. rewrite Hab.
    unfold bind at 1.
    rewrite _processChunkWithRetry_eq. unfold tryCatch.
    rewrite enter_streamChunk. unfold attemptResult.
    change (backend (logDepth 0 w)) with (backend w). rewrite Hok.
    unfold bind at 1. unfold throwIfAborted at 1.
    set (w1 := attemptWorld run c1 (logDepth 0 w)).
    assert (Hab1 : aborted w1 = true)
      by (simpl; rewrite Hfire; apply orb_true_r).
    rewrite Hab1. reflexivity. }
  rewrite Hres. simpl. rewrite length_app. auto.
Qed.

End CallFacts.

Lemma call_throws_normalised_witness :
  let r := call rejectingBackend smallContext None twoWords None
             (initialWorld tt false) in
  r = (Throw (newError (formatErrorMessage overflowError)), snd r) /\
  (isAbortError (newError (formatErrorMessage overflowError)) = true \/
   (name (newError (formatErrorMessage overflowError)) = lit "Error" /\
    formatErrorMessage (newError (formatErrorMessage overflowError))
    = message (newError (formatErrorMessage overflowError)))).
Proof.
  cbv zeta. split; [vm_compute; reflexivity|].
  apply (@call_throws_normalised unit rejectingBackend smallContext None
           twoWords None (initialWorld tt false)
           (newError (formatErrorMessage overflowError))
           (snd (call rejectingBackend smallContext None twoWords None
                   (initialWorld tt false)))).
  vm_compute; reflexivity.
Defined.

Lemma call_accepting_backend_witness :
  Accepting echoBackend /\ NeverAborts echoBackend /\
  aborted (initialWorld tt false) = false /\
  let w := initialWorld tt false in
  let result := call echoBackend smallContext None threeWords None w in
  let chunks :=
    splitText threeWords (Z.to_nat (maxChunkChars smallContext None None)) in
  exists log,
    fst result = Ok (concat (flat_map att_deltas log)) /\
    attempts (snd result) = attempts w ++ log /\
    map att_chunk log = chunks /\
    Forall (fun a => att_ok a = true) log /\
    depths (snd result) = depths w ++ repeat 0 (length chunks) /\
    updates (snd result) = updates w ++ flat_map att_deltas log.
Proof.
  split; [intros b chunk; reflexivity|].
  split; [intros b chunk; reflexivity|].
  split; [reflexivity|].
  apply (@call_accepting_backend unit echoBackend smallContext None
           threeWords None (initialWorld tt false));
    [intros b chunk; reflexivity | intros b chunk; reflexivity | reflexivity].
Defined.

Lemma call_cancelled_after_first_chunk_witness :
  let w := initialWorld tt false in
  let c1 := word 300 ++ [32%N] ++ word 300 in
  splitText threeWords (Z.to_nat (maxChunkChars smallContext None None))
  = c1 :: word 300 :: [] /\
  aborted w = false /\
  out_error (fst (echoWhileAborting (backend w) c1)) = None /\
  out_abort (fst (echoWhileAborting (backend w) c1)) = true /\
  let result := call echoWhileAborting smallContext None threeWords None w in
  fst result = Throw AbortError /\
  length (attempts (snd result)) = length (attempts w) + 1 /\
  updates (snd result)
  = updates w ++ out_deltas (fst (echoWhileAborting (backend w) c1)).
Proof.
  cbv zeta. split; [vm_compute; reflexivity|].
  split; [reflexivity|]. split; [reflexivity|]. split; [reflexivity|].
  apply (@call_cancelled_after_first_chunk unit echoWhileAborting
           smallContext None threeWords None (initialWorld tt false)
           (word 300 ++ [32%N] ++ word 300) (word 300) []);
    [vm_compute; reflexivity | reflexivity | reflexivity | reflexivity].
Defined.

(* ===================================================================== *)
(** ** What the orchestrator sends to the backend *)
(* ===================================================================== *)

Section Limits.

Variable Backend : Type.
Variable run : Backend -> jsstring -> Outcome * Backend.
Variable maxChunkChars : nat.

Implicit Types (w : World Backend) (chunk : jsstring).

Lemma WithinLimits_attempt chunk (d : nat) w :
  d <= MAX_RETRY_DEPTH ->
  length chunk <= sizeLimit maxChunkChars d ->
  WithinLimits maxChunkChars w ->
  WithinLimits maxChunkChars (attemptWorld run chunk (logDepth d w)).
Proof.
  intros Hd Hlen Hw. unfold WithinLimits in *. simpl.
  apply Forall2_app; [assumption|].
  constructor; [split; assumption | constructor].
Qed.

Lemma WithinLimits_forChunks (body : jsstring -> M Backend jsstring)
  (chunks : list jsstring) :
  (forall c w, In c chunks ->
     WithinLimits maxChunkChars w ->
     WithinLimits maxChunkChars (snd (body c w))) ->
  forall fullText w,
    WithinLimits maxChunkChars w ->
    WithinLimits maxChunkChars (snd (forChunks body chunks fullText w)).
Proof.
  induction chunks as [|c cs IH]; intros Hbody fullText w Hw; simpl;
    [assumption|].
  unfold bind, throwIfAborted. destruct (aborted w); [assumption|].
  pose proof (Hbody c w (or_introl eq_refl) Hw) as Hc.
  destruct (body c w) as [[t|e] w1]; simpl in Hc; [|assumption].
  apply IH; [|assumption]. intros c' w' Hin. apply Hbody. now right.
Qed.

Lemma WithinLimits_retry (fuel : nat) :
  forall chunk (d : nat) w,
    d <= MAX_RETRY_DEPTH ->
    length chunk <= sizeLimit maxChunkChars d ->
    WithinLimits maxChunkChars w ->
    WithinLimits maxChunkChars
      (snd (processChunkWithRetry_fuel run fuel chunk maxChunkChars d w)).
Proof.
  induction fuel as [|fuel IH]; intros chunk d w Hd Hlen Hw;
    [rewrite processChunkWithRetry_fuel_0
    |rewrite processChunkWithRetry_fuel_S];
    unfold tryCatch; rewrite enter_streamChunk;
    pose proof (WithinLimits_attempt chunk Hd Hlen Hw) as Hw1;
    destruct (attemptResult run chunk (logDepth d w)) as [t|e];
    try assumption.
  - destruct (isContextError e && (d <? MAX_RETRY_DEPTH)); assumption.
  - destruct (isContextError e && (d <? MAX_RETRY_DEPTH)) eqn:Hcond;
      [|assumption].
    apply andb_true_iff in Hcond as [_ Hlt]. apply Nat.ltb_lt in Hlt.
    apply WithinLimits_forChunks; [|assumption].
    intros c w' Hin Hw'. apply IH; [lia | | assumption].
    pose proof (splitText_bound chunk (maxChunkChars / 2)) as Hb.
    rewrite Forall_forall in Hb. specialize (Hb c Hin).
    unfold sizeLimit. now replace (d + 1 =? 0) with false
      by (symmetry; apply Nat.eqb_neq; lia).
Qed.

End Limits.

(** X12.  Every backend call that [call] makes is at a retry depth of at
    most [MAX_RETRY_DEPTH = 2], on a chunk of at most the chunk budget at
    depth 0 and of at most half the budget at depths 1 and 2, whatever the
    backend answers and whenever the signal fires. *)
Theorem call_within_limits (Backend : Type)
  (run : Backend -> jsstring -> Outcome * Backend) (s : Settings)
  (info : option ModelInfo) (text : jsstring) (prompt : option jsstring)
  (b : Backend) (sig : bool) :
  WithinLimits (Z.to_nat (maxChunkChars s info prompt))
    (snd (call run s info text prompt (initialWorld b sig))).
Proof.
  set (budget := Z.to_nat (maxChunkChars s info prompt)).
  assert (Hloop : WithinLimits budget
            (snd (forChunks (fun chunk => _processChunkWithRetry run chunk budget 0)
                    (splitText text budget) [] (initialWorld b sig)))).
  { apply WithinLimits_forChunks; [|constructor].
    intros c w Hin Hw. apply WithinLimits_retry; [lia | | assumption].
    pose proof (splitText_bound text budget) as Hb.
    rewrite Forall_forall in Hb. exact (Hb c Hin). }
  unfold call, tryCatch. fold budget.
  destruct (forChunks _ _ _ (initialWorld b sig)) as [[t|e] w1];
    simpl in *; [assumption|].
  destruct (isAbortError e); assumption.
Qed.

(** X13.  For every backend, processing one chunk from depth 0 with a
    budget of at least 2 makes at most
    [1 + MAX_RETRY_DEPTH * k] backend calls, where [k] is the number of
    sub-chunks of the re-split at half the budget: the first call, then at
    most one call at depth 1 and one at depth 2 for each sub-chunk. *)
Theorem retry_call_budget (Backend : Type)
  (run : Backend -> jsstring -> Outcome * Backend) (maxChunkChars : nat)
  (chunk : jsstring) (w : World Backend) :
  2 <= maxChunkChars ->
  callsMade (_processChunkWithRetry run chunk maxChunkChars 0) w
  <= 1 + MAX_RETRY_DEPTH * length (splitText chunk (maxChunkChars / 2)).
Proof. apply retry_calls_any_backend. Qed.

Lemma retry_call_budget_witness :
  2 <= 768 /\
  callsMade (_processChunkWithRetry (windowBackend 384 []) twoParagraphs 768 0)
    (initialWorld tt false)
  <= 1 + MAX_RETRY_DEPTH * length (splitText twoParagraphs (768 / 2)).
Proof.
  split; [lia|].
  apply (@retry_call_budget unit (windowBackend 384 []) 768 twoParagraphs
           (initialWorld tt false)).
  lia.
Defined.

(* ===================================================================== *)
(** ** Resolution of the search provider *)
(* ===================================================================== *)

Example SEARCH_SETTINGS_KEYS_value :
  SEARCH_SETTINGS_KEYS
  = [lit "searchKeyBrave"; lit "searchKeyTavily"; lit "searchKeySerpapi";
     lit "searchKeyGoogle"; lit "searchGoogleCx"].
Proof. reflexivity. Qed.

Example resolve_google_without_cx :
  option_map (fun m => sp_id (m_provider m))
    (resolveSearchProvider googleWithoutCx) = Some (lit "serpapi").
Proof. reflexivity. Qed.

Lemma objGet_objSet_same (key value : jsstring) (obj : JsObject) :
  objGet key (objSet key value obj) = Some value.
Proof.
  induction obj as [|[k v] rest IH]; simpl.
  - assert (H : jsstring_eqb key key = true) by now apply jsstring_eqb_eq.
    now rewrite H.
  - destruct (jsstring_eqb k key) eqn:Hk; simpl; now rewrite Hk.
Qed.

Lemma objGet_objSet_other (key key' value : jsstring) (obj : JsObject) :
  jsstring_eqb key' key = false ->
  objGet key (objSet key' value obj) = objGet key obj.
Proof.
  intros Hne. induction obj as [|[k v] rest IH]; simpl.
  - now rewrite Hne.
  - destruct (jsstring_eqb k key') eqn:Hk; simpl.
    + apply jsstring_eqb_eq in Hk. subst k. now rewrite Hne.
    + destruct (jsstring_eqb k key); [reflexivity | exact IH].
Qed.

(** The extra object holds, for every extra key, the setting of that key. *)
Lemma collectExtra_Some (settings : StoredSettings) (eks : list ExtraKey) :
  forall extra0 extra,
    collectExtra settings eks extra0 = Some extra ->
    forallb (fun k => truthyValue (settings k)) (map ek_settingsKey eks) = true /\
    (forall k, In k (map ek_settingsKey eks) -> objGet k extra = settings k) /\
    (forall k, ~ In k (map ek_settingsKey eks) -> objGet k extra = objGet k extra0).
Proof.
  induction eks as [|ek rest IH]; intros extra0 extra H; simpl in *.
  - injection H as <-. repeat split; auto. intros k [].
  - destruct (settings (ek_settingsKey ek)) as [val|] eqn:Hval; [|discriminate].
    destruct (truthy val) eqn:Htruthy; [|discriminate].
    apply IH in H as (Hall & Hin & Hout). simpl. rewrite Htruthy.
    repeat split; auto.
    + intros k [<-|Hk]; [|now apply Hin].
      destruct (in_dec (list_eq_dec N.eq_dec) (ek_settingsKey ek)
                  (map ek_settingsKey rest)) as [Hi|Hni].
      * now apply Hin.
      * rewrite (Hout _ Hni), Hval. apply objGet_objSet_same.
    + intros k Hk. rewrite Hout by tauto. apply objGet_objSet_other.
      destruct (jsstring_eqb (ek_settingsKey ek) k) eqn:He; [|reflexivity].
      apply jsstring_eqb_eq in He. tauto.
Qed.

Lemma collectExtra_None (settings : StoredSettings) (eks : list ExtraKey) :
  forall extra0,
    collectExtra settings eks extra0 = None ->
    forallb (fun k => truthyValue (settings k)) (map ek_settingsKey eks) = false.
Proof.
  induction eks as [|ek rest IH]; intros extra0 H; simpl in *; [discriminate|].
  destruct (settings (ek_settingsKey ek)) as [val|]; [|reflexivity]. simpl.
  destruct (truthy val); [|reflexivity]. simpl. eapply IH; eauto.
Qed.

(** One step of the loop, by whether the provider is configured. *)
Lemma resolveFrom_cons (settings : StoredSettings) (p : SearchProvider)
  (rest : list SearchProvider) :
  if configured settings p
  then exists m,
         resolveFrom settings (p :: rest) = Some m /\
         m_provider m = p /\
         settings (sp_settingsKey p) = Some (m_apiKey m) /\
         m_apiKey m <> [] /\
         match sp_extraKeys p with
         | Some eks =>
             exists extra,
               m_extra m = Some extra /\
               forall k, In k (map ek_settingsKey eks) ->
                         objGet k extra = settings k
         | None => m_extra m = None
         end
  else resolveFrom settings (p :: rest) = resolveFrom settings rest.
Proof.
  unfold configured, extraSettingsKeys. simpl.
  destruct (settings (sp_settingsKey p)) as [apiKey|]; simpl; [|reflexivity].
  destruct (truthy apiKey) eqn:Hkey; simpl; [|reflexivity].
  assert (Hne : apiKey <> []) by now apply truthy_true.
  destruct (sp_extraKeys p) as [eks|]; simpl.
  - destruct (collectExtra settings eks []) as [extra|] eqn:Hextra.
    + apply collectExtra_Some in Hextra as (Hall & Hin & _). rewrite Hall.
      eexists. split; [reflexivity|]. simpl. repeat split; eauto.
    + apply collectExtra_None in Hextra. now rewrite Hextra.
  - eexists. split; [reflexivity|]. simpl. auto.
Qed.

Lemma resolveFrom_None (settings : StoredSettings)
  (providers : list SearchProvider) :
  resolveFrom settings providers = None <->
  forallb (fun p => negb (configured settings p)) providers = true.
Proof.
  induction providers as [|p rest IH]; [simpl; tauto|].
  pose proof (resolveFrom_cons settings p rest) as Hstep.
  cbn [forallb]. destruct (configured settings p); cbn [negb andb].
  - destruct Hstep as (m & -> & _). split; discriminate.
  - now rewrite Hstep.
Qed.

Lemma resolveFrom_Some (settings : StoredSettings)
  (providers : list SearchProvider) (m : SearchMatch) :
  resolveFrom settings providers = Some m ->
  exists before after,
    providers = before ++ m_provider m :: after /\
    forallb (fun p => negb (configured settings p)) before = true /\
    configured settings (m_provider m) = true /\
    settings (sp_settingsKey (m_provider m)) = Some (m_apiKey m) /\
    m_apiKey m <> [] /\
    match sp_extraKeys (m_provider m) with
    | Some eks =>
        exists extra,
          m_extra m = Some extra /\
          forall k, In k (map ek_settingsKey eks) -> objGet k extra = settings k
    | None => m_extra m = None
    end.
Proof.
  induction providers as [|p rest IH]; [discriminate|].
  pose proof (resolveFrom_cons settings p rest) as Hstep.
  destruct (configured settings p) eqn:Hconf.
  - destruct Hstep as (m' & -> & Hp & Hrest). intros [= <-].
    exists [], rest. rewrite Hp. simpl. tauto.
  - rewrite Hstep. intros H.
    destruct (IH H) as (before & after & -> & Hbefore & Hrest).
    exists (p :: before), after. simpl. rewrite Hconf. repeat split; tauto.
Qed.

(** X14.  [resolveSearchProvider] returns [null] exactly when no provider
    of [SEARCH_PROVIDERS] is configured, a provider being configured when
    its API key and all its extra keys are set to non-empty strings (for
    Google: the key and the search engine id). *)
Theorem resolveSearchProvider_null (settings : StoredSettings) :
  resolveSearchProvider settings = None <->
  forallb (fun p => negb (configured settings p)) SEARCH_PROVIDERS = true.
Proof. apply resolveFrom_None. Qed.

(** X15.  A match of [resolveSearchProvider] is the first configured
    provider in the order of [SEARCH_PROVIDERS]: every provider before it
    is not configured; its [apiKey] is the non-empty setting of the
    provider's key; and [extra] is present exactly for a provider with
    extra keys, holding the setting of each. *)
Theorem resolveSearchProvider_first (settings : StoredSettings)
  (m : SearchMatch) :
  resolveSearchProvider settings = Some m ->
  exists before after,
    SEARCH_PROVIDERS = before ++ m_provider m :: after /\
    forallb (fun p => negb (configured settings p)) before = true /\
    configured settings (m_provider m) = true /\
    settings (sp_settingsKey (m_provider m)) = Some (m_apiKey m) /\
    m_apiKey m <> [] /\
    match sp_extraKeys (m_provider m) with
    | Some eks =>
        exists extra,
          m_extra m = Some extra /\
          forall k, In k (map ek_settingsKey eks) -> objGet k extra = settings k
    | None => m_extra m = None
    end.
Proof. apply resolveFrom_Some. Qed.

Lemma resolveSearchProvider_first_witness :
  exists m,
    resolveSearchProvider googleWithoutCx = Some m /\
    exists before after,
      SEARCH_PROVIDERS = before ++ m_provider m :: after /\
      forallb (fun p => negb (configured googleWithoutCx p)) before = true /\
      configured googleWithoutCx (m_provider m) = true /\
      googleWithoutCx (sp_settingsKey (m_provider m)) = Some (m_apiKey m) /\
      m_apiKey m <> [] /\
      match sp_extraKeys (m_provider m) with
      | Some eks =>
          exists extra,
            m_extra m = Some extra /\
            forall k, In k (map ek_settingsKey eks) ->
                      objGet k extra = googleWithoutCx k
      | None => m_extra m = None
      end.
Proof.
  eexists. split; [reflexivity|].
  apply (@resolveSearchProvider_first googleWithoutCx). reflexivity.
Defined.

Lemma collectExtra_ext (s1 s2 : StoredSettings) (eks : list ExtraKey) :
  (forall k, In k (map ek_settingsKey eks) -> s1 k = s2 k) ->
  forall extra, collectExtra s1 eks extra = collectExtra s2 eks extra.
Proof.
  induction eks as [|ek rest IH]; intros Hagree extra; simpl; [reflexivity|].
  rewrite <- (Hagree (ek_settingsKey ek)) by now left.
  destruct (s1 (ek_settingsKey ek)) as [val|]; [|reflexivity].
  destruct (truthy val); [|reflexivity].
  apply IH. intros k Hk. apply Hagree. now right.
Qed.

Lemma resolveFrom_ext (s1 s2 : StoredSettings)
  (providers : list SearchProvider) :
  (forall k,
     In k (flat_map (fun p => sp_settingsKey p :: extraSettingsKeys p) providers) ->
     s1 k = s2 k) ->
  resolveFrom s1 providers = resolveFrom s2 providers.
Proof.
  induction providers as [|p rest IH]; intros Hagree; simpl; [reflexivity|].
  simpl in Hagree.
  assert (Hrest : resolveFrom s1 rest = resolveFrom s2 rest).
  { apply IH. intros k Hk. apply Hagree. right. apply in_or_app. now right. }
  rewrite <- (Hagree (sp_settingsKey p)) by now left.
  destruct (s1 (sp_settingsKey p)) as [apiKey|]; [|exact Hrest].
  destruct (truthy apiKey); [|exact Hrest].
  unfold extraSettingsKeys in Hagree.
  destruct (sp_extraKeys p) as [eks|]; [|reflexivity].
  rewrite (@collectExtra_ext s1 s2 eks).
  - now rewrite Hrest.
  - intros k Hk. apply Hagree. right. apply in_or_app. now left.
Qed.

(** X16.  [resolveSearchProvider] reads the settings only at the keys of
    [SEARCH_SETTINGS_KEYS] (the keys that the service worker loads from
    storage): two settings objects that agree on these keys resolve to the
    same result. *)
Theorem resolveSearchProvider_reads_search_keys (s1 s2 : StoredSettings) :
  (forall k, In k SEARCH_SETTINGS_KEYS -> s1 k = s2 k) ->
  resolveSearchProvider s1 = resolveSearchProvider s2.
Proof. apply resolveFrom_ext. Qed.

Lemma resolveSearchProvider_reads_search_keys_witness :
  (forall k, In k SEARCH_SETTINGS_KEYS ->
             googleWithCx k = googleWithCxAndModel k) /\
  resolveSearchProvider googleWithCx
  = resolveSearchProvider googleWithCxAndModel.
Proof.
  assert (H : forall k, In k SEARCH_SETTINGS_KEYS ->
                        googleWithCx k = googleWithCxAndModel k).
  { intros k Hk. simpl in Hk.
    destruct Hk as [<-|[<-|[<-|[<-|[<-|[]]]]]]; reflexivity. }
  split; [exact H|].
  apply (@resolveSearchProvider_reads_search_keys googleWithCx
           googleWithCxAndModel H).
Defined.

(** X17.  A tool can always be built from a match of
    [resolveSearchProvider]: the id of the matched provider is a key of
    [SEARCH_FUNCTIONS], and when the function is [searchGoogle] the
    [extra] of the match passes its check of the search engine id, with
    the id taken from the settings. *)
Theorem resolved_provider_has_search_function (settings : StoredSettings)
  (m : SearchMatch) :
  resolveSearchProvider settings = Some m ->
  exists f,
    ownSearchFunction (sp_id (m_provider m)) SEARCH_FUNCTIONS = Some f /\
    (f = searchGoogle ->
     exists cx,
       settings (lit "searchGoogleCx") = Some cx /\
       googleEngineId (m_extra m) = Ok cx).
Proof.
  intros H. apply resolveFrom_Some in H
    as (before & after & Hlist & _ & Hconf & _ & _ & Hextra).
  assert (Hin : In (m_provider m) SEARCH_PROVIDERS)
    by (rewrite Hlist; apply in_or_app; right; now left).
  simpl in Hin. destruct Hin as [Hp|[Hp|[Hp|[Hp|[]]]]];
    rewrite <- Hp in *; clear Hp.
  - exists searchBrave. split; [reflexivity | discriminate].
  - exists searchTavily. split; [reflexivity | discriminate].
  - exists searchSerpapi. split; [reflexivity | discriminate].
  - exists searchGoogle. split; [reflexivity|]. intros _.
    simpl in Hextra. destruct Hextra as (extra & Hm & Hget).
    unfold configured in Hconf. simpl in Hconf.
    apply andb_true_iff in Hconf as [_ Hcx].
    rewrite andb_true_r in Hcx.
    destruct (settings (lit "searchGoogleCx")) as [cx|] eqn:Hs;
      [|discriminate].
    exists cx. split; [reflexivity|].
    unfold googleEngineId. rewrite Hm, (Hget (lit "searchGoogleCx")), Hs
      by now left.
    simpl in Hcx. now rewrite Hcx.
Qed.

Lemma resolved_provider_has_search_function_witness :
  exists m,
    resolveSearchProvider googleWithCx = Some m /\
    exists f,
      ownSearchFunction (sp_id (m_provider m)) SEARCH_FUNCTIONS = Some f /\
      (f = searchGoogle ->
       exists cx,
         googleWithCx (lit "searchGoogleCx") = Some cx /\
         googleEngineId (m_extra m) = Ok cx).
Proof.
  eexists. split; [reflexivity|].
  apply (@resolved_provider_has_search_function googleWithCx). reflexivity.
Defined.

(* ===================================================================== *)
(** ** The modal: streamed deltas and paragraphs *)
(* ===================================================================== *)

Example updateContent_lines :
  contentDiv (updateAll [lit "ab"; lit "c
d"; lit "e"] (show (lit "Preparing") false newModal))
  = Some [P (lit "abc"); P (lit "de")].
Proof. reflexivity. Qed.

(** [text.split(sep)] for a separator of one code unit, by the piece being
    read. *)
Lemma split_scan_cur (s : char) (text : jsstring) :
  forall cur,
    split_scan (length text) [s] text cur
    = match split text [s] with
      | h :: t => (cur ++ h) :: t
      | [] => [cur]
      end.
Proof.
  unfold split. induction text as [|c rest IH]; intros cur.
  - simpl. now rewrite !app_nil_r.
  - rewrite (@split_scan_eq [s] (c :: rest) cur ltac:(discriminate)).
    rewrite (@split_scan_eq [s] (c :: rest) [] ltac:(discriminate)).
    destruct (startsWith [s] (c :: rest)).
    + simpl. now rewrite app_nil_r.
    + rewrite IH. rewrite (IH ([] ++ [c])).
      destruct (split_scan (length rest) [s] rest []); simpl;
        now rewrite <- ?app_assoc.
Qed.

(** Splitting a concatenation on a separator of one code unit: the last
    piece of the first text runs on into the first piece of the second. *)
Lemma split_app_char (s : char) (a b : jsstring) :
  split (a ++ b) [s]
  = removelast (split a [s])
      ++ [last (split a [s]) [] ++ hd [] (split b [s])]
      ++ tl (split b [s]).
Proof.
  assert (Hgen : forall a cur,
    split_scan (length (a ++ b)) [s] (a ++ b) cur
    = removelast (split_scan (length a) [s] a cur)
        ++ [last (split_scan (length a) [s] a cur) [] ++ hd [] (split b [s])]
        ++ tl (split b [s])).
  { clear a. induction a as [|c a IH]; intros cur.
    - simpl app at 1 2. rewrite split_scan_cur. simpl.
      pose proof (split_nonempty b [s]) as Hne.
      destruct (split b [s]); [congruence | simpl; now rewrite app_nil_r].
    - change ((c :: a) ++ b) with (c :: a ++ b).
      rewrite (@split_scan_eq [s] (c :: a ++ b) cur ltac:(discriminate)).
      rewrite (@split_scan_eq [s] (c :: a) cur ltac:(discriminate)).
      change (startsWith [s] (c :: a ++ b)) with (N.eqb s c && true).
      change (startsWith [s] (c :: a)) with (N.eqb s c && true).
      destruct (N.eqb s c); simpl andb; cbv iota.
      + change (skipn (length [s]) (c :: a ++ b)) with (a ++ b).
        change (skipn (length [s]) (c :: a)) with a.
        unfold split. rewrite IH.
        pose proof (split_scan_nonempty (length a) [s] a []) as Hne.
        destruct (split_scan (length a) [s] a []) as [|x xs];
          [congruence | reflexivity].
      + apply IH. }
  apply Hgen.
Qed.

Lemma appendToLast_P (children : list Element) (t line : jsstring) :
  appendToLast (children ++ [P t]) line = children ++ [P (t ++ line)].
Proof. unfold appendToLast. now rewrite last_last, removelast_last. Qed.

(** After an append the last child is a paragraph. *)
Lemma appendToLast_shape (children : list Element) (line : jsstring) :
  exists before t,
    appendToLast children line = before ++ [P (t ++ line)] /\
    forall line', appendToLast children (line ++ line')
                  = before ++ [P (t ++ line ++ line')].
Proof.
  unfold appendToLast. destruct (last children ErrorIcon) as [t|].
  - exists (removelast children), t. split; [reflexivity|].
    intros line'. reflexivity.
  - exists children, []. split; [reflexivity|]. intros line'. reflexivity.
Qed.

Lemma forEachLine_rest (lines : list jsstring) (i : nat)
  (children : list Element) :
  forEachLine lines (S i) children = children ++ map P lines.
Proof.
  revert i children. induction lines as [|l ls IH]; intros i children; simpl.
  - now rewrite app_nil_r.
  - rewrite IH. now rewrite <- app_assoc.
Qed.

(** Both branches of [updateContent] do the same to the children: the
    first line goes to the last paragraph, each other line to a paragraph
    of its own. *)
Lemma update_children (lines : list jsstring) (children : list Element) :
  lines <> [] ->
  (if length lines =? 1 then appendToLast children (nth 0 lines [])
   else forEachLine lines 0 children)
  = appendToLast children (hd [] lines) ++ map P (tl lines).
Proof.
  intros Hne. destruct lines as [|l [|l' ls]]; [exfalso; apply Hne; reflexivity| |].
  - simpl. symmetry. apply app_nil_r.
  - change (length (l :: l' :: ls) =? 1) with false. cbv iota.
    simpl forEachLine. rewrite forEachLine_rest. simpl.
    now rewrite <- app_assoc.
Qed.

Lemma update_children_lists (la lb : list jsstring)
  (children : list Element) :
  la <> [] -> lb <> [] ->
  appendToLast (appendToLast children (hd [] la) ++ map P (tl la))
    (hd [] lb)
    ++ map P (tl lb)
  = appendToLast children
      (hd [] (removelast la ++ [last la [] ++ hd [] lb] ++ tl lb))
      ++ map P (tl (removelast la ++ [last la [] ++ hd [] lb] ++ tl lb)).
Proof.
  intros Ha Hb.
  destruct lb as [|y lb]; [exfalso; apply Hb; reflexivity|]. clear Hb.
  destruct (exists_last Ha) as (la' & x & ->). clear Ha.
  rewrite removelast_last, last_last. simpl hd at 2. simpl tl at 2.
  destruct la' as [|h' la'].
  - simpl.
    destruct (appendToLast_shape children x) as (before & t0 & -> & Hmore).
    rewrite app_nil_r. rewrite appendToLast_P, Hmore.
    now rewrite <- !app_assoc.
  - simpl hd. simpl tl.
    rewrite !map_app. simpl map.
    rewrite !app_assoc. rewrite appendToLast_P.
    now rewrite <- !app_assoc.
Qed.

Lemma update_children_app (a b : jsstring) (children : list Element) :
  appendToLast
    (appendToLast children (hd [] (split a [10%N]))
       ++ map P (tl (split a [10%N])))
    (hd [] (split b [10%N]))
    ++ map P (tl (split b [10%N]))
  = appendToLast children (hd [] (split (a ++ b) [10%N]))
      ++ map P (tl (split (a ++ b) [10%N])).
Proof.
  rewrite split_app_char.
  apply update_children_lists; apply split_nonempty.
Qed.

(** Delivering a delta in two pieces shows the same as delivering it
    whole: [updateContent(b)] after [updateContent(a)] leaves what
    [updateContent(a + b)] leaves. *)
Lemma updateContent_compose (a b : jsstring) (m : Modal) :
  updateContent b (updateContent a m) = updateContent (a ++ b) m.
Proof.
  unfold updateContent at 2 3.
  destruct (contentDiv m) as [children|] eqn:Hc.
  2:{ unfold updateContent. now rewrite Hc. }
  destruct (isError m) eqn:He.
  { unfold updateContent. now rewrite Hc, He. }
  unfold updateContent.
  cbv zeta. cbn [contentDiv isError isFirstUpdate statusDiv].
  rewrite !update_children by apply split_nonempty.
  rewrite update_children_app.
  f_equal. now destruct (statusDiv m).
Qed.

Lemma updateAll_cons (d : jsstring) (deltas : list jsstring) (m : Modal) :
  updateAll (d :: deltas) m = updateAll deltas (updateContent d m).
Proof. reflexivity. Qed.

Lemma updateAll_from (deltas : list jsstring) (d : jsstring) (m : Modal) :
  updateAll deltas (updateContent d m) = updateContent (d ++ concat deltas) m.
Proof.
  revert d. induction deltas as [|d' ds IH]; intros d.
  - simpl. now rewrite app_nil_r.
  - rewrite updateAll_cons, updateContent_compose, IH.
    simpl concat. now rewrite app_assoc.
Qed.

Lemma updateAll_whole (deltas : list jsstring) (m : Modal) :
  deltas <> [] ->
  updateAll deltas m = updateContent (concat deltas) m.
Proof.
  intros Hne. destruct deltas as [|d ds]; [exfalso; apply Hne; reflexivity|].
  rewrite updateAll_cons. apply updateAll_from.
Qed.

Lemma updateContent_first (delta content : jsstring) (m : Modal) :
  contentDiv (updateContent delta (show content false m))
  = Some (map P (split delta [10%N])).
Proof.
  unfold updateContent, show.
  cbv zeta. cbn [contentDiv isError isFirstUpdate statusDiv].
  rewrite update_children by apply split_nonempty.
  pose proof (split_nonempty delta [10%N]) as Hne.
  destruct (split delta [10%N]) as [|l ls];
    [exfalso; apply Hne; reflexivity | reflexivity].
Qed.

Lemma updateContent_ignored (delta : jsstring) (m : Modal) :
  contentDiv m = None \/ isError m = true ->
  updateContent delta m = m.
Proof.
  intros [H|H]; unfold updateContent; rewrite H; [reflexivity|].
  now destruct (contentDiv m).
Qed.

(** X18.  How the stream is cut into deltas does not show: after one or
    more calls of [updateContent] the modal is in the state that one call
    with the concatenation of the deltas leaves, whatever it was
    before. *)
Theorem updateContent_stream_cut (deltas : list jsstring) (m : Modal) :
  deltas <> [] ->
  updateAll deltas m = updateContent (concat deltas) m.
Proof. apply updateAll_whole. Qed.

Lemma updateContent_stream_cut_witness :
  updateAll [lit "ab"; lit "c
d"; lit "e"] (show (lit "Preparing") false newModal)
  = updateContent (concat [lit "ab"; lit "c
d"; lit "e"]) (show (lit "Preparing") false newModal).
Proof. apply updateContent_stream_cut. discriminate. Defined.

(** X19.  What a shown modal displays after a stream: the initial text is
    gone, there is one paragraph for each line of the streamed text (empty
    lines too), and the paragraphs joined by line feeds are the
    concatenation of the deltas. *)
Theorem modal_displays_stream (content : jsstring) (deltas : list jsstring)
  (m : Modal) :
  deltas <> [] ->
  exists paragraphs,
    contentDiv (updateAll deltas (show content false m))
    = Some (map P paragraphs) /\
    paragraphs = split (concat deltas) [10%N] /\
    join [10%N] paragraphs = concat deltas.
Proof.
  intros Hne. exists (split (concat deltas) [10%N]).
  rewrite updateAll_whole by assumption.
  rewrite updateContent_first. repeat split.
  apply split_join. discriminate.
Qed.

Lemma modal_displays_stream_witness :
  exists paragraphs,
    contentDiv (updateAll [lit "ab"; lit "c
d"; lit "e"] (show (lit "Preparing") false newModal))
    = Some (map P paragraphs) /\
    paragraphs = split (concat [lit "ab"; lit "c
d"; lit "e"]) [10%N] /\
    join [10%N] paragraphs = concat [lit "ab"; lit "c
d"; lit "e"].
Proof. apply modal_displays_stream. discriminate. Defined.

(** X20.  An error modal and a closed modal show no streamed text: every
    [updateContent] leaves them as they are. *)
Theorem updateContent_error_or_closed (deltas : list jsstring) (m : Modal) :
  contentDiv m = None \/ isError m = true ->
  updateAll deltas m = m.
Proof.
  intros H. induction deltas as [|d ds IH]; [reflexivity|].
  now rewrite updateAll_cons, updateContent_ignored.
Qed.

Lemma updateContent_error_or_closed_witness :
  updateAll [lit "late"] (show (lit "Request failed") true newModal)
  = show (lit "Request failed") true newModal.
Proof. apply updateContent_error_or_closed. right. reflexivity. Defined.
(* ===================================================================== *)
(** ** The service worker: which runs are cancelled *)
(* ===================================================================== *)

Example clickedTwice_aborts_second_only :
  abortCalls (handleAll clickedTwice startedWorker) = [1].
Proof. reflexivity. Qed.

Lemma handleAll_app (es1 es2 : list WorkerEvent) (w : Worker) :
  handleAll (es1 ++ es2) w = handleAll es2 (handleAll es1 w).
Proof. apply fold_left_app. Qed.

Lemma handleAll_cons (e : WorkerEvent) (es : list WorkerEvent) (w : Worker) :
  handleAll (e :: es) w = handleAll es (handle w e).
Proof. reflexivity. Qed.

Lemma mapSet_Some (A : Type) (key k : TabId) (v c : A) m :
  mapSet key v m k = Some c -> (k = key /\ c = v) \/ (k <> key /\ m k = Some c).
Proof.
  unfold mapSet. destruct (Z.eqb_spec k key); [|tauto].
  intros [= <-]. tauto.
Qed.

Lemma mapDelete_Some (A : Type) (key k : TabId) (c : A) m :
  mapDelete key m k = Some c -> k <> key /\ m k = Some c.
Proof.
  unfold mapDelete. destruct (Z.eqb_spec k key); [discriminate | tauto].
Qed.

Lemma abortTab_consistent (t : TabId) (w : Worker) :
  Consistent w -> Consistent (abortTab t w).
Proof.
  intros (Hreg & Hinj & Hab & Hnd). unfold abortTab.
  destruct (tabAbortControllers w t) as [c|] eqn:Ht;
    [|split; [|split; [|split]]; assumption].
  destruct (Hreg _ _ Ht) as [Hlt Hnot].
  split; [|split; [|split]];
    cbn [tabAbortControllers abortCalls controllersCreated].
  - intros t1 c1 H. apply mapDelete_Some in H as [Hk H].
    split; [now apply (Hreg _ _ H)|]. intros [<-|Hin].
    + apply Hk. now apply (Hinj _ _ _ H Ht).
    + now apply (Hreg _ _ H).
  - intros t1 t2 c' H1 H2. apply mapDelete_Some in H1 as [_ H1].
    apply mapDelete_Some in H2 as [_ H2]. now apply (Hinj _ _ _ H1 H2).
  - intros c' [<-|Hin]; [exact Hlt | now apply Hab].
  - now constructor.
Qed.

Lemma handle_consistent (e : WorkerEvent) (w : Worker) :
  Consistent w -> Consistent (handle w e).
Proof.
  intros Hw. destruct e as [t|t|t|t [s|]|t]; simpl;
    try (now apply abortTab_consistent); try assumption.
  - destruct Hw as (Hreg & Hinj & Hab & Hnd).
    split; [|split; [|split]];
      cbn [tabAbortControllers abortCalls controllersCreated].
    + intros t1 c1 H. apply mapSet_Some in H as [[_ ->]|[_ H]].
      * split; [lia|]. intros Hin. apply Hab in Hin. lia.
      * apply Hreg in H. split; [lia | tauto].
    + intros t1 t2 c H1 H2.
      apply mapSet_Some in H1 as [[-> ->]|[Hk1 H1]];
        apply mapSet_Some in H2 as [[-> Hc]|[Hk2 H2]]; try reflexivity.
      * apply Hreg in H2. lia.
      * subst c. apply Hreg in H1. lia.
      * now apply (Hinj _ _ _ H1 H2).
    + intros c Hin. apply Hab in Hin. lia.
    + assumption.
  - destruct Hw as (Hreg & Hinj & Hab & Hnd).
    split; [|split; [|split]];
      cbn [tabAbortControllers abortCalls controllersCreated];
      try assumption.
    + intros t1 c1 H. apply mapDelete_Some in H as [_ H].
      now apply (Hreg _ _ H).
    + intros t1 t2 c H1 H2. apply mapDelete_Some in H1 as [_ H1].
      apply mapDelete_Some in H2 as [_ H2]. now apply (Hinj _ _ _ H1 H2).
  - destruct (jsstring_eqb s (lit "loading"));
      [now apply abortTab_consistent | assumption].
Qed.

Lemma handleAll_consistent (events : list WorkerEvent) (w : Worker) :
  Consistent w -> Consistent (handleAll events w).
Proof.
  revert w. induction events as [|e es IH]; intros w Hw; [exact Hw|].
  rewrite handleAll_cons. apply IH. now apply handle_consistent.
Qed.

Lemma startedWorker_consistent : Consistent startedWorker.
Proof.
  repeat split; simpl; try discriminate; try tauto. constructor.
Qed.

(** An event leaves the entry of a tab as it is unless it cancels the run
    of this tab or unregisters it. *)
Lemma handle_entry (e : WorkerEvent) (w : Worker) (t : TabId) :
  tabAbortControllers (handle w e) t = tabAbortControllers w t \/
  cancels e = Some t \/ unregisters e = Some t.
Proof.
  assert (Habort : forall t',
    tabAbortControllers (abortTab t' w) t = tabAbortControllers w t \/
    t' = t).
  { intros t'. unfold abortTab.
    destruct (tabAbortControllers w t') as [c|]; [|now left]. simpl.
    unfold mapDelete. destruct (Z.eqb_spec t t'); [now right | now left]. }
  destruct e as [t'|t'|t'|t' [s|]|t']; simpl.
  - unfold mapSet. destruct (Z.eqb_spec t t'); subst; tauto.
  - unfold mapDelete. destruct (Z.eqb_spec t t'); subst; tauto.
  - destruct (Habort t') as [H| ->]; tauto.
  - destruct (jsstring_eqb s (lit "loading")); [|now left].
    destruct (Habort t') as [H| ->]; tauto.
  - now left.
  - destruct (Habort t') as [H| ->]; tauto.
Qed.

(** The calls of [abort()] that an event adds: on the controller of the
    tab whose run it cancels. *)
Lemma handle_abortCalls (e : WorkerEvent) (w : Worker) :
  abortCalls (handle w e) = abortCalls w \/
  exists t c, cancels e = Some t /\ tabAbortControllers w t = Some c /\
              abortCalls (handle w e) = c :: abortCalls w.
Proof.
  assert (Habort : forall t,
    abortCalls (abortTab t w) = abortCalls w \/
    exists c, tabAbortControllers w t = Some c /\
              abortCalls (abortTab t w) = c :: abortCalls w).
  { intros t. unfold abortTab.
    destruct (tabAbortControllers w t) as [c|]; [right | now left].
    now exists c. }
  destruct e as [t|t|t|t [s|]|t]; simpl; try (now left).
  - destruct (Habort t) as [H|(c & H1 & H2)]; [now left | right].
    now exists t, c.
  - destruct (jsstring_eqb s (lit "loading")); [|now left].
    destruct (Habort t) as [H|(c & H1 & H2)]; [now left | right].
    now exists t, c.
  - destruct (Habort t) as [H|(c & H1 & H2)]; [now left | right].
    now exists t, c.
Qed.

Lemma handle_created (e : WorkerEvent) (w : Worker) :
  controllersCreated w <= controllersCreated (handle w e).
Proof.
  destruct e as [t|t|t|t [s|]|t]; simpl; unfold abortTab;
    repeat match goal with
           | |- context [match ?x with _ => _ end] => destruct x
           end; simpl; lia.
Qed.

Lemma handle_detached (e : WorkerEvent) (w : Worker) (c : Controller) :
  Detached c w -> Detached c (handle w e).
Proof.
  intros [Hlt Hfree]. split.
  - pose proof (handle_created e w). lia.
  - intros t Ht.
    assert (Habort : forall t',
      tabAbortControllers (abortTab t' w) t = Some c -> False).
    { intros t'. unfold abortTab.
      destruct (tabAbortControllers w t'); simpl; intros H.
      - apply mapDelete_Some in H as [_ H]. now apply (Hfree t).
      - now apply (Hfree t). }
    destruct e as [t'|t'|t'|t' [s|]|t']; simpl in Ht;
      try (now apply (Habort t')); try (now apply (Hfree t)).
    + apply mapSet_Some in Ht as [[_ ->]|[_ H]]; [lia | now apply (Hfree t)].
    + apply mapDelete_Some in Ht as [_ H]. now apply (Hfree t).
    + destruct (jsstring_eqb s (lit "loading"));
        [now apply (Habort t') | now apply (Hfree t)].
Qed.

(** [abort()] is never called on a detached controller. *)
Lemma detached_not_aborted (events : list WorkerEvent) (w : Worker)
  (c : Controller) :
  Detached c w -> ~ In c (abortCalls w) ->
  ~ In c (abortCalls (handleAll events w)).
Proof.
  revert w. induction events as [|e es IH]; intros w Hd Hnot; [exact Hnot|].
  rewrite handleAll_cons. apply IH; [now apply handle_detached|].
  destruct (handle_abortCalls e w) as [->|(t & c' & _ & Hreg & ->)];
    [exact Hnot|].
  intros [->|Hin]; [|tauto]. destruct Hd as [_ Hfree]. now apply (Hfree t).
Qed.

(** After an event that unregisters a tab, the controller that the tab had
    is detached. *)
Lemma unregisters_detached (e : WorkerEvent) (w : Worker) (t : TabId)
  (c : Controller) :
  Consistent w -> tabAbortControllers w t = Some c ->
  unregisters e = Some t ->
  Detached c (handle w e) /\ ~ In c (abortCalls (handle w e)).
Proof.
  intros (Hreg & Hinj & _) Ht He.
  destruct (Hreg _ _ Ht) as [Hlt Hnot].
  destruct e as [t'|t'|t'|t' s|t']; try discriminate;
    injection He as ->; simpl; (split; [split|exact Hnot]); simpl;
    try lia; intros t1 H.
  - apply mapSet_Some in H as [[_ ->]|[Hk H]]; [lia|].
    apply Hk. now apply (Hinj _ _ _ H Ht).
  - apply mapDelete_Some in H as [Hk H].
    apply Hk. now apply (Hinj _ _ _ H Ht).
Qed.

Lemma aborted_later (post : list WorkerEvent) :
  forall (w : Worker) (t : TabId) (c : Controller),
    Consistent w ->
    tabAbortControllers w t = Some c ->
    In c (abortCalls (handleAll post w)) ->
    exists post1 e post2,
      post = post1 ++ e :: post2 /\
      cancels e = Some t /\
      tabAbortControllers (handleAll post1 w) t = Some c.
Proof.
  induction post as [|e es IH]; intros w t c Hw Ht Hin.
  - exfalso. destruct Hw as (Hreg & _). now apply (Hreg _ _ Ht).
  - rewrite handleAll_cons in Hin.
    destruct (handle_entry e w t) as [Hsame|[Hc|Hu]].
    + rewrite <- Hsame in Ht.
      destruct (IH _ _ _ (handle_consistent e Hw) Ht Hin)
        as (post1 & e' & post2 & -> & He' & Hreg').
      exists (e :: post1), e', post2. repeat split; assumption.
    + exists [], e, es. repeat split; assumption.
    + exfalso.
      destruct (unregisters_detached e Hw Ht Hu) as [Hd Hnot].
      now apply (detached_not_aborted es Hd Hnot).
Qed.

(** X21.  Whatever events the service worker has handled since its start:
    a controller in [tabAbortControllers] was never aborted, no two tabs
    hold the same controller, and [abort()] was called at most once on any
    controller. *)
Theorem worker_registry_consistent (events : list WorkerEvent) :
  Consistent (handleAll events startedWorker).
Proof. apply handleAll_consistent, startedWorker_consistent. Qed.

(** X22.  A run is cancelled only by an event of its own tab: if the
    controller registered for a tab is aborted later, then one of the later
    events is the removal of this tab, its change to status ["loading"] or
    the disconnection of its port, and the controller was still the one of
    the tab when that event came. *)
Theorem abort_needs_event_of_own_tab (pre post : list WorkerEvent)
  (t : TabId) (c : Controller) :
  tabAbortControllers (handleAll pre startedWorker) t = Some c ->
  In c (abortCalls (handleAll (pre ++ post) startedWorker)) ->
  exists post1 e post2,
    post = post1 ++ e :: post2 /\
    cancels e = Some t /\
    tabAbortControllers (handleAll (pre ++ post1) startedWorker) t = Some c.
Proof.
  intros Ht Hin. rewrite handleAll_app in Hin.
  destruct (@aborted_later post _ t c
              (handleAll_consistent pre startedWorker_consistent) Ht Hin)
    as (post1 & e & post2 & Hpost & He & Hreg).
  exists post1, e, post2. rewrite handleAll_app. repeat split; assumption.
Qed.

Lemma abort_needs_event_of_own_tab_witness :
  exists post1 e post2,
    [TabRemoved 7%Z] = post1 ++ e :: post2 /\
    cancels e = Some 7%Z /\
    tabAbortControllers
      (handleAll ([SanitizeStarts 7%Z; SanitizeStarts 8%Z] ++ post1)
         startedWorker) 7%Z = Some 0.
Proof.
  apply (@abort_needs_event_of_own_tab
           [SanitizeStarts 7%Z; SanitizeStarts 8%Z] [TabRemoved 7%Z] 7%Z 0).
  - reflexivity.
  - simpl. now left.
Defined.

(** X23.  Once the entry of a tab is replaced by a second [sanitizeTab] on
    the same tab, or removed by the [finally] of a [sanitizeTab] on it,
    [abort()] is never called on the controller that the tab had: no later
    event cancels that run. *)
Theorem unregistered_run_not_cancelled (pre post : list WorkerEvent)
  (e : WorkerEvent) (t : TabId) (c : Controller) :
  tabAbortControllers (handleAll pre startedWorker) t = Some c ->
  unregisters e = Some t ->
  ~ In c (abortCalls (handleAll (pre ++ e :: post) startedWorker)).
Proof.
  intros Ht He. rewrite handleAll_app, handleAll_cons.
  destruct (@unregisters_detached e _ t c
              (handleAll_consistent pre startedWorker_consistent) Ht He)
    as [Hd Hnot].
  now apply detached_not_aborted.
Qed.

Lemma unregistered_run_not_cancelled_witness :
  ~ In 0 (abortCalls
            (handleAll ([SanitizeStarts 7%Z]
                          ++ SanitizeStarts 7%Z :: [TabRemoved 7%Z])
               startedWorker)).
Proof.
  apply (@unregistered_run_not_cancelled
           [SanitizeStarts 7%Z] [TabRemoved 7%Z] (SanitizeStarts 7%Z) 7%Z 0);
    reflexivity.
Defined.
(* ===================================================================== *)
(** ** The Chrome summarizer provider *)
(* ===================================================================== *)

Section ChromeSummarizerRuns.
Import ChromeSummarizer.

(** Three chunks, their summaries reduced twice more, then the stream. *)
Example chrome_call_rounds :
  let (r, w) :=
    call dropLast 5 None (lit "aaaa bbbb cccc") (freshWorld tt false) in
  r = Returns [97; 97; 10; 98; 10; 99]%N /\
  updates w = [[97; 97; 10; 98; 10; 99]%N] /\
  length (requests w) = 12.
Proof. vm_compute. split; [|split]; reflexivity. Qed.

(** Without fuel the reduction is cut off. *)
Example chrome_call_cut_off :
  fst (call dropLast 0 None (lit "aaaa bbbb cccc") (freshWorld tt false))
  = Unfinished.
Proof. vm_compute. reflexivity. Qed.

End ChromeSummarizerRuns.

Section ChromeSummarizerFacts.
Import ChromeSummarizer.

Variable Api : Type.
Variable browser : SummarizerApi Api.

Lemma bind_inv A B (m : M Api A) (k : A -> M Api B) (w w' : World Api) (r : Result B) :
  bind m k w = (r, w') ->
  (exists a w1, m w = (Returns a, w1) /\ k a w1 = (r, w')) \/
  (exists e, m w = (Throws e, w') /\ r = Throws e) \/
  (m w = (Unfinished, w') /\ r = Unfinished).
Proof.
  unfold bind. destruct (m w) as [[a|e|] w1]; intros H.
  - left. now exists a, w1.
  - right. left. injection H as <- <-. now exists e.
  - right. right. injection H as <- <-. tauto.
Qed.

Ltac quiet_same :=
  split; [reflexivity|]; split; [reflexivity|];
  split; [intros; (assumption || congruence)|];
  exists []; now rewrite app_nil_r.

Lemma Quiet_ret A P (a : A) : Quiet P (@ret Api A a).
Proof.
  intros w r w' [= <- <-]. quiet_same.
Qed.

Lemma Quiet_throw A P e : Quiet P (@throw Api A e).
Proof.
  intros w r w' [= <- <-]. quiet_same.
Qed.

Lemma Quiet_unfinished A P : Quiet P (@unfinished Api A).
Proof.
  intros w r w' [= <- <-]. quiet_same.
Qed.

Lemma Quiet_bind A B P (m : M Api A) (k : A -> M Api B) :
  Quiet P m -> (forall a, Quiet P (k a)) -> Quiet P (bind m k).
Proof.
  unfold Quiet in *. intros Hm Hk w r w' H.
  apply bind_inv in H as [(a & w1 & H1 & H2)|[(e & H1 & _)|[H1 _]]];
    try (now apply (Hm _ _ _ H1)).
  destruct (Hm _ _ _ H1) as (Hu1 & Hs1 & Ha1 & new1 & Hr1 & HP1).
  destruct (Hk a _ _ _ H2) as (Hu2 & Hs2 & Ha2 & new2 & Hr2 & HP2).
  split; [congruence|]. split; [congruence|]. split; [auto|].
  exists (new1 ++ new2). split.
  - now rewrite Hr2, Hr1, app_assoc.
  - now apply Forall_app.
Qed.

Lemma Quiet_throwIfAborted P : Quiet P (@throwIfAborted Api).
Proof.
  intros w r w'. unfold throwIfAborted.
  destruct (aborted w) eqn:Hab; intros [= <- <-]; quiet_same.
Qed.

Lemma Quiet_answered A (P : Request -> Prop) req (s : Settled A) a'
  (w : World Api) :
  P req ->
  updates (answered req s a' w) = updates w /\
  _summarizer (answered req s a' w) = _summarizer w /\
  (aborted w = true -> aborted (answered req s a' w) = true) /\
  exists new,
    requests (answered req s a' w) = requests w ++ new /\ Forall P new.
Proof.
  intros HP. simpl. repeat split.
  - intros ->. reflexivity.
  - exists [req]. split; [reflexivity|]. now constructor.
Qed.

Lemma Quiet_await A (P : Request -> Prop) req
  (step : Api -> Settled A * Api) :
  P req -> Quiet P (await req step).
Proof.
  intros HP w r w'. unfold await.
  destruct (step (api w)) as [s a'].
  destruct (settled s); intros [= <- <-]; now apply Quiet_answered.
Qed.

Lemma Quiet_raceWithSignal A (P : Request -> Prop) req
  (step : Api -> Settled A * Api) :
  P req -> Quiet P (raceWithSignal req step).
Proof.
  intros HP w r w'. unfold raceWithSignal.
  destruct (step (api w)) as [s a'].
  destruct (aborted w || fired s); [|destruct (settled s)];
    intros [= <- <-]; now apply Quiet_answered.
Qed.

Lemma Quiet_summarizeAll (P : Request -> Prop) (chunks : list jsstring) :
  Forall (fun c => P (SummarizeRequest c)) chunks ->
  forall summaries, Quiet P (summarizeAll browser chunks summaries).
Proof.
  induction 1 as [|c cs Hc Hcs IH]; intros summaries; simpl.
  - apply Quiet_ret.
  - apply Quiet_bind; [apply Quiet_throwIfAborted|]. intros _.
    apply Quiet_bind; [now apply Quiet_raceWithSignal|]. intros s.
    apply IH.
Qed.

Lemma Quiet_recursiveSummarize (maxChars : nat) :
  forall fuel summaries,
    Quiet (WithinQuota maxChars)
      (recursiveSummarize_fuel browser fuel summaries maxChars).
Proof.
  assert (Hsplit : forall text summaries,
    Quiet (WithinQuota maxChars)
      (summarizeAll browser (splitText text maxChars) summaries)).
  { intros text summaries. apply Quiet_summarizeAll.
    apply (splitText_bound text maxChars). }
  induction fuel as [|fuel IH]; intros summaries; simpl;
    (apply Quiet_bind; [apply Quiet_throwIfAborted|]; intros _);
    destruct (length (join [10%N] summaries) <=? maxChars);
    try apply Quiet_ret; try apply Quiet_unfinished.
  apply Quiet_bind; [apply Hsplit | intros reduced; apply IH].
Qed.

(** What [_recursiveSummarize] returns fits the quota. *)
Lemma recursiveSummarize_fits (maxChars : nat) :
  forall fuel summaries (w w' : World Api) combined,
    recursiveSummarize_fuel browser fuel summaries maxChars w
    = (Returns combined, w') ->
    length combined <= maxChars /\ aborted w = false.
Proof.
  induction fuel as [|fuel IH]; intros summaries w w' combined H; simpl in H;
    apply bind_inv in H as [(a & w1 & H1 & H2)|[(e & _ & He)|[_ He]]];
    try discriminate;
    (assert (Hw : aborted w = false /\ w1 = w)
       by (unfold throwIfAborted in H1; destruct (aborted w);
           [discriminate | injection H1 as _ <-; tauto]));
    destruct Hw as [Hab ->];
    destruct (length (join [10%N] summaries) <=? maxChars) eqn:Hfit.
  - injection H2 as <- _. apply Nat.leb_le in Hfit. tauto.
  - discriminate.
  - injection H2 as <- _. apply Nat.leb_le in Hfit. tauto.
  - apply bind_inv in H2 as [(reduced & w2 & _ & H3)|[(e & _ & He)|[_ He]]];
      try discriminate.
    apply IH in H3 as [Hlen _]. tauto.
Qed.

(** The stream loop passes every chunk that it appends to [onUpdate]. *)
Lemma streamLoop_spec (chunks : list (jsstring * bool)) :
  forall fullText (w w' : World Api) r,
    streamLoop chunks fullText w = (r, w') ->
    requests w' = requests w /\
    _summarizer w' = _summarizer w /\
    exists emitted,
      updates w' = updates w ++ emitted /\
      forall t, r = Returns t -> t = fullText ++ concat emitted.
Proof.
  induction chunks as [|[chunk f] rest IH]; intros fullText w w' r H.
  - injection H as <- <-. repeat split.
    exists []. rewrite !app_nil_r. split; [reflexivity|].
    now intros t [= <-].
  - simpl in H. unfold bind at 1, delivered in H.
    unfold bind at 1, throwIfAborted in H. cbn [aborted] in H.
    destruct (aborted w || f).
    + injection H as <- <-. repeat split.
      exists []. rewrite app_nil_r. split; [reflexivity | discriminate].
    + unfold bind at 1, onUpdate in H.
      apply IH in H as (Hreq & Hsum & emitted & Hupd & Hres).
      cbn [requests _summarizer updates] in *.
      repeat split; try assumption.
      exists (chunk :: emitted). split.
      * now rewrite Hupd, <- app_assoc.
      * intros t Ht. rewrite (Hres t Ht). simpl. now rewrite <- app_assoc.
Qed.

Lemma _streamSummary_spec (text : jsstring) (w w' : World Api) r :
  _streamSummary browser text w = (r, w') ->
  requests w' = requests w ++ [StreamRequest text] /\
  _summarizer w' = _summarizer w /\
  exists emitted,
    updates w' = updates w ++ emitted /\
    forall t, r = Returns t -> t = concat emitted.
Proof.
  unfold _streamSummary, bind at 1, openStream.
  destruct (summarizeStreaming browser (api w) text) as [st a'].
  intros H.
  apply bind_inv in H as [(full & w1 & H1 & H2)|[(e & H1 & ->)|[H1 ->]]];
    apply streamLoop_spec in H1 as (Hreq & Hsum & emitted & Hupd & Hres);
    cbn [requests _summarizer updates] in *.
  - assert (Hw : w' = w1 /\ (forall t, r = Returns t -> t = full)).
    { destruct (st_error st); injection H2 as <- <-;
        (split; [reflexivity|]); [discriminate | now intros t [= <-]]. }
    destruct Hw as [-> Hr]. split; [assumption|]. split; [assumption|].
    exists emitted. split; [assumption|].
    intros t Ht. rewrite (Hr t Ht). now apply Hres.
  - split; [assumption|]. split; [assumption|].
    exists emitted. split; [assumption | discriminate].
  - split; [assumption|]. split; [assumption|].
    exists emitted. split; [assumption | discriminate].
Qed.

Lemma Streams_quiet A (P : Request -> Prop) (m : M Api A)
  (w w' : World Api) (r : Result jsstring) :
  Quiet P m ->
  (exists r0, m w = (r0, w')) ->
  (forall t, r <> Returns t) ->
  _summarizer w' = _summarizer w /\
  (exists new, requests w' = requests w ++ new /\ Forall P new) /\
  (exists emitted,
     updates w' = updates w ++ emitted /\
     forall t, r = Returns t -> t = concat emitted).
Proof.
  intros Hm [r0 H] Hno. destruct (Hm _ _ _ H) as (Hu & Hs & _ & Hr).
  split; [assumption|]. split; [assumption|].
  exists []. rewrite app_nil_r. split; [assumption|].
  intros t Ht. now destruct (Hno t).
Qed.

Lemma Streams_bind A (P : Request -> Prop) (m : M Api A)
  (k : A -> M Api jsstring) :
  Quiet P m ->
  (forall a w w1, m w = (Returns a, w1) -> Streams P (k a)) ->
  Streams P (bind m k).
Proof.
  intros Hm Hk w r w' H.
  apply bind_inv in H as [(a & w1 & H1 & H2)|[(e & H1 & ->)|[H1 ->]]].
  - destruct (Hm _ _ _ H1) as (Hu1 & Hs1 & _ & new1 & Hr1 & HP1).
    destruct (Hk a _ _ H1 _ _ _ H2)
      as (Hs2 & (new2 & Hr2 & HP2) & emitted & Hu2 & Hres).
    split; [congruence|]. split.
    + exists (new1 ++ new2). rewrite Hr2, Hr1, app_assoc.
      split; [reflexivity | now apply Forall_app].
    + exists emitted. split; [congruence | assumption].
  - eapply Streams_quiet; [exact Hm | eexists; exact H1 | discriminate].
  - eapply Streams_quiet; [exact Hm | eexists; exact H1 | discriminate].
Qed.

Lemma Streams_throw (P : Request -> Prop) e : Streams P (@throw Api _ e).
Proof.
  intros w r w' H. eapply Streams_quiet.
  - apply (@Quiet_throw jsstring P e).
  - now exists r.
  - injection H as <- _. discriminate.
Qed.

Lemma Streams_streamSummary (P : Request -> Prop) (text : jsstring) :
  P (StreamRequest text) -> Streams P (_streamSummary browser text).
Proof.
  intros HP w r w' H. apply _streamSummary_spec in H as (Hreq & Hsum & Hupd).
  split; [assumption|]. split; [|assumption].
  exists [StreamRequest text]. split; [assumption|]. now constructor.
Qed.

(** [call] from [splitText] on. *)
Lemma Streams_summarizeText (fuel : nat) (text : jsstring) (maxChars : nat) :
  Streams (WithinQuota maxChars) (summarizeText browser fuel text maxChars).
Proof.
  assert (Hlong :
    Streams (WithinQuota maxChars)
      (bind (summarizeAll browser (splitText text maxChars) [])
         (fun summaries =>
            bind (@throwIfAborted Api)
              (fun _ =>
                 bind (recursiveSummarize_fuel browser fuel summaries
                         maxChars)
                   (fun combined =>
                      bind (@throwIfAborted Api)
                        (fun _ => _streamSummary browser combined)))))).
  { apply Streams_bind.
    { apply Quiet_summarizeAll. apply (splitText_bound text maxChars). }
    intros summaries _ _ _.
    apply Streams_bind; [apply Quiet_throwIfAborted|]. intros _ _ _ _.
    apply Streams_bind; [apply Quiet_recursiveSummarize|].
    intros combined w w1 Hrec. apply recursiveSummarize_fits in Hrec as [Hfit _].
    apply Streams_bind; [apply Quiet_throwIfAborted|]. intros _ _ _ _.
    now apply Streams_streamSummary. }
  unfold summarizeText. cbv zeta.
  pose proof (splitText_bound text maxChars) as Hbound.
  destruct (splitText text maxChars) as [|c [|c' cs]] eqn:Hsp.
  - exact Hlong.
  - apply Streams_streamSummary. now apply Forall_inv in Hbound.
  - exact Hlong.
Qed.

Ltac call_stops new :=
  left; cbn [updates requests];
  split; [reflexivity|];
  split; [exists new; split;
            [now rewrite <- ?app_assoc, ?app_nil_r | repeat constructor]
         | discriminate].

(** [call] up to [splitText]: either it stops there, having shown nothing
    and sent no text, or the summarizer is created after three requests
    with the signal not fired before the call. *)
Lemma call_inv (fuel : nat) (contextLength : option N) (text : jsstring)
  (w w' : World Api) r :
  call browser fuel contextLength text w = (r, w') ->
  (updates w' = updates w /\
   (exists new,
      requests w' = requests w ++ new /\
      Forall (fun q => inputOf q = None) new) /\
   (forall t, r <> Returns t)) \/
  (exists s w1,
     aborted w = false /\
     _summarizer w1 = Some s /\
     updates w1 = updates w /\
     requests w1
     = requests w ++ [AvailabilityRequest; AvailabilityRequest; CreateRequest] /\
     summarizeText browser fuel text (maxCharsOf contextLength s) w1
     = (r, w')).
Proof.
  unfold call, checkAvailability, bind, await, raceWithSignal,
    throwIfAborted, setSummarizer, ret, throw, answered.
  destruct (hasSummarizer browser); cbn [negb fst snd].
  2:{ intros [= <- <-]. call_stops (@nil Request). }
  destruct (availability browser (api w)) as [s1 a1] eqn:Hav1.
  destruct (settled s1) as [v1|e1].
  2:{ intros [= <- <-]. call_stops [AvailabilityRequest]. }
  destruct (jsstring_eqb v1 (lit "unavailable")); cbn [negb fst snd].
  { intros [= <- <-]. call_stops [AvailabilityRequest]. }
  cbn [api aborted].
  destruct (availability browser a1) as [s2 a2] eqn:Hav2.
  destruct (settled s2) as [v2|e2].
  2:{ intros [= <- <-].
      call_stops [AvailabilityRequest; AvailabilityRequest]. }
  cbn [api aborted].
  destruct (aborted w || fired s1 || fired s2) eqn:Hab.
  { intros [= <- <-].
    call_stops [AvailabilityRequest; AvailabilityRequest]. }
  apply orb_false_iff in Hab as [Hab Hf2].
  apply orb_false_iff in Hab as [Hab Hf1].
  cbn [api aborted]. rewrite ?Hab, ?Hf1, ?Hf2. cbn [orb].
  destruct (create browser a2) as [s3 a3] eqn:Hcr.
  destruct (fired s3) eqn:Hf3.
  { intros [= <- <-].
    call_stops [AvailabilityRequest; AvailabilityRequest; CreateRequest]. }
  destruct (settled s3) as [s|e3].
  2:{ intros [= <- <-].
      call_stops [AvailabilityRequest; AvailabilityRequest; CreateRequest]. }
  cbn [api aborted]. rewrite ?Hab, ?Hf1, ?Hf2, ?Hf3. cbn [orb].
  intros H. right. eexists s, _. split; [assumption || reflexivity|].
  split; [|split; [|split; [|exact H]]]; cbn [_summarizer updates requests];
    try reflexivity.
  now rewrite <- !app_assoc.
Qed.

(** X24.  Whatever the Summarizer API answers and however far the
    reduction of the summaries gets, every text that [call] gives to
    [summarize] or [summarizeStreaming] has at most
    [tokenQuota * CHARS_PER_TOKEN] code units, for the quota of the
    summarizer that the call created. *)
Theorem chrome_call_within_quota (fuel : nat) (contextLength : option N)
  (text : jsstring) (w : World Api) :
  exists new,
    requests (snd (call browser fuel contextLength text w))
    = requests w ++ new /\
    forall q input,
      In q new -> inputOf q = Some input ->
      exists s,
        _summarizer (snd (call browser fuel contextLength text w)) = Some s /\
        length input <= maxCharsOf contextLength s.
Proof.
  destruct (call browser fuel contextLength text w) as [r w'] eqn:H.
  cbn [snd].
  apply call_inv in H
    as [(_ & (new & Hreq & Hnew) & _)|(s & w1 & _ & Hs & _ & Hreq & H)].
  - exists new. split; [assumption|]. intros q input Hq Hin.
    rewrite Forall_forall in Hnew. rewrite (Hnew q Hq) in Hin. discriminate.
  - apply Streams_summarizeText in H as (Hs' & (new & Hreq' & Hnew) & _).
    exists ([AvailabilityRequest; AvailabilityRequest; CreateRequest] ++ new).
    split; [now rewrite Hreq', Hreq, <- app_assoc|].
    intros q input Hq Hin. exists s. split; [congruence|].
    apply in_app_or in Hq as [Hq|Hq].
    + simpl in Hq. destruct Hq as [<-|[<-|[<-|[]]]]; discriminate.
    + rewrite Forall_forall in Hnew. specialize (Hnew q Hq).
      unfold WithinQuota in Hnew. now rewrite Hin in Hnew.
Qed.

(** X25.  The content that [call] returns is the concatenation of what it
    has passed to [onUpdate]; a call that throws or is cut off may have
    passed a part of a summary. *)
Theorem chrome_call_content_is_updates (fuel : nat)
  (contextLength : option N) (text : jsstring) (w : World Api) :
  exists emitted,
    updates (snd (call browser fuel contextLength text w))
    = updates w ++ emitted /\
    forall content,
      fst (call browser fuel contextLength text w) = Returns content ->
      content = concat emitted.
Proof.
  destruct (call browser fuel contextLength text w) as [r w'] eqn:H.
  cbn [fst snd].
  apply call_inv in H as [(Hupd & _ & Hno)|(s & w1 & _ & _ & Hupd & _ & H)].
  - exists []. rewrite app_nil_r. split; [assumption|].
    intros content Hr. now destruct (Hno content).
  - apply Streams_summarizeText in H as (_ & _ & emitted & Hupd' & Hres).
    exists emitted. split; [congruence | assumption].
Qed.


(** X27.  A call that starts after the signal has fired returns no
    content, passes nothing to [onUpdate] and sends no text to the
    summarizer. *)
Theorem chrome_call_cancelled_at_start (fuel : nat)
  (contextLength : option N) (text : jsstring) (w : World Api) :
  aborted w = true ->
  (forall content,
     fst (call browser fuel contextLength text w) <> Returns content) /\
  updates (snd (call browser fuel contextLength text w)) = updates w /\
  exists new,
    requests (snd (call browser fuel contextLength text w))
    = requests w ++ new /\
    Forall (fun q => inputOf q = None) new.
Proof.
  intros Hab.
  destruct (call browser fuel contextLength text w) as [r w'] eqn:H.
  cbn [fst snd].
  apply call_inv in H as [(Hupd & Hreq & Hno)|(s & w1 & Hab' & _)].
  - tauto.
  - congruence.
Qed.

(** Under a shrinking summarizer, the summaries of non-empty chunks come
    back shorter, one for each chunk. *)
Lemma summarizeAll_shrinking (chunks : list jsstring) :
  Shrinking browser ->
  Forall (fun c => c <> []) chunks ->
  forall summaries (w : World Api),
    aborted w = false ->
    exists reduced w',
      summarizeAll browser chunks summaries w
      = (Returns (summaries ++ reduced), w') /\
      aborted w' = false /\
      Forall2 (fun c s => length s < length c) chunks reduced.
Proof.
  intros Hshrink. induction 1 as [|c cs Hc Hcs IH]; intros summaries w Hab.
  - exists [], w. simpl. rewrite app_nil_r. repeat split; auto.
  - destruct (Hshrink (api w) c Hc) as (summary & Hsum & Hlen).
    simpl. unfold bind at 1, throwIfAborted. rewrite Hab.
    unfold bind at 1, raceWithSignal.
    destruct (summarize browser (api w) c) as [s a'] eqn:Hrun.
    simpl in Hsum. subst s. cbn [fired settled]. rewrite Hab. cbn [orb].
    destruct (IH (summaries ++ [summary])
                (answered (SummarizeRequest c)
                   {| settled := Ok summary; fired := false |} a' w))
      as (reduced & w' & Hrest & Hab' & Hall).
    { simpl. now rewrite Hab. }
    exists (summary :: reduced), w'. rewrite Hrest. split; [|split].
    + now rewrite <- app_assoc.
    + assumption.
    + now constructor.
Qed.

(** The summaries of a round, joined by line feeds, are shorter than the
    chunks of the round together. *)
Lemma joined_summaries_shorter (chunks reduced : list jsstring) :
  Forall2 (fun c s => length s < length c) chunks reduced ->
  chunks <> [] ->
  length (join [10%N] reduced) < length (concat chunks).
Proof.
  induction 1 as [|c s cs ss Hlen Hrest IH]; intros Hne;
    [exfalso; apply Hne; reflexivity|].
  destruct Hrest as [|c' s' cs' ss' Hlen' Hrest'].
  - simpl. rewrite app_nil_r. exact Hlen.
  - assert (IH' : length (join [10%N] (s' :: ss'))
                  < length (concat (c' :: cs'))) by (apply IH; discriminate).
    change (join [10%N] (s :: s' :: ss'))
      with (s ++ [10%N] ++ join [10%N] (s' :: ss')).
    change (concat (c :: c' :: cs')) with (c ++ concat (c' :: cs')).
    rewrite !length_app. simpl length at 2. unfold jsstring, char in *. lia.
Qed.

Lemma recursiveSummarize_returns (maxChars : nat) :
  Shrinking browser ->
  1 <= maxChars ->
  forall fuel summaries (w : World Api),
    length (join [10%N] summaries) <= fuel ->
    aborted w = false ->
    exists combined w',
      recursiveSummarize_fuel browser fuel summaries maxChars w
      = (Returns combined, w') /\
      length combined <= maxChars.
Proof.
  intros Hshrink HB.
  induction fuel as [|fuel IH]; intros summaries w Hfuel Hab; simpl;
    unfold bind at 1, throwIfAborted; rewrite Hab;
    destruct (length (join [10%N] summaries) <=? maxChars) eqn:Hfit.
  - apply Nat.leb_le in Hfit. now exists (join [10%N] summaries), w.
  - apply Nat.leb_gt in Hfit. lia.
  - apply Nat.leb_le in Hfit. now exists (join [10%N] summaries), w.
  - apply Nat.leb_gt in Hfit.
    set (combined := join [10%N] summaries) in *.
    assert (Hne : combined <> []) by (intros E; rewrite E in Hfit; simpl in Hfit; lia).
    destruct (@summarizeAll_shrinking (splitText combined maxChars) Hshrink
                (splitText_nonempty HB Hne) [] w Hab)
      as (reduced & w1 & Hround & Hab1 & Hall).
    unfold bind at 1. rewrite Hround. cbn [app].
    apply IH; [|assumption].
    destruct (splitText combined maxChars) as [|c cs] eqn:Hsp.
    + inversion Hall. simpl. lia.
    + pose proof (joined_summaries_shorter Hall ltac:(discriminate)) as Hlt.
      pose proof (Decomp_total_length (splitText_Decomp combined HB)) as Htot.
      rewrite Hsp in Htot. unfold jsstring, char in *. lia.
Qed.

(** X28.  With a summarizer that answers every request on a non-empty
    text with a shorter text before the signal fires,
    [_recursiveSummarize] returns, after at most as many rounds as the
    joined summaries have code units, a text within [maxChars]. *)
Theorem recursiveSummarize_terminates (summaries : list jsstring)
  (maxChars : nat) (w : World Api) :
  Shrinking browser ->
  1 <= maxChars ->
  aborted w = false ->
  exists combined w',
    recursiveSummarize_fuel browser (length (join [10%N] summaries))
      summaries maxChars w
    = (Returns combined, w') /\
    length combined <= maxChars.
Proof.
  intros Hshrink HB Hab. now apply recursiveSummarize_returns.
Qed.

End ChromeSummarizerFacts.

Section ChromeSummarizerSamples.
Import ChromeSummarizer.

Lemma dropLast_Shrinking : Shrinking dropLast.
Proof.
  intros a input Hne. exists (firstn (length input - 1) input).
  split; [reflexivity|]. rewrite length_firstn.
  destruct input; [congruence | simpl; lia].
Qed.


Lemma chrome_call_cancelled_at_start_witness :
  (forall content,
     fst (call dropLast 0 None (lit "abc") (freshWorld tt true))
     <> Returns content) /\
  updates (snd (call dropLast 0 None (lit "abc") (freshWorld tt true)))
  = updates (freshWorld tt true) /\
  exists new,
    requests (snd (call dropLast 0 None (lit "abc") (freshWorld tt true)))
    = requests (freshWorld tt true) ++ new /\
    Forall (fun q => inputOf q = None) new.
Proof.
  apply (@chrome_call_cancelled_at_start unit dropLast 0 None (lit "abc")
           (freshWorld tt true)).
  reflexivity.
Defined.

Lemma recursiveSummarize_terminates_witness :
  exists combined w',
    recursiveSummarize_fuel dropLast
      (length (join [10%N] [lit "aaa"; lit "bbb"; lit "ccc"]))
      [lit "aaa"; lit "bbb"; lit "ccc"] 6 (freshWorld tt false)
    = (Returns combined, w') /\
    length combined <= 6.
Proof.
  apply (@recursiveSummarize_terminates unit dropLast
           [lit "aaa"; lit "bbb"; lit "ccc"] 6 (freshWorld tt false)).
  - exact dropLast_Shrinking.
  - lia.
  - reflexivity.
Defined.

End ChromeSummarizerSamples.
(* ===================================================================== *)
(** ** The prompt of a run *)
(* ===================================================================== *)

Example LANGUAGE_NAMES_codes :
  map fst LANGUAGE_NAMES
  = [lit "en"; lit "ru"; lit "uk"; lit "de"; lit "fr"; lit "es"; lit "it";
     lit "pt"; lit "pl"; lit "zh"; lit "ja"].
Proof. reflexivity. Qed.

Example getLanguageInstruction_browser :
  getLanguageInstruction noInherited [] (lit "pt-BR")
  = lit "IMPORTANT: You MUST respond in " ++ [34%N]
      ++ lit "Portugu" ++ [234%N] ++ lit "s" ++ [34%N]
      ++ lit " language regardless of the article's language.".
Proof. reflexivity. Qed.

Example prompt_of_braveShort :
  SanitizeTab.prompt noInherited braveShort (lit "pt-BR")
  = getLanguageInstruction noInherited (lit "pt") []
      ++ [10%N; 10%N] ++ DEFAULT_PROMPT
      ++ [10%N; 10%N] ++ getVerbosityInstruction VERBOSITY_SHORT
      ++ [10%N; 10%N] ++ FACT_CHECK_INSTRUCTION.
Proof. vm_compute. reflexivity. Qed.

(** The first piece of a text on a separator of one code unit that the
    text before its first occurrence does not hold. *)
Lemma split_first_piece (s : char) (before after : jsstring) :
  includes [s] before = false ->
  hd [] (split (before ++ [s] ++ after) [s]) = before.
Proof.
  intros Hno. rewrite split_app_char, (split_no_match _ _ Hno).
  cbn [removelast last app hd].
  change ([s] ++ after) with (s :: after). unfold split at 1.
  rewrite (@split_scan_eq [s] (s :: after) [] ltac:(discriminate)).
  cbn [startsWith]. rewrite N.eqb_refl. cbn [andb hd].
  apply app_nil_r.
Qed.

(** X29.  With the browser default selected, the language of the response
    follows the browser's UI language by the part before its first hyphen:
    for a locale [lang-region], [getLanguageInstruction('', locale)] is
    [getLanguageInstruction(lang)]. *)
Theorem language_from_browser_locale
  (inherited : jsstring -> option jsstring) (lang region : jsstring) :
  includes (lit "-") lang = false ->
  getLanguageInstruction inherited [] (lang ++ lit "-" ++ region)
  = getLanguageInstruction inherited lang [].
Proof.
  intros Hno. unfold getLanguageInstruction. cbn [truthy].
  change (lit "-") with [45%N] in *.
  pose proof (@split_first_piece 45%N lang region Hno) as Hp.
  unfold jsstring, char in *. rewrite Hp.
  assert (Ht : truthy (lang ++ [45%N] ++ region) = true)
    by (destruct lang; reflexivity).
  rewrite Ht. clear Hp Ht Hno. destruct lang; reflexivity.
Qed.

Lemma language_from_browser_locale_witness :
  getLanguageInstruction noInherited [] (lit "pt" ++ lit "-" ++ lit "BR")
  = getLanguageInstruction noInherited (lit "pt") [].
Proof. apply language_from_browser_locale. reflexivity. Defined.

Lemma getVerbosityInstruction_truthy (verbosity : jsstring) :
  truthy (getVerbosityInstruction verbosity) = true.
Proof.
  unfold getVerbosityInstruction.
  destruct (jsstring_eqb verbosity VERBOSITY_SHORT); [reflexivity|].
  destruct (jsstring_eqb verbosity VERBOSITY_DETAILED); reflexivity.
Qed.

Lemma basePrompt_truthy (settings : StoredSettings) :
  truthy (SanitizeTab.basePrompt settings) = true.
Proof.
  unfold SanitizeTab.basePrompt.
  destruct (settings (lit "prompt")) as [p|]; [|reflexivity].
  destruct (truthy p) eqn:Hp; [exact Hp | reflexivity].
Qed.

(** X30.  The prompt of a run always holds the base prompt (the user's, or
    [DEFAULT_PROMPT] where none is set) and after it, a blank line apart,
    the verbosity instruction; the language instruction comes first where
    there is one; and the fact-check instruction comes last exactly when
    the web search tool is among the tools of the run. *)
Theorem prompt_parts (inherited : jsstring -> option jsstring)
  (settings : StoredSettings) (browserLang : jsstring) :
  SanitizeTab.prompt inherited settings browserLang
  = (if truthy (SanitizeTab.langInstruction inherited settings browserLang)
     then SanitizeTab.langInstruction inherited settings browserLang
            ++ [10%N; 10%N]
     else [])
    ++ SanitizeTab.basePrompt settings
    ++ [10%N; 10%N]
    ++ SanitizeTab.verbosityInstruction settings
    ++ match SanitizeTab.tools settings with
       | [] => []
       | _ :: _ => [10%N; 10%N] ++ FACT_CHECK_INSTRUCTION
       end.
Proof.
  unfold SanitizeTab.prompt, SanitizeTab.tools, SanitizeTab.factCheckBlock,
    SanitizeTab.verbosityInstruction.
  pose proof (basePrompt_truthy settings) as Hb.
  pose proof (getVerbosityInstruction_truthy
                (SanitizeTab.verbosity settings)) as Hv.
  cbn [filter]. rewrite Hb, Hv.
  destruct (SanitizeTab.basePrompt settings) as [|b bs]; [discriminate|].
  destruct (getVerbosityInstruction (SanitizeTab.verbosity settings))
    as [|v vs]; [discriminate|].
  assert (Hf : truthy FACT_CHECK_INSTRUCTION = true) by reflexivity.
  destruct (SanitizeTab.searchMatch settings) as [m|];
    destruct (truthy (SanitizeTab.langInstruction inherited settings
                        browserLang)) eqn:Hl;
    rewrite ?Hf; cbn [truthy filter];
    destruct FACT_CHECK_INSTRUCTION as [|f fs]; try discriminate;
    cbn [join app]; rewrite ?app_nil_r, <- ?app_assoc; cbn [app];
    reflexivity.
Qed.
